(** * Pootle [TreeItem] mixin: cached hierarchical statistics

    A shallow embedding of [pootle/core/mixins/treeitem.py].  A [TreeItem]
    keeps aggregated statistics of a tree (or DAG) of nodes in the Django
    cache, one entry per node and per cached method, and offers an
    invalidation protocol ([flag_for_deletion], [clear_flagged_cache],
    [clear_all_cache]) as well as the eager write path [set_last_action].

    The object graph is mutable Python state; it is modelled by explicit
    state passing through a small state-and-exception monad.  Recursion over
    the graph is bounded by fuel, since nothing in the source prevents the
    navigator from describing a cyclic graph. *)

From Stdlib Require Import ZArith Lia Ascii.
From stdpp Require Import gmap strings list fin_maps.

(** ** Values held by the cache *)

(** A node is identified by the identity of its in-memory instance. *)
Definition node := nat.

(** The record built by [_get_last_action]:
    [{'id': 0, 'mtime': 0, 'snippet': ''}].  A field is [None] when the
    dictionary has no such key. *)
Record action := mk_action {
  a_id : option Z;
  mtime : option Z;
  snippet : option string }.

(** The record built by [_get_last_updated]:
    [{'id': 0, 'creation_time': 0, 'snippet': ''}]. *)
Record updated := mk_updated {
  u_id : option Z;
  creation_time : option Z;
  u_snippet : option string }.

(** The record built by [_get_checks]: [{'unit_count': 0, 'checks': {}}]. *)
Record checks_stat := mk_checks {
  unit_count : Z;
  checks : gmap string Z }.

(** Python values that the cached methods produce: integers (word counts),
    [datetime] objects (as seconds on the time line) and the three
    dictionaries above. *)
Inductive value :=
| VInt (z : Z)
| VTime (t : Z)
| VAction (a : action)
| VUpdated (u : updated)
| VChecks (c : checks_stat).

Global Instance action_eq_dec : EqDecision action.
Proof. solve_decision. Defined.
Global Instance updated_eq_dec : EqDecision updated.
Proof. solve_decision. Defined.
Global Instance checks_stat_eq_dec : EqDecision checks_stat.
Proof. solve_decision. Defined.
Global Instance value_eq_dec : EqDecision value.
Proof. solve_decision. Defined.

(** ** Exceptions and the state monad *)

Inductive error := NotImplementedError | TypeError | KeyError | ValueError.

(** Outcome of a call: a normal return, a raised exception, or exhaustion
    of the recursion budget (the Python call would not have returned). *)
Inductive res (A : Type) :=
| Ok (a : A)
| Raise (e : error)
| OutOfFuel.
Arguments Ok {A} a.
Arguments Raise {A} e.
Arguments OutOfFuel {A}.

Global Instance res_ret : MRet res := λ A a, Ok a.
Global Instance res_bind : MBind res := λ A B f m,
  match m with
  | Ok a => f a
  | Raise e => Raise e
  | OutOfFuel => OutOfFuel
  end.

(** ** [CachedMethods] *)

(** The class attributes of [CachedMethods]; [method_name] gives the string
    each one holds. *)
Inductive CachedMethods :=
| CHECKS | TOTAL | TRANSLATED | FUZZY
| LAST_ACTION | SUGGESTIONS | MTIME | LAST_UPDATED.

Global Instance CachedMethods_eq_dec : EqDecision CachedMethods.
Proof. solve_decision. Defined.

Definition method_name (m : CachedMethods) : string :=
  match m with
  | CHECKS => "get_checks"
  | TOTAL => "get_total_wordcount"
  | TRANSLATED => "get_translated_wordcount"
  | FUZZY => "get_fuzzy_wordcount"
  | LAST_ACTION => "get_last_action"
  | SUGGESTIONS => "get_suggestion_count"
  | MTIME => "get_mtime"
  | LAST_UPDATED => "get_last_updated"
  end.

(** [dir(self)] lists attribute names in alphabetical order. *)
Definition all_methods : list CachedMethods :=
  [CHECKS; FUZZY; LAST_ACTION; LAST_UPDATED; MTIME; SUGGESTIONS; TOTAL;
   TRANSLATED].

Definition get_all : list string := method_name <$> all_methods.

(** ** What subclasses and the framework provide *)

(** The methods "overridden in descendants" and Django's [iri_to_uri].
    [get_cachekey] is [None] where the subclass leaves it unimplemented
    (the base method raises [NotImplementedError]). *)
Class TreeItemImpl := {
  get_children : node → list node;
  get_parents : node → list node;
  get_cachekey : node → option string;
  _get_total_wordcount : node → Z;
  _get_translated_wordcount : node → Z;
  _get_fuzzy_wordcount : node → Z;
  _get_suggestion_count : node → Z;
  _get_checks : node → checks_stat;
  _get_last_action : node → action;
  _get_mtime : node → Z;
  _get_last_updated : node → updated;
  iri_to_uri : string → string }.

(** ** Program state *)

(** The instance attributes set by [TreeItem.__init__]. *)
Record obj := mk_obj {
  children : option (list node);
  initialized : bool;
  _flagged_for_deletion : gset string }.

Definition new_obj : obj :=
  {| children := None; initialized := false; _flagged_for_deletion := ∅ |}.

(** [cache] is the Django cache, [heap] the in-memory instances, [nav] the
    calls made to the subclass's [get_children], and [logged] the lines
    handed to [log]: the keys and the item key of each deletion message. *)
Record state := mk_state {
  cache : gmap string value;
  heap : gmap node obj;
  nav : list node;
  logged : list (gset string * string) }.

Definition M (A : Type) : Type := state → res (A * state).

Global Instance M_ret : MRet M := λ A a st, Ok (a, st).
Global Instance M_bind : MBind M := λ A B f m st,
  match m st with
  | Ok (a, st') => f a st'
  | Raise e => Raise e
  | OutOfFuel => OutOfFuel
  end.

Definition raise {A} (e : error) : M A := λ _, Raise e.
Definition out_of_fuel {A} : M A := λ _, OutOfFuel.
Definition lift {A} (r : res A) : M A := λ st,
  match r with
  | Ok a => Ok (a, st)
  | Raise e => Raise e
  | OutOfFuel => OutOfFuel
  end.

(** An absent [else] branch. *)
Definition pass : M unit := mret tt.

(** [for x in l: body(x)], without [break]. *)
Fixpoint for_each {A} (l : list A) (body : A → M unit) : M unit :=
  match l with
  | [] => mret tt
  | x :: l' => body x ;; for_each l' body
  end.

(** The list comprehension [[f(x) for x in l]]. *)
Fixpoint comprehension {A B} (f : A → M B) (l : list A) : M (list B) :=
  match l with
  | [] => mret []
  | x :: l' => v ← f x; vs ← comprehension f l'; mret (v :: vs)
  end.

(** ** Primitive state accesses *)

Definition obj_of (st : state) (n : node) : obj :=
  default new_obj (heap st !! n).

Definition with_cache (st : state) (c : gmap string value) : state :=
  {| cache := c; heap := heap st; nav := nav st; logged := logged st |}.

Definition with_heap (st : state) (h : gmap node obj) : state :=
  {| cache := cache st; heap := h; nav := nav st; logged := logged st |}.

Definition self (n : node) : M obj := λ st, Ok (obj_of st n, st).

Definition set_self (n : node) (o : obj) : M unit := λ st,
  Ok (tt, with_heap st (<[n := o]> (heap st))).

Definition cache_get (key : string) : M (option value) := λ st,
  Ok (cache st !! key, st).

Definition cache_set (key : string) (v : value) : M unit := λ st,
  Ok (tt, with_cache st (<[key := v]> (cache st))).

Definition cache_delete (key : string) : M unit := λ st,
  Ok (tt, with_cache st (delete key (cache st))).

Definition log (keys : gset string) (itemkey : string) : M unit := λ st,
  Ok (tt, {| cache := cache st; heap := heap st; nav := nav st;
             logged := logged st ++ [(keys, itemkey)] |}).

Section TreeItem.
Context `{Impl : TreeItemImpl}.

(** The call [self.get_children()], recorded in [nav]. *)
Definition call_get_children (n : node) : M (list node) := λ st,
  Ok (get_children n,
      {| cache := cache st; heap := heap st; nav := nav st ++ [n];
         logged := logged st |}).

(** The call [self.get_cachekey()]. *)
Definition call_get_cachekey (n : node) : M string :=
  match get_cachekey n with
  | Some k => mret k
  | None => raise NotImplementedError
  end.

(** [iri_to_uri(itemkey + ":" + key)] *)
Definition make_key (itemkey key : string) : string :=
  iri_to_uri (itemkey +:+ ":" +:+ key).

(** ** Helpers of [pootle_misc.util] *)

(** Modelled from the spec: [getfromcache] of [pootle_misc.util], which is
    not part of the sources at hand.  The spec's aggregator pattern: if the
    cache has an entry for the node and the method, return it; otherwise
    compute, store the result under that key and return it. *)
Definition getfromcache (name : string) (function : node → M value)
    (n : node) : M value :=
  itemkey ← call_get_cachekey n;
  let key := make_key itemkey name in
  result ← cache_get key;
  match result with
  | Some v => mret v
  | None => v ← function n; cache_set key v;; mret v
  end.

(** Modelled from the spec: [get_cached_value] of [pootle_misc.util]; the
    currently cached entry of a node for a method, absent as [None]. *)
Definition get_cached_value (n : node) (fn : string) : M (option value) :=
  itemkey ← call_get_cachekey n;
  cache_get (make_key itemkey fn).

(** Modelled from the spec: [set_cached_value] of [pootle_misc.util]; writes
    a value directly into the cache entry of a node for a method. *)
Definition set_cached_value (n : node) (fn : string) (v : value) : M unit :=
  itemkey ← call_get_cachekey n;
  cache_set (make_key itemkey fn) v.

(** Modelled from the spec: [dictsum] of [pootle_misc.util]; the key-wise
    sum of two dictionaries of counts, a missing key counting as 0. *)
Definition dictsum (x y : gmap string Z) : gmap string Z :=
  union_with (λ a b, Some (a + b)%Z) x y.

(** [statslog] with [log_stat] left at [False], as in every call below:
    the wrapped function is called and its result returned. *)
Definition statslog {A} (function : node → M A) : node → M A := function.

(** ** Python operators on values *)

(** [a + b]: defined on integers. *)
Definition py_add (a b : value) : res value :=
  match a, b with
  | VInt x, VInt y => Ok (VInt (x + y))
  | _, _ => Raise TypeError
  end.

(** [sum(l)]: starts from the integer 0 and adds from the left. *)
Fixpoint sum_from (acc : value) (l : list value) : res value :=
  match l with
  | [] => Ok acc
  | v :: l' => acc' ← py_add acc v; sum_from acc' l'
  end.

Definition py_sum (l : list value) : res value := sum_from (VInt 0) l.

(** [max(l, key=key)]: the first item whose key is greatest. *)
Fixpoint max_from (key : value → res Z) (best : value) (kbest : Z)
    (l : list value) : res value :=
  match l with
  | [] => Ok best
  | v :: l' =>
      k ← key v;
      if (kbest <? k)%Z then max_from key v k l' else max_from key best kbest l'
  end.

Definition py_max_key (key : value → res Z) (l : list value) : res value :=
  match l with
  | [] => Raise ValueError
  | v :: l' => k ← key v; max_from key v k l'
  end.

(** [lambda x: x['mtime'] if 'mtime' in x else 0].  The test ['mtime' in x]
    is false on a dictionary without that key and a type error on an
    integer or a [datetime]. *)
Definition mtime_key (x : value) : res Z :=
  match x with
  | VAction a => Ok (default 0%Z (mtime a))
  | VUpdated _ | VChecks _ => Ok 0%Z
  | VInt _ | VTime _ => Raise TypeError
  end.

(** [lambda x: x['creation_time'] if 'creation_time' in x else 0] *)
Definition creation_time_key (x : value) : res Z :=
  match x with
  | VUpdated u => Ok (default 0%Z (creation_time u))
  | VAction _ | VChecks _ => Ok 0%Z
  | VInt _ | VTime _ => Raise TypeError
  end.

(** The order of [datetime] objects; comparing one with anything else is a
    type error. *)
Definition time_key (x : value) : res Z :=
  match x with
  | VTime t => Ok t
  | _ => Raise TypeError
  end.

(** [item_res['checks']] and [item_res['unit_count']] *)
Definition as_checks (x : value) : res checks_stat :=
  match x with
  | VChecks c => Ok c
  | VAction _ | VUpdated _ => Raise KeyError
  | VInt _ | VTime _ => Raise TypeError
  end.

(** Truth value of a cached entry: [None], 0 and the empty dictionary are
    false. *)
Definition truthy (v : option value) : bool :=
  match v with
  | None => false
  | Some (VInt z) => negb (z =? 0)%Z
  | Some (VTime _) => true
  | Some (VAction a) =>
      bool_decide (is_Some (a_id a)) || bool_decide (is_Some (mtime a))
      || bool_decide (is_Some (snippet a))
  | Some (VUpdated u) =>
      bool_decide (is_Some (u_id u)) || bool_decide (is_Some (creation_time u))
      || bool_decide (is_Some (u_snippet u))
  | Some (VChecks _) => true
  end.

(** [x['mtime']] *)
Definition subscript_mtime (x : value) : res Z :=
  match x with
  | VAction a =>
      match mtime a with Some m => Ok m | None => Raise KeyError end
  | VUpdated _ | VChecks _ => Raise KeyError
  | VInt _ | VTime _ => Raise TypeError
  end.

(** ** [TreeItem] *)

Definition initialize_children (n : node) : M unit :=
  o ← self n;
  if initialized o then pass
  else
    cs ← call_get_children n;
    set_self n {| children := Some cs; initialized := true;
                  _flagged_for_deletion := _flagged_for_deletion o |}.

(** [self.children], as the iterable of a loop: iterating over [None] is a
    type error. *)
Definition self_children (n : node) : M (list node) :=
  o ← self n;
  match children o with
  | Some cs => mret cs
  | None => raise TypeError
  end.

(** [_sum(self, name)], where [getattr] resolves a method name on an item. *)
Definition _sum (getattr : CachedMethods → node → M value) (n : node)
    (name : CachedMethods) : M value :=
  cs ← self_children n;
  vs ← comprehension (getattr name) cs;
  lift (py_sum vs).

(** The bodies of the four counting methods, which differ in the raw
    provider and the method name only. *)
Definition count_body (raw : node → Z) (name : CachedMethods)
    (getattr : CachedMethods → node → M value) (n : node) : M value :=
  initialize_children n;;
  s ← _sum getattr n name;
  lift (py_add (VInt (raw n)) s).

(** The bodies of [get_last_action], [get_mtime] and [get_last_updated]:
    the greatest of the node's own value and the children's values, under
    the key of the method ([get_mtime] compares the [datetime] values
    themselves). *)
Definition max_body (own : node → value) (key : value → res Z)
    (name : CachedMethods) (getattr : CachedMethods → node → M value)
    (n : node) : M value :=
  initialize_children n;;
  cs ← self_children n;
  vs ← comprehension (getattr name) cs;
  lift (py_max_key key (own n :: vs)).

Definition last_action_body :=
  max_body (λ n, VAction (_get_last_action n)) mtime_key LAST_ACTION.

Definition mtime_body :=
  max_body (λ n, VTime (_get_mtime n)) time_key MTIME.

Definition last_updated_body :=
  max_body (λ n, VUpdated (_get_last_updated n)) creation_time_key
    LAST_UPDATED.

(** One iteration of the loop of [get_checks] on the dictionary [result]. *)
Definition add_checks (result item_res : checks_stat) : checks_stat :=
  {| checks := dictsum (checks result) (checks item_res);
     unit_count := unit_count result + unit_count item_res |}.

(** The loop of [get_checks]: [result] is updated in place for each child. *)
Fixpoint checks_loop (getattr : CachedMethods → node → M value)
    (result : checks_stat) (cs : list node) : M checks_stat :=
  match cs with
  | [] => mret result
  | item :: cs' =>
      item_res ← getattr CHECKS item;
      c ← lift (as_checks item_res);
      checks_loop getattr (add_checks result c) cs'
  end.

Definition checks_body (getattr : CachedMethods → node → M value)
    (n : node) : M value :=
  let result := _get_checks n in
  initialize_children n;;
  cs ← self_children n;
  r ← checks_loop getattr result cs;
  mret (VChecks r).

Definition method_body (name : CachedMethods)
    (getattr : CachedMethods → node → M value) : node → M value :=
  match name with
  | TOTAL => count_body _get_total_wordcount TOTAL getattr
  | TRANSLATED => count_body _get_translated_wordcount TRANSLATED getattr
  | FUZZY => count_body _get_fuzzy_wordcount FUZZY getattr
  | SUGGESTIONS => count_body _get_suggestion_count SUGGESTIONS getattr
  | LAST_ACTION => last_action_body getattr
  | MTIME => mtime_body getattr
  | LAST_UPDATED => last_updated_body getattr
  | CHECKS => checks_body getattr
  end.

(** [getattr(item, name)()]: the decorated method [name] called on [item].
    Every cached method is [getfromcache(statslog(body))]. *)
Fixpoint getattr (fuel : nat) (name : CachedMethods) (item : node) : M value :=
  match fuel with
  | 0 => out_of_fuel
  | S fuel' =>
      getfromcache (method_name name)
        (statslog (method_body name (getattr fuel'))) item
  end.

Definition get_total_wordcount (fuel : nat) := getattr fuel TOTAL.
Definition get_translated_wordcount (fuel : nat) := getattr fuel TRANSLATED.
Definition get_fuzzy_wordcount (fuel : nat) := getattr fuel FUZZY.
Definition get_suggestion_count (fuel : nat) := getattr fuel SUGGESTIONS.
Definition get_last_action (fuel : nat) := getattr fuel LAST_ACTION.
Definition get_mtime (fuel : nat) := getattr fuel MTIME.
Definition get_last_updated (fuel : nat) := getattr fuel LAST_UPDATED.
Definition get_checks (fuel : nat) := getattr fuel CHECKS.

(** Assignment to the attribute [_flagged_for_deletion] of an instance. *)
Definition with_flagged (o : obj) (keys : gset string) : obj :=
  {| children := children o; initialized := initialized o;
     _flagged_for_deletion := keys |}.

Definition flag_for_deletion (n : node) (args : list string) : M unit :=
  o ← self n;
  set_self n (with_flagged o (_flagged_for_deletion o ∪ list_to_set args)).

(** [pla and pla['mtime'] < last_action['mtime']] *)
Definition parent_is_older (pla : option value) (last_action : action)
    : res bool :=
  if truthy pla then
    match pla with
    | Some v =>
        m ← subscript_mtime v;
        m' ← subscript_mtime (VAction last_action);
        Ok (m <? m')%Z
    | None => Ok false
    end
  else Ok false.

Fixpoint set_last_action (fuel : nat) (n : node) (last_action : action)
    : M unit :=
  match fuel with
  | 0 => out_of_fuel
  | S fuel' =>
      set_cached_value n "get_last_action" (VAction last_action);;
      let parents := get_parents n in
      for_each parents (λ p,
        pla ← get_cached_value p "get_last_action";
        older ← lift (parent_is_older pla last_action);
        if (older : bool) then set_last_action fuel' p last_action else pass)
  end.

(** [_clear_cache(self, keys, parents, children)].  In the recursive call on
    a parent the keyword [parents] receives the list of parents itself,
    which is true since the loop body runs. *)
Fixpoint _clear_cache (fuel : nat) (n : node) (keys : gset string)
    (parents children : bool) : M unit :=
  match fuel with
  | 0 => out_of_fuel
  | S fuel' =>
      itemkey ← call_get_cachekey n;
      for_each (elements keys) (λ key, cache_delete (make_key itemkey key));;
      (if bool_decide (keys ≠ ∅) then log keys itemkey else pass);;
      (if parents then
         let parents : list node := get_parents n in
         for_each parents (λ p,
           _clear_cache fuel' p keys (bool_decide (parents ≠ [])) false)
       else pass);;
      (if children then
         initialize_children n;;
         cs ← self_children n;
         for_each cs (λ item, _clear_cache fuel' item keys false true)
       else pass)
  end.

Definition clear_flagged_cache (fuel : nat) (n : node)
    (parents children : bool) : M unit :=
  o ← self n;
  _clear_cache fuel n (_flagged_for_deletion o) parents children;;
  o' ← self n;
  set_self n (with_flagged o' ∅).

Definition clear_all_cache (fuel : nat) (n : node)
    (children parents : bool) : M unit :=
  let all_cache_methods := get_all in
  flag_for_deletion n all_cache_methods;;
  clear_flagged_cache fuel n parents children.

(** The eight reads that end [refresh_stats]. *)
Definition read_all (fuel : nat) (n : node) : M unit :=
  get_total_wordcount fuel n;;
  get_translated_wordcount fuel n;;
  get_fuzzy_wordcount fuel n;;
  get_suggestion_count fuel n;;
  get_last_action fuel n;;
  get_checks fuel n;;
  get_mtime fuel n;;
  get_last_updated fuel n;;
  mret tt.

(** [refresh_stats(self, include_children)].  The child loop has no
    [break], so the [else] clause of the [for] statement runs whenever the
    loop ends. *)
Fixpoint refresh_stats (fuel : nat) (n : node) (include_children : bool)
    : M unit :=
  match fuel with
  | 0 => out_of_fuel
  | S fuel' =>
      initialize_children n;;
      (if include_children then
         cs ← self_children n;
         for_each cs (λ item, refresh_stats fuel' item true);;
         clear_all_cache fuel n false true
       else pass);;
      read_all fuel n
  end.

(** [k] calls in a row. *)
Fixpoint times (k : nat) (m : M unit) : M unit :=
  match k with
  | 0 => pass
  | S k' => m ;; times k' m
  end.

(** ** Assumptions on the navigator and on the heap *)

(** Children are strictly lower than their parent. *)
Definition children_wf (height : node → nat) : Prop :=
  ∀ n c, c ∈ get_children n → height c < height n.

(** Parents are strictly closer to a root than their child. *)
Definition parents_wf (depth : node → nat) : Prop :=
  ∀ n p, p ∈ get_parents n → depth p < depth n.

Definition keys_implemented : Prop := ∀ n, is_Some (get_cachekey n).

(** Two cache entries share a key only if they belong to the same node and
    the same method. *)
Definition keys_distinct : Prop :=
  ∀ n n' k k' m m',
    get_cachekey n = Some k → get_cachekey n' = Some k' →
    make_key k (method_name m) = make_key k' (method_name m') →
    n = n' ∧ m = m'.

(** The memoised children of an instance are the ones the navigator
    returns. *)
Definition heap_ok (st : state) : Prop :=
  ∀ n, initialized (obj_of st n) = true →
       children (obj_of st n) = Some (get_children n).

(** The instance of [n] once its children are loaded. *)
Definition loaded (n : node) (o : obj) : obj :=
  {| children := Some (get_children n); initialized := true;
     _flagged_for_deletion := _flagged_for_deletion o |}.

(** [a] is [n] or one of its ancestors; [d] is [n] or one of its
    descendants. *)
Definition ancestor (n a : node) : Prop :=
  rtc (λ x p, p ∈ get_parents x) n a.
Definition descendant (n d : node) : Prop :=
  rtc (λ x c, c ∈ get_children x) n d.

(** What no method below alters: the flagged keys of every instance, the
    agreement of memoised children with the navigator, and the lines
    already logged. *)
Definition evolves (st st' : state) : Prop :=
  (∀ x, _flagged_for_deletion (obj_of st' x)
        = _flagged_for_deletion (obj_of st x)) ∧
  (heap_ok st → heap_ok st') ∧
  (∃ l, logged st' = logged st ++ l).

(** The cache of [st'] is the cache of [st] without some entries, each of
    them an entry of some node for one of [keys]. *)
Definition deletes_only (keys : gset string) (st st' : state) : Prop :=
  ∀ key,
    cache st' !! key = cache st !! key ∨
    (cache st' !! key = None ∧
     ∃ x ik k, get_cachekey x = Some ik ∧ k ∈ keys ∧ key = make_key ik k).

(** No entry of [st] is deleted or replaced in [st']. *)
Definition keeps_entries (st st' : state) : Prop :=
  ∀ key v, cache st !! key = Some v → cache st' !! key = Some v.

(** A computation is quiet when it deletes or replaces no cache entry and
    leaves flags, memoised children and logged lines as they are. *)
Definition quiet {A} (m : M A) : Prop :=
  ∀ st a st', m st = Ok (a, st') → evolves st st' ∧ keeps_entries st st'.

(** Above [n] every node has a cache key and parents strictly closer to a
    root. *)
Definition upward_ok (depth : node → nat) (n : node) : Prop :=
  ∀ a, ancestor n a →
       is_Some (get_cachekey a) ∧ ∀ p, p ∈ get_parents a → depth p < depth a.

(** ** Recomputation from scratch *)

Definition sum_list (l : list Z) : Z := foldr Z.add 0%Z l.

(** The first element of [best :: l] whose key is greatest. *)
Definition first_max {A} (key : A → Z) (best : A) (l : list A) : A :=
  foldl (λ b x, if (key b <? key x)%Z then x else b) best l.

(** The statistic of a node computed from the raw values of the node and
    of its descendants alone: the combination [comb] of the node with the
    statistics of its children.  [fuel] bounds the depth explored; the
    height of the node is enough. *)
Fixpoint aggregate {A} (comb : node → list A → A) (fuel : nat) (n : node)
    : A :=
  comb n match fuel with
         | 0 => []
         | S fuel' => aggregate comb fuel' <$> get_children n
         end.

(** The combination rules: counts add up, time stamps and records take the
    first greatest, checks add up key-wise. *)
Definition count_of (raw : node → Z) : nat → node → Z :=
  aggregate (λ n l, raw n + sum_list l)%Z.

Definition max_of {A} (raw : node → A) (key : A → Z) : nat → node → A :=
  aggregate (λ n l, first_max key (raw n) l).

Definition checks_of : nat → node → checks_stat :=
  aggregate (λ n l, foldl add_checks (_get_checks n) l).

Definition recompute (fuel : nat) (name : CachedMethods) (n : node) : value :=
  match name with
  | TOTAL => VInt (count_of _get_total_wordcount fuel n)
  | TRANSLATED => VInt (count_of _get_translated_wordcount fuel n)
  | FUZZY => VInt (count_of _get_fuzzy_wordcount fuel n)
  | SUGGESTIONS => VInt (count_of _get_suggestion_count fuel n)
  | LAST_ACTION =>
      VAction (max_of _get_last_action (λ a, default 0%Z (mtime a)) fuel n)
  | MTIME => VTime (max_of _get_mtime (λ t, t) fuel n)
  | LAST_UPDATED =>
      VUpdated
        (max_of _get_last_updated (λ u, default 0%Z (creation_time u)) fuel n)
  | CHECKS => VChecks (checks_of fuel n)
  end.

(** The value of a statistic recomputed from scratch. *)
Definition from_scratch (height : node → nat) (name : CachedMethods)
    (n : node) : value :=
  recompute (height n) name n.

(** Every entry that the cache holds for a node in [P] is the value
    recomputed from scratch. *)
Definition coherent (height : node → nat) (P : node → Prop) (st : state)
    : Prop :=
  ∀ d ik m v,
    P d → get_cachekey d = Some ik →
    cache st !! make_key ik (method_name m) = Some v →
    v = from_scratch height m d.

(** The cache of [st'] is the cache of [st] where some entries have been
    set to the value recomputed from scratch. *)
Definition fills_in (height : node → nat) (st st' : state) : Prop :=
  ∀ key,
    cache st' !! key = cache st !! key ∨
    ∃ d ik m, get_cachekey d = Some ik ∧ key = make_key ik (method_name m) ∧
              cache st' !! key = Some (from_scratch height m d).

(** The same, where other entries may have been deleted. *)
Definition refreshes (height : node → nat) (st st' : state) : Prop :=
  ∀ key,
    cache st' !! key = cache st !! key ∨
    cache st' !! key = None ∨
    ∃ d ik m, get_cachekey d = Some ik ∧ key = make_key ik (method_name m) ∧
              cache st' !! key = Some (from_scratch height m d).

(** What a cached method achieves on a cache that is coherent below the
    node: it returns the value recomputed from scratch. *)
Definition reads_from_scratch (height : node → nat) (fuel : nat)
    (name : CachedMethods) : Prop :=
  ∀ n st,
    height n < fuel → heap_ok st → coherent height (descendant n) st →
    ∃ st', getattr fuel name n st = Ok (from_scratch height name n, st') ∧
           evolves st st' ∧ fills_in height st st' ∧
           ∀ ik, get_cachekey n = Some ik →
                 cache st' !! make_key ik (method_name name)
                 = Some (from_scratch height name n).

End TreeItem.


(** ** The eager write path as the specification words it *)

Section Specification.
Context `{Impl : TreeItemImpl}.

(** The specification's test for propagating to a parent: its currently
    cached [last_action] has an earlier [mtime] than the new action, or is
    absent. *)
Definition spec_parent_is_older (pla : option value) (last_action : action)
    : res bool :=
  match pla with
  | None => Ok true
  | Some _ => parent_is_older pla last_action
  end.

(** [setLastAction] as the specification describes it. *)
Fixpoint spec_set_last_action (fuel : nat) (n : node) (last_action : action)
    : M unit :=
  match fuel with
  | 0 => out_of_fuel
  | S fuel' =>
      set_cached_value n "get_last_action" (VAction last_action);;
      for_each (get_parents n) (λ p,
        pla ← get_cached_value p "get_last_action";
        older ← lift (spec_parent_is_older pla last_action);
        if (older : bool) then spec_set_last_action fuel' p last_action
        else pass)
  end.

End Specification.

(** ** A sample tree *)

(** Node 0 is the root; its children are 1 and 3; node 2 is the child of
    node 1.  So 0, 1, 2 form a three-level chain.  Cache keys are
    ["n"], ["nI"], ["nII"], ... and [iri_to_uri] leaves them as they are. *)
Fixpoint tally (n : nat) (rest : string) : string :=
  match n with
  | 0 => rest
  | S n' => String "I"%char (tally n' rest)
  end.

Definition key_of (n : node) : string :=
  String "n"%char (tally n EmptyString).

Definition sample_tree (la : node → action) : TreeItemImpl := {|
  get_children n :=
    match n with 0 => [1; 3] | 1 => [2] | _ => [] end;
  get_parents n :=
    match n with 1 => [0] | 2 => [1] | 3 => [0] | _ => [] end;
  get_cachekey n := Some (key_of n);
  _get_total_wordcount n :=
    match n with 0 => 1%Z | 1 => 10%Z | 2 => 100%Z | 3 => 1000%Z | _ => 0%Z end;
  _get_translated_wordcount n := 0%Z;
  _get_fuzzy_wordcount n := 0%Z;
  _get_suggestion_count n := 0%Z;
  _get_checks n :=
    match n with
    | 0 => {| unit_count := 2; checks := {["critical" := 1%Z]} |}
    | 1 => {| unit_count := 3;
              checks := {["critical" := 2%Z; "warning" := 1%Z]} |}
    | _ => {| unit_count := 0; checks := ∅ |}
    end;
  _get_last_action := la;
  _get_mtime n := 0%Z;
  _get_last_updated n :=
    {| u_id := Some 0%Z; creation_time := Some 0%Z; u_snippet := Some EmptyString |};
  iri_to_uri s := s |}.

(** An action with all three fields. *)
Definition action_at (i t : Z) : action :=
  {| a_id := Some i; mtime := Some t; snippet := Some EmptyString |}.

(** Own action at 5 on the root, 3 below node 1, 9 on node 3. *)
Definition sample_actions (n : node) : action :=
  match n with
  | 0 => action_at 0 5
  | 1 => action_at 1 3
  | 2 => action_at 2 1
  | 3 => action_at 3 9
  | _ => action_at 0 0
  end.

Definition sample : TreeItemImpl := sample_tree sample_actions.

(** A record without [mtime]. *)
Definition no_mtime (i : Z) : action :=
  {| a_id := Some i; mtime := None; snippet := Some EmptyString |}.

(** Own action before the epoch on the root, records without [mtime]
    below it. *)
Definition negative_actions (n : node) : action :=
  match n with
  | 0 => action_at 0 (-5)
  | _ => no_mtime (Z.of_nat n)
  end.

(** The order on [last_action] records as the specification words it: by
    [mtime], a record without [mtime] sorting as the minimum possible
    value. *)
Definition spec_below (x y : action) : Prop :=
  match mtime x, mtime y with
  | None, Some _ => True
  | Some a, Some b => (a < b)%Z
  | _, None => False
  end.

Definition sample_height (n : node) : nat :=
  match n with 0 => 2 | 1 => 1 | _ => 0 end.

Definition sample_depth (n : node) : nat :=
  match n with 1 => 1 | 2 => 2 | 3 => 1 | _ => 0 end.

(** The state of a fresh process with an empty cache. *)
Definition empty_state : state :=
  {| cache := ∅; heap := ∅; nav := []; logged := [] |}.

Definition cached (c : gmap string value) : state :=
  {| cache := c; heap := ∅; nav := []; logged := [] |}.

(** ** Further methods and notions *)

Section Further.
Context `{Impl : TreeItemImpl}.

(** [get_error_unit_count(self, log_stat=False)], with [log_stat] left at
    [False]: [check_stats['unit_count']] of the result of [get_checks]. *)
Definition get_error_unit_count (fuel : nat) (n : node) : M value :=
  check_stats ← get_checks fuel n;
  c ← lift (as_checks check_stats);
  mret (VInt (unit_count c)).

(** The raw provider that each of the four counting methods adds to the
    sum over its children. *)
Definition raw_count (name : CachedMethods) : option (node → Z) :=
  match name with
  | TOTAL => Some _get_total_wordcount
  | TRANSLATED => Some _get_translated_wordcount
  | FUZZY => Some _get_fuzzy_wordcount
  | SUGGESTIONS => Some _get_suggestion_count
  | _ => None
  end.

(** The nodes that a call of [_clear_cache] on [n] has to visit: [n], its
    ancestors when [parents] is set, its descendants when [children] is. *)
Definition visited (parents children : bool) (n x : node) : Prop :=
  x = n ∨ (parents = true ∧ ancestor n x) ∨ (children = true ∧ descendant n x).

(** [a] is strictly above [n]: a parent of [n] or an ancestor of one. *)
Definition above (n a : node) : Prop :=
  ∃ p, p ∈ get_parents n ∧ ancestor p a.

(** Python integers among the values. *)
Definition is_int (v : value) : bool :=
  match v with VInt _ => true | _ => false end.

(** A cached [get_last_action] entry on which the test of
    [set_last_action] cannot fail: no entry, or a record with an
    [mtime]. *)
Definition has_mtime (v : option value) : bool :=
  match v with
  | None => true
  | Some (VAction b) => bool_decide (is_Some (mtime b))
  | Some _ => false
  end.

(** The [get_last_action] entry of node [x] in the cache of [st]. *)
Definition last_action_entry (st : state) (x : node) : option value :=
  ik ← get_cachekey x; cache st !! make_key ik "get_last_action".

(** The cached [last_action] of [x] passes the test of the loop of
    [set_last_action] against [a]. *)
Definition older_at (a : action) (s : state) (x : node) : Prop :=
  ∃ kx, get_cachekey x = Some kx ∧
        parent_is_older (cache s !! make_key kx "get_last_action") a = Ok true.

(** [x] and all its ancestors hold [a] as cached [last_action]. *)
Definition closed_at (a : action) (s : state) (x : node) : Prop :=
  ∀ y, ancestor x y →
       ∃ ky, get_cachekey y = Some ky ∧
             cache s !! make_key ky "get_last_action" = Some (VAction a).

(** [x] is [n], or is linked to [n] by a chain of parents each of whose
    cached [last_action] passes, in [st], the test of the loop of
    [set_last_action] against [a]: it is present, not empty, with an
    [mtime] earlier than the one of [a]. *)
Definition reached (a : action) (st : state) (n x : node) : Prop :=
  rtc (λ y p, p ∈ get_parents y ∧ older_at a st p) n x.

(** The [mtime] of the cached [last_action] of [x], when there is one. *)
Definition cached_mtime (st : state) (x : node) : option Z :=
  match last_action_entry st x with
  | Some (VAction b) => mtime b
  | _ => None
  end.

(** The key by which [get_last_action] compares records. *)
Definition action_key (b : action) : Z := default 0%Z (mtime b).

(** The raw [last_action] records once [a] has been recorded on [n]. *)
Definition record_action (n : node) (a : action) (x : node) : action :=
  if decide (x = n) then a else _get_last_action x.

(** The true maximum below [x]: the latest of the raw records [raw] of [x]
    and of all its descendants. *)
Definition true_last_action (height : node → nat) (raw : node → action)
    (x : node) : action :=
  max_of raw action_key (height x) x.

(** The bound on the cached [last_action] of [x]: when present it is not
    older, by [mtime], than the true maximum below [x]. *)
Definition last_action_bound (height : node → nat) (raw : node → action)
    (st : state) (x : node) : Prop :=
  ∀ b, last_action_entry st x = Some (VAction b) →
       (action_key (true_last_action height raw x) ≤ action_key b)%Z.

(** Each entry of [s] is the entry of [st] or is the action [a]. *)
Definition overwrites (a : action) (st s : state) : Prop :=
  ∀ key, cache s !! key = cache st !! key ∨
         cache s !! key = Some (VAction a).

(** The cached [last_action] of [x] is in [s] what it is in [st]. *)
Definition untouched (st s : state) (x : node) : Prop :=
  ∀ kx, get_cachekey x = Some kx →
        cache s !! make_key kx "get_last_action"
        = cache st !! make_key kx "get_last_action".

(** Every node reached from [x] holds [a] as cached [last_action]. *)
Definition saturated (a : action) (st s : state) (x : node) : Prop :=
  ∀ y, reached a st x y →
       ∃ ky, get_cachekey y = Some ky ∧
             cache s !! make_key ky "get_last_action" = Some (VAction a).

(** The two directions of the navigator agree: a child of [p] has [p]
    among its parents. *)
Definition parents_cover_children : Prop :=
  ∀ p c, c ∈ get_children p → p ∈ get_parents c.

(** The entries that [st'] lacks with respect to [st] are entries of nodes
    in [P] for one of [keys]; nothing else differs. *)
Definition deletes_within (P : node → Prop) (keys : gset string)
    (st st' : state) : Prop :=
  ∀ key,
    cache st' !! key = cache st !! key ∨
    (cache st' !! key = None ∧
     ∃ x ik k, P x ∧ get_cachekey x = Some ik ∧ k ∈ keys ∧
               key = make_key ik k).

End Further.

(** Raw actions none of which is later than 5: 5 on the root, 3 on node 1,
    1 on node 2, 4 on node 3. *)
Definition early_actions (n : node) : action :=
  match n with
  | 0 => action_at 0 5
  | 1 => action_at 1 3
  | 2 => action_at 2 1
  | _ => action_at 3 4
  end.

(** The sample tree with a root that leaves [get_cachekey]
    unimplemented. *)
Definition unkeyed_root : TreeItemImpl := {|
  get_children := get_children (TreeItemImpl := sample);
  get_parents := get_parents (TreeItemImpl := sample);
  get_cachekey n := match n with 0 => None | _ => Some (key_of n) end;
  _get_total_wordcount := _get_total_wordcount (TreeItemImpl := sample);
  _get_translated_wordcount :=
    _get_translated_wordcount (TreeItemImpl := sample);
  _get_fuzzy_wordcount := _get_fuzzy_wordcount (TreeItemImpl := sample);
  _get_suggestion_count := _get_suggestion_count (TreeItemImpl := sample);
  _get_checks := _get_checks (TreeItemImpl := sample);
  _get_last_action := sample_actions;
  _get_mtime := _get_mtime (TreeItemImpl := sample);
  _get_last_updated := _get_last_updated (TreeItemImpl := sample);
  iri_to_uri s := s |}.

(** * Properties *)

(** ** Reasoning about the monad *)

Lemma bind_Ok {A B} (m : M A) (f : A → M B) st r :
  (m ≫= f) st = Ok r ↔ ∃ a st1, m st = Ok (a, st1) ∧ f a st1 = Ok r.
Proof.
  unfold mbind, M_bind. split.
  - destruct (m st) as [[a st1]| |]; [eauto | done | done].
  - intros (a & st1 & -> & Hf). done.
Qed.

Lemma bind_step {A B} (m : M A) (f : A → M B) st a st1 :
  m st = Ok (a, st1) → (m ≫= f) st = f a st1.
Proof. unfold mbind, M_bind. by intros ->. Qed.

Lemma lift_Ok {A} (r : res A) st a st' :
  lift r st = Ok (a, st') ↔ r = Ok a ∧ st' = st.
Proof.
  unfold lift. destruct r; split.
  - by intros [= -> ->].
  - by intros [[= ->] ->].
  - done.
  - by intros [? _].
  - done.
  - by intros [? _].
Qed.

Lemma res_bind_Ok {A B} (m : res A) (f : A → res B) b :
  m ≫= f = Ok b ↔ ∃ a, m = Ok a ∧ f a = Ok b.
Proof.
  unfold mbind, res_bind. destruct m; split.
  - eauto.
  - by intros (? & [= ->] & ?).
  - done.
  - by intros (? & ? & _).
  - done.
  - by intros (? & ? & _).
Qed.

(** [run H] rewrites with the outcome [H] of the first computation of a
    sequence. *)
Ltac run H := rewrite (bind_step _ _ _ _ _ H).

(** A loop keeps what each of its iterations keeps. *)
Lemma for_each_keeps {A} (I : state → Prop) (l : list A) (body : A → M unit) :
  (∀ x st u st', x ∈ l → I st → body x st = Ok (u, st') → I st') →
  ∀ st u st', I st → for_each l body st = Ok (u, st') → I st'.
Proof.
  induction l as [|x l IH]; intros Hbody st u st' HI Hrun; simpl in Hrun.
  - by inversion Hrun; subst.
  - apply bind_Ok in Hrun as (u1 & st1 & H1 & H2).
    eapply IH; [| |exact H2].
    + intros y s v s' Hy. apply Hbody. by right.
    + eapply Hbody; [by left|exact HI|exact H1].
Qed.

(** A loop returns when each of its iterations does. *)
Lemma for_each_returns {A} (I : state → Prop) (l : list A) (body : A → M unit) :
  (∀ x st, x ∈ l → I st → ∃ st', body x st = Ok (tt, st') ∧ I st') →
  ∀ st, I st → ∃ st', for_each l body st = Ok (tt, st') ∧ I st'.
Proof.
  induction l as [|x l IH]; intros Hbody st HI; simpl.
  - by exists st.
  - destruct (Hbody x st) as (st1 & H1 & HI1); [by left|done|].
    destruct IH with (st := st1) as (st' & H2 & HI'); [|done|].
    + intros y s Hy. apply Hbody. by right.
    + exists st'. split; [|done]. by run H1.
Qed.

Create HintDb frames.

Section Properties.
Context `{Impl : TreeItemImpl}.

(** ** Frames *)

Lemma evolves_refl st : evolves st st.
Proof. split; [done|]. split; [done|]. exists []. by rewrite app_nil_r. Qed.

Lemma evolves_trans st1 st2 st3 :
  evolves st1 st2 → evolves st2 st3 → evolves st1 st3.
Proof.
  intros (Hf1 & Hh1 & l1 & Hl1) (Hf2 & Hh2 & l2 & Hl2). split; [|split].
  - intros x. by rewrite Hf2, Hf1.
  - auto.
  - exists (l1 ++ l2). by rewrite Hl2, Hl1, app_assoc.
Qed.

Lemma evolves_with_cache st c : evolves st (with_cache st c).
Proof. split; [done|]. split; [done|]. exists []. by rewrite app_nil_r. Qed.

Lemma deletes_only_refl keys st : deletes_only keys st st.
Proof. intros key. by left. Qed.

Lemma deletes_only_trans keys st1 st2 st3 :
  deletes_only keys st1 st2 → deletes_only keys st2 st3 →
  deletes_only keys st1 st3.
Proof.
  intros H1 H2 key. destruct (H2 key) as [Heq|[Hnone Hwho]].
  - rewrite Heq. apply H1.
  - right. done.
Qed.

Lemma deletes_only_None keys st st' key :
  deletes_only keys st st' → cache st !! key = None →
  cache st' !! key = None.
Proof. intros H Hnone. destruct (H key) as [->|[? _]]; done. Qed.

Hint Resolve evolves_refl evolves_with_cache deletes_only_refl : frames.

Lemma obj_of_with_heap_eq st n o :
  obj_of (with_heap st (<[n := o]> (heap st))) n = o.
Proof. unfold obj_of. simpl. by rewrite lookup_insert_eq. Qed.

Lemma obj_of_with_heap_ne st n n' o :
  n ≠ n' → obj_of (with_heap st (<[n := o]> (heap st))) n' = obj_of st n'.
Proof. intros Hne. unfold obj_of. simpl. by rewrite lookup_insert_ne. Qed.

Lemma obj_of_with_cache st c n : obj_of (with_cache st c) n = obj_of st n.
Proof. done. Qed.

(** ** [initialize_children] *)

Lemma initialize_children_fresh n st :
  initialized (obj_of st n) = false →
  initialize_children n st =
    Ok (tt, {| cache := cache st;
               heap := <[n := loaded n (obj_of st n)]> (heap st);
               nav := nav st ++ [n]; logged := logged st |}).
Proof.
  intros Hinit. unfold initialize_children, mbind, M_bind, self. simpl.
  by rewrite Hinit.
Qed.

Lemma initialize_children_done n st :
  initialized (obj_of st n) = true →
  initialize_children n st = Ok (tt, st).
Proof.
  intros Hinit. unfold initialize_children, mbind, M_bind, self. simpl.
  by rewrite Hinit.
Qed.

Lemma obj_of_loaded st n x :
  obj_of {| cache := cache st;
            heap := <[n := loaded n (obj_of st n)]> (heap st);
            nav := nav st ++ [n]; logged := logged st |} x
  = if decide (n = x) then loaded n (obj_of st n) else obj_of st x.
Proof.
  unfold obj_of. simpl. case_decide as Hx.
  - subst. by rewrite lookup_insert_eq.
  - by rewrite lookup_insert_ne.
Qed.

(** [initialize_children] always returns; it leaves the cache alone and,
    on a heap that agrees with the navigator, so does the list it loads. *)
Lemma initialize_children_spec n st :
  ∃ st', initialize_children n st = Ok (tt, st') ∧
         cache st' = cache st ∧ evolves st st' ∧
         initialized (obj_of st' n) = true ∧
         (heap_ok st → children (obj_of st' n) = Some (get_children n)).
Proof.
  destruct (initialized (obj_of st n)) eqn:Hinit.
  - exists st. split; [by apply initialize_children_done|].
    split; [done|]. split; [auto with frames|]. split; [done|].
    intros Hok. by apply Hok.
  - eexists. split; [by apply initialize_children_fresh|].
    split; [done|]. split; [|split].
    + split; [|split].
      * intros x. rewrite obj_of_loaded. by case_decide; subst.
      * intros Hok x. rewrite obj_of_loaded. case_decide; subst; [done|].
        apply Hok.
      * exists []. simpl. by rewrite app_nil_r.
    + rewrite obj_of_loaded. by rewrite decide_True.
    + intros _. rewrite obj_of_loaded. by rewrite decide_True.
Qed.

Lemma self_children_Ok n st cs st' :
  self_children n st = Ok (cs, st') ↔
  children (obj_of st n) = Some cs ∧ st' = st.
Proof.
  unfold self_children, mbind, M_bind, self.
  destruct (children (obj_of st n)); simpl; split.
  - by intros [= -> ->].
  - by intros [[= ->] ->].
  - done.
  - by intros [? _].
Qed.

Lemma times_initialize_children_done k n st :
  initialized (obj_of st n) = true →
  times k (initialize_children n) st = Ok (tt, st).
Proof.
  intros Hinit. induction k as [|k IH]; simpl; [done|].
  by rewrite (bind_step _ _ _ _ _ (initialize_children_done n st Hinit)).
Qed.

(** C9: on an instance whose children are not loaded yet, any positive
    number of calls of [initialize_children] leaves the state that the
    first call alone produces: [get_children] has been invoked exactly once
    (one entry added to the navigator log), the children list is the one it
    returned and [initialized] is set; the calls after the first change
    nothing. *)
Theorem initialize_children_idempotent (n : node) (k : nat) (st : state) :
  initialized (obj_of st n) = false →
  ∃ st1,
    initialize_children n st = Ok (tt, st1) ∧
    times (S k) (initialize_children n) st = Ok (tt, st1) ∧
    nav st1 = nav st ++ [n] ∧
    children (obj_of st1 n) = Some (get_children n) ∧
    initialized (obj_of st1 n) = true ∧
    ∀ j, times j (initialize_children n) st1 = Ok (tt, st1).
Proof.
  intros Hinit.
  pose proof (initialize_children_fresh n st Hinit) as Hfirst.
  eexists. split; [exact Hfirst|].
  assert (Hdone : initialized (obj_of {|
      cache := cache st; heap := <[n:=loaded n (obj_of st n)]> (heap st);
      nav := nav st ++ [n]; logged := logged st |} n) = true).
  { rewrite obj_of_loaded. by rewrite decide_True. }
  split; [|split; [done|split; [|split; [done|]]]].
  - simpl. run Hfirst.
    by apply times_initialize_children_done.
  - rewrite obj_of_loaded. by rewrite decide_True.
  - intros j. by apply times_initialize_children_done.
Qed.

(** ** [_clear_cache] *)

Lemma with_cache_id st : with_cache st (cache st) = st.
Proof. by destruct st. Qed.

Lemma delete_loop_run ik (l : list string) st :
  for_each l (λ key, cache_delete (make_key ik key)) st
  = Ok (tt, with_cache st
              (foldl (λ c key, delete (make_key ik key) c) (cache st) l)).
Proof.
  revert st. induction l as [|k l IH]; intros st; simpl.
  - by rewrite with_cache_id.
  - unfold mbind, M_bind, cache_delete at 1. rewrite IH. done.
Qed.

Lemma lookup_delete_loop (f : string → string) l (c : gmap string value) key :
  foldl (λ c k, delete (f k) c) c l !! key = c !! key ∨
  (foldl (λ c k, delete (f k) c) c l !! key = None ∧ ∃ k, k ∈ l ∧ key = f k).
Proof.
  revert c. induction l as [|k l IH]; intros c; simpl; [by left|].
  destruct (IH (delete (f k) c)) as [Heq|[Hnone (k' & Hk' & ->)]].
  - rewrite Heq. destruct (decide (f k = key)) as [<-|Hne].
    + right. rewrite lookup_delete_eq. split; [done|]. exists k.
      split; [by left|done].
    + left. by rewrite lookup_delete_ne.
  - right. split; [done|]. exists k'. split; [by right|done].
Qed.

Lemma lookup_delete_loop_elem (f : string → string) l (c : gmap string value) k :
  k ∈ l → foldl (λ c k, delete (f k) c) c l !! f k = None.
Proof.
  revert c. induction l as [|k' l IH]; intros c Hk; [by inversion Hk|].
  simpl. destruct (lookup_delete_loop f l (delete (f k') c) (f k))
    as [Heq|[Hnone _]]; [|done].
  apply elem_of_cons in Hk as [->|Hk]; [|by apply IH].
  by rewrite Heq, lookup_delete_eq.
Qed.

Lemma call_get_cachekey_Ok n st ik st' :
  call_get_cachekey n st = Ok (ik, st') ↔ get_cachekey n = Some ik ∧ st' = st.
Proof.
  unfold call_get_cachekey. destruct (get_cachekey n); simpl; split.
  - by intros [= -> ->].
  - by intros [[= ->] ->].
  - done.
  - by intros [? _].
Qed.

Lemma evolves_same_heap st st' l :
  heap st' = heap st → logged st' = logged st ++ l → evolves st st'.
Proof.
  intros Hh Hl. unfold evolves, heap_ok, obj_of. rewrite Hh.
  split; [done|]. split; [done|]. by exists l.
Qed.

(** A loop establishes at its end what the iteration on [p] establishes,
    if every iteration keeps it. *)
Lemma for_each_reaches {A} (Q : state → Prop) (l : list A)
    (body : A → M unit) (p : A) :
  p ∈ l →
  (∀ x st u st', x ∈ l → body x st = Ok (u, st') →
                 (Q st → Q st') ∧ (x = p → Q st')) →
  ∀ st u st', for_each l body st = Ok (u, st') → Q st'.
Proof.
  induction l as [|x l IH]; intros Hp Hbody st u st' Hrun;
    [by inversion Hp|].
  simpl in Hrun. apply bind_Ok in Hrun as (u1 & st1 & H1 & H2).
  apply elem_of_cons in Hp as [->|Hp].
  - assert (Q st1) as HQ.
    { destruct (Hbody x st u1 st1) as [_ Hq]; [by left|done|by apply Hq]. }
    revert HQ H2. apply for_each_keeps.
    intros y s v s' Hy HQ Hy'.
    destruct (Hbody y s v s') as [Hq _]; [by right|done|by apply Hq].
  - eapply IH; [done| |exact H2].
    intros y s v s' Hy. apply Hbody. by right.
Qed.

(** What a call of [_clear_cache] that returns has done: deleted entries
    for [keys] only, among them those of [n], and kept the instances. *)
Lemma _clear_cache_effect fuel :
  ∀ n keys parents children st u st',
    _clear_cache fuel n keys parents children st = Ok (u, st') →
    deletes_only keys st st' ∧ evolves st st' ∧
    (∀ ik k, get_cachekey n = Some ik → k ∈ keys →
             cache st' !! make_key ik k = None).
Proof.
  induction fuel as [|fuel IH]; intros n keys parents children st u st' Hrun;
    [done|].
  simpl in Hrun.
  apply bind_Ok in Hrun as (ik & st0 & Hkey & Hrun).
  apply call_get_cachekey_Ok in Hkey as [Hkey ->].
  apply bind_Ok in Hrun as (u1 & st1 & Hdel & Hrun).
  rewrite delete_loop_run in Hdel. injection Hdel as _ <-.
  apply bind_Ok in Hrun as (u2 & st2 & Hlog & Hrun).
  apply bind_Ok in Hrun as (u3 & st3 & Hpar & Hchi).
  set (I := λ s : state, deletes_only keys st s ∧ evolves st s ∧
     (∀ ik k, get_cachekey n = Some ik → k ∈ keys →
              cache s !! make_key ik k = None)).
  assert (Hstep : ∀ x p c s v s', I s →
            _clear_cache fuel x keys p c s = Ok (v, s') → I s').
  { intros x p c s v s' (Hd & He & Hn) Hx.
    apply IH in Hx as (Hd' & He' & _). split; [|split].
    - by eapply deletes_only_trans.
    - by eapply evolves_trans.
    - intros ik' k Hik Hk. eapply deletes_only_None; [exact Hd'|].
      by apply Hn. }
  assert (I st2) as HI2.
  { assert (I (with_cache st
       (foldl (λ c key, delete (make_key ik key) c) (cache st)
          (elements keys)))) as HI1.
    { split; [|split].
      - intros key. simpl.
        destruct (lookup_delete_loop (make_key ik) (elements keys)
                    (cache st) key) as [?|[? (k & Hk & ->)]]; [by left|].
        right. split; [done|]. exists n, ik, k.
        by rewrite elem_of_elements in Hk.
      - apply evolves_with_cache.
      - intros ik' k Hik Hk. simpl.
        assert (ik' = ik) as -> by congruence.
        apply lookup_delete_loop_elem. by rewrite elem_of_elements. }
    destruct (bool_decide (keys ≠ ∅)).
    - unfold log in Hlog. injection Hlog as _ <-.
      destruct HI1 as (Hd & He & Hn). split; [|split]; [done| |done].
      eapply evolves_trans; [exact He|]. by eapply evolves_same_heap.
    - unfold pass, mret, M_ret in Hlog. by injection Hlog as _ <-. }
  assert (I st3) as HI3.
  { destruct parents.
    - revert HI2 Hpar. apply for_each_keeps.
      intros x s v s' _ HI Hx. by eapply Hstep.
    - unfold pass, mret, M_ret in Hpar. by injection Hpar as _ <-. }
  destruct children.
  - apply bind_Ok in Hchi as (u4 & st4 & Hinit & Hchi).
    apply bind_Ok in Hchi as (cs & st5 & Hcs & Hchi).
    apply self_children_Ok in Hcs as [Hcs ->].
    destruct (initialize_children_spec n st3) as (st4' & Hinit' & Hc & He & _).
    rewrite Hinit' in Hinit. injection Hinit as _ <-.
    assert (I st4') as HI4.
    { destruct HI3 as (Hd & He3 & Hn). split; [|split].
      - intros key. rewrite Hc. apply Hd.
      - by eapply evolves_trans.
      - intros ik' k. rewrite Hc. apply Hn. }
    revert HI4 Hchi. apply for_each_keeps.
    intros x s v s' _ HI Hx. by eapply Hstep.
  - unfold pass, mret, M_ret in Hchi. by injection Hchi as _ <-.
Qed.

(** With [parents] set, the entries of every ancestor are gone too. *)
Lemma _clear_cache_ancestors fuel :
  ∀ n keys st u st',
    _clear_cache fuel n keys true false st = Ok (u, st') →
    ∀ a ik k, ancestor n a → get_cachekey a = Some ik → k ∈ keys →
              cache st' !! make_key ik k = None.
Proof.
  induction fuel as [|fuel IH]; intros n keys st u st' Hrun a ik k Ha Hik Hk;
    [done|].
  apply rtc_inv in Ha as [->|(p & Hp & Ha)].
  { apply _clear_cache_effect in Hrun as (_ & _ & Hn). by apply Hn. }
  simpl in Hrun.
  apply bind_Ok in Hrun as (ik0 & st0 & _ & Hrun).
  apply bind_Ok in Hrun as (u1 & st1 & _ & Hrun).
  apply bind_Ok in Hrun as (u2 & st2 & _ & Hrun).
  apply bind_Ok in Hrun as (u3 & st3 & Hpar & Hchi).
  unfold pass, mret, M_ret in Hchi. injection Hchi as _ <-.
  revert Hpar.
  apply (for_each_reaches (λ s, cache s !! make_key ik k = None) _ _ p);
    [done|].
  intros x s v s' Hx Hbody.
  rewrite bool_decide_eq_true_2 in Hbody
    by (intros Hnil; rewrite Hnil in Hx; by inversion Hx).
  split.
  - intros Hnone. apply _clear_cache_effect in Hbody as (Hd & _).
    by eapply deletes_only_None.
  - intros ->. by eapply IH.
Qed.

(** [_clear_cache] returns on a well-founded graph, given fuel beyond the
    depth (when it walks up) and the height (when it walks down). *)
Lemma _clear_cache_returns (height depth : node → nat) :
  children_wf height → parents_wf depth → keys_implemented →
  ∀ fuel n keys parents children st,
    0 < fuel →
    (parents = true → depth n < fuel) →
    (children = true → height n < fuel) →
    heap_ok st →
    ∃ st', _clear_cache fuel n keys parents children st = Ok (tt, st') ∧
           heap_ok st'.
Proof.
  intros Hcwf Hpwf Himpl.
  induction fuel as [|fuel IH]; intros n keys parents children st H0 Hp Hc Hok;
    [lia|].
  simpl. destruct (Himpl n) as [ik Hik].
  assert (call_get_cachekey n st = Ok (ik, st)) as Hkey
    by by apply call_get_cachekey_Ok.
  run Hkey.
  rewrite (bind_step _ _ _ _ _ (delete_loop_run ik _ st)).
  set (st1 := with_cache st _).
  assert (∃ st2, (if bool_decide (keys ≠ ∅) then log keys ik else pass) st1
                 = Ok (tt, st2) ∧ heap_ok st2) as (st2 & Hlog & Hok2).
  { destruct (bool_decide (keys ≠ ∅)); eexists; (split; [done|]); done. }
  run Hlog.
  assert (∃ st3,
    (if parents then
       let parents : list node := get_parents n in
       for_each parents (λ p,
         _clear_cache fuel p keys (bool_decide (parents ≠ [])) false)
     else pass) st2 = Ok (tt, st3) ∧ heap_ok st3) as (st3 & Hpar & Hok3).
  { destruct parents; [|by exists st2].
    apply (for_each_returns heap_ok); [|done].
    intros p s Hpin Hs. apply IH; [| |done|done].
    - specialize (Hpwf n p Hpin). lia.
    - intros _. specialize (Hpwf n p Hpin). specialize (Hp eq_refl). lia. }
  run Hpar.
  destruct children; [|by exists st3].
  destruct (initialize_children_spec n st3) as (st4 & Hinit & _ & He & _ & Hcs).
  run Hinit.
  assert (self_children n st4 = Ok (get_children n, st4)) as Hself
    by (apply self_children_Ok; auto).
  run Hself.
  apply (for_each_returns heap_ok); [|by apply He].
  intros c s Hcin Hs. apply IH; [|done| |done].
  - specialize (Hcwf n c Hcin). lia.
  - intros _. specialize (Hcwf n c Hcin). specialize (Hc eq_refl). lia.
Qed.

Lemma upward_ok_parent depth n p :
  upward_ok depth n → p ∈ get_parents n → upward_ok depth p.
Proof. intros Hup Hp a Ha. apply Hup. by eapply rtc_l. Qed.

Lemma upward_ok_global depth n :
  parents_wf depth → keys_implemented → upward_ok depth n.
Proof. intros Hpwf Himpl a _. split; [apply Himpl|apply Hpwf]. Qed.

(** Walking up only, neither the heap nor the height plays a role, nor
    any node that is not above the starting one. *)
Lemma _clear_cache_up_returns (depth : node → nat) :
  ∀ fuel n keys parents st,
    upward_ok depth n → depth n < fuel →
    ∃ st', _clear_cache fuel n keys parents false st = Ok (tt, st').
Proof.
  induction fuel as [|fuel IH]; intros n keys parents s Hup Hfuel; [lia|].
  simpl. destruct (Hup n) as [[ik Hik] Hlt]; [apply rtc_refl|].
  assert (call_get_cachekey n s = Ok (ik, s)) as Hkey
    by by apply call_get_cachekey_Ok.
  run Hkey.
  rewrite (bind_step _ _ _ _ _ (delete_loop_run ik _ s)).
  set (s1 := with_cache s _).
  assert (∃ s2, (if bool_decide (keys ≠ ∅) then log keys ik else pass) s1
                = Ok (tt, s2)) as (s2 & Hlog).
  { destruct (bool_decide (keys ≠ ∅)); by eexists. }
  run Hlog.
  destruct parents; [|by exists s2].
  destruct (for_each_returns (λ _, True) (get_parents n)
    (λ p, _clear_cache fuel p keys (bool_decide (get_parents n ≠ [])) false))
    with (st := s2) as (s3 & Hloop & _); [|done|].
  - intros p s' Hp _.
    destruct (IH p keys (bool_decide (get_parents n ≠ [])) s')
      as [s'' Hs'']; [by eapply upward_ok_parent|specialize (Hlt p Hp); lia|].
    by exists s''.
  - cbv zeta. run Hloop. by exists s3.
Qed.

(** ** [flag_for_deletion] and [clear_flagged_cache] *)

Lemma obj_of_set_flagged st n keys x :
  obj_of (with_heap st (<[n := with_flagged (obj_of st n) keys]> (heap st))) x
  = if decide (n = x) then with_flagged (obj_of st n) keys else obj_of st x.
Proof.
  case_decide as Hx.
  - subst. apply obj_of_with_heap_eq.
  - by apply obj_of_with_heap_ne.
Qed.

Lemma heap_ok_set_flagged st n keys :
  heap_ok st →
  heap_ok (with_heap st (<[n := with_flagged (obj_of st n) keys]> (heap st))).
Proof.
  intros Hok x. rewrite obj_of_set_flagged. case_decide; subst; apply Hok.
Qed.

Lemma flag_for_deletion_run n args st :
  flag_for_deletion n args st =
  Ok (tt, with_heap st
            (<[n := with_flagged (obj_of st n)
                      (_flagged_for_deletion (obj_of st n) ∪ list_to_set args)]>
               (heap st))).
Proof. done. Qed.

Lemma clear_flagged_cache_Ok fuel n parents children st u st' :
  clear_flagged_cache fuel n parents children st = Ok (u, st') ↔
  ∃ st1,
    _clear_cache fuel n (_flagged_for_deletion (obj_of st n)) parents children
      st = Ok (tt, st1) ∧
    st' = with_heap st1 (<[n := with_flagged (obj_of st1 n) ∅]> (heap st1)).
Proof.
  unfold clear_flagged_cache. rewrite bind_Ok. split.
  - intros (o & st0 & Hself & Hrun). injection Hself as <- <-.
    apply bind_Ok in Hrun as ([] & st1 & Hclear & Hrun).
    apply bind_Ok in Hrun as (o' & st2 & Hself & Hset).
    injection Hself as <- <-. injection Hset as _ <-. by exists st1.
  - intros (st1 & Hclear & ->). exists (obj_of st n), st. split; [done|].
    run Hclear. destruct u. done.
Qed.

(** C10: when nothing is flagged on the node, [clear_flagged_cache] leaves
    the cache exactly as it was, whatever [parents] and [children] are and
    however many parents and children the call visits; and on a
    well-founded graph where every node has a cache key the call does
    return, given fuel beyond the depth and the height of the node. *)
Theorem clear_flagged_cache_nothing_flagged (height depth : node → nat)
    (fuel : nat) (n : node) (parents children : bool) (st : state) :
  _flagged_for_deletion (obj_of st n) = ∅ →
  (∀ u st', clear_flagged_cache fuel n parents children st = Ok (u, st') →
            cache st' = cache st) ∧
  (children_wf height → parents_wf depth → keys_implemented → heap_ok st →
   depth n < fuel → height n < fuel →
   ∃ st', clear_flagged_cache fuel n parents children st = Ok (tt, st') ∧
          cache st' = cache st).
Proof.
  intros Hflag.
  assert (Hsame : ∀ u st',
    clear_flagged_cache fuel n parents children st = Ok (u, st') →
    cache st' = cache st).
  { intros u st' Hrun.
    apply clear_flagged_cache_Ok in Hrun as (st1 & Hclear & ->).
    rewrite Hflag in Hclear.
    apply _clear_cache_effect in Hclear as (Hd & _). simpl.
    apply map_eq. intros key.
    destruct (Hd key) as [?|[_ (x & ik & k & _ & Hk & _)]]; [done|].
    by apply not_elem_of_empty in Hk. }
  split; [exact Hsame|].
  intros Hcwf Hpwf Himpl Hok Hd Hh.
  destruct (_clear_cache_returns height depth Hcwf Hpwf Himpl fuel n
              (_flagged_for_deletion (obj_of st n)) parents children st)
    as (st1 & Hclear & _); [lia|done|done|done|].
  eexists. split.
  - apply clear_flagged_cache_Ok. by exists st1.
  - eapply (Hsame tt). apply clear_flagged_cache_Ok. by exists st1.
Qed.

(** C5: in a chain where [B] is a parent of [C] and [A] a parent of [B],
    flagging [get_total_wordcount] on [C] and calling
    [clear_flagged_cache(parents=True, children=False)] on [C] returns and
    leaves no [get_total_wordcount] entry for [C], [B] or [A], and nothing
    flagged on [C].  Only the nodes above [C] matter: they have cache keys
    and the walk to the roots is finite. *)
Theorem clear_flagged_cache_chain (depth : node → nat) (A B C : node)
    (kA kB kC : string) (fuel : nat) (st : state) :
  upward_ok depth C →
  B ∈ get_parents C → A ∈ get_parents B →
  get_cachekey A = Some kA → get_cachekey B = Some kB →
  get_cachekey C = Some kC →
  depth C < fuel →
  ∃ st1 st2,
    flag_for_deletion C [method_name TOTAL] st = Ok (tt, st1) ∧
    clear_flagged_cache fuel C true false st1 = Ok (tt, st2) ∧
    cache st2 !! make_key kC (method_name TOTAL) = None ∧
    cache st2 !! make_key kB (method_name TOTAL) = None ∧
    cache st2 !! make_key kA (method_name TOTAL) = None ∧
    _flagged_for_deletion (obj_of st2 C) = ∅.
Proof.
  intros Hup HB HA HkA HkB HkC Hfuel.
  eexists. rewrite flag_for_deletion_run.
  set (st1 := with_heap st _).
  assert (Hflagged : method_name TOTAL ∈ _flagged_for_deletion (obj_of st1 C)).
  { unfold st1. rewrite obj_of_with_heap_eq.
    apply elem_of_union_r, elem_of_list_to_set. by left. }
  assert (∃ s, _clear_cache fuel C (_flagged_for_deletion (obj_of st1 C))
                 true false st1 = Ok (tt, s)) as (s & Hclear).
  { by apply (_clear_cache_up_returns depth). }
  eexists. split; [done|]. split.
  { apply clear_flagged_cache_Ok. by exists s. }
  pose proof (_clear_cache_ancestors _ _ _ _ _ _ Hclear) as Hup'.
  simpl. split; [|split; [|split]].
  - eapply Hup'; [apply rtc_refl|done|done].
  - eapply Hup'; [|done|done]. by apply rtc_once.
  - eapply Hup'; [|done|done]. eapply rtc_l; [exact HB|]. by apply rtc_once.
  - by rewrite obj_of_with_heap_eq.
Qed.

(** ** [set_last_action] *)

(** As [for_each_reaches], under an invariant of the loop. *)
Lemma for_each_reaches_inv {A} (I Q : state → Prop) (l : list A)
    (body : A → M unit) (p : A) :
  p ∈ l →
  (∀ x st u st', x ∈ l → I st → body x st = Ok (u, st') →
                 I st' ∧ (Q st → Q st') ∧ (x = p → Q st')) →
  ∀ st u st', I st → for_each l body st = Ok (u, st') → I st' ∧ Q st'.
Proof.
  induction l as [|x l IH]; intros Hp Hbody st u st' HI Hrun;
    [by inversion Hp|].
  simpl in Hrun. apply bind_Ok in Hrun as (u1 & st1 & H1 & H2).
  destruct (Hbody x st u1 st1) as (HI1 & Hkeep & Hest); [by left|done|done|].
  apply elem_of_cons in Hp as [->|Hp].
  - assert (I st1 ∧ Q st1) as HIQ by auto.
    revert HIQ H2. apply (for_each_keeps (λ s, I s ∧ Q s)).
    intros y s v s' Hy [HIs HQs] Hy'.
    destruct (Hbody y s v s') as (? & Hq & _); [by right|done|done|auto].
  - eapply IH; [done| |exact HI1|exact H2].
    intros y s v s' Hy. apply Hbody. by right.
Qed.

Lemma set_cached_value_Ok n fn v st u st' :
  set_cached_value n fn v st = Ok (u, st') ↔
  ∃ ik, get_cachekey n = Some ik ∧
        st' = with_cache st (<[make_key ik fn := v]> (cache st)).
Proof.
  unfold set_cached_value. rewrite bind_Ok. split.
  - intros (ik & st0 & Hkey & Hset).
    apply call_get_cachekey_Ok in Hkey as [Hkey ->].
    injection Hset as _ <-. by exists ik.
  - intros (ik & Hkey & ->). exists ik, st. split.
    + by apply call_get_cachekey_Ok.
    + by destruct u.
Qed.

Lemma get_cached_value_Ok n fn st r st' :
  get_cached_value n fn st = Ok (r, st') ↔
  ∃ ik, get_cachekey n = Some ik ∧ r = cache st !! make_key ik fn ∧ st' = st.
Proof.
  unfold get_cached_value. rewrite bind_Ok. split.
  - intros (ik & st0 & Hkey & Hget).
    apply call_get_cachekey_Ok in Hkey as [Hkey ->].
    injection Hget as <- <-. by exists ik.
  - intros (ik & Hkey & -> & ->). exists ik, st. split; [|done].
    by apply call_get_cachekey_Ok.
Qed.

(** The test of the loop succeeds only against an action with an [mtime],
    and then fails against that action itself. *)
Lemma parent_is_older_true pla a :
  parent_is_older pla a = Ok true →
  ∃ v m ma, pla = Some v ∧ subscript_mtime v = Ok m ∧ mtime a = Some ma ∧
            (m < ma)%Z.
Proof.
  unfold parent_is_older. destruct (truthy pla); [|done].
  destruct pla as [v|]; [|done]. intros H.
  apply res_bind_Ok in H as (m & Hm & H).
  apply res_bind_Ok in H as (ma & Hma & H).
  simpl in Hma. destruct (mtime a) as [ma'|] eqn:Ha; [|done].
  injection Hma as ->. injection H as H. apply Z.ltb_lt in H.
  by exists v, m, ma.
Qed.

Lemma parent_is_older_self a ma :
  mtime a = Some ma → parent_is_older (Some (VAction a)) a = Ok false.
Proof.
  intros Ha. unfold parent_is_older. simpl. rewrite Ha. simpl.
  rewrite !orb_true_r; simpl.
  unfold mbind, res_bind. by rewrite Z.ltb_irrefl.
Qed.

(** The body of the loop of [set_last_action] on parent [p]. *)
Lemma set_last_action_body_Ok fuel (a : action) p st u st' :
  (pla ← get_cached_value p "get_last_action";
   older ← lift (parent_is_older pla a);
   if (older : bool) then set_last_action fuel p a else pass) st = Ok (u, st') ↔
  ∃ kp b, get_cachekey p = Some kp ∧
    parent_is_older (cache st !! make_key kp "get_last_action") a = Ok b ∧
    if b then set_last_action fuel p a st = Ok (u, st') else st' = st.
Proof.
  rewrite bind_Ok. split.
  - intros (pla & st0 & Hget & Hrun).
    apply get_cached_value_Ok in Hget as (kp & Hkp & -> & ->).
    apply bind_Ok in Hrun as (b & st0 & Hb & Hrun).
    apply lift_Ok in Hb as [Hb ->]. exists kp, b. split; [done|].
    split; [done|]. destruct b; [done|]. by injection Hrun as _ <-.
  - intros (kp & b & Hkp & Hb & Hrun). eexists _, st. split.
    + apply get_cached_value_Ok. by exists kp.
    + apply bind_Ok. exists b, st. split; [by apply lift_Ok|].
      destruct b; [done|]. subst. by destruct u.
Qed.

(** What a call of [set_last_action] that returns has done to the cache:
    the entry of the node is the action; any other entry is unchanged, or
    was older than the action and is now the action. *)
Lemma set_last_action_effect fuel :
  ∀ n a st u st',
    set_last_action fuel n a st = Ok (u, st') →
    ∃ ik, get_cachekey n = Some ik ∧
      cache st' !! make_key ik "get_last_action" = Some (VAction a) ∧
      (∀ key, key ≠ make_key ik "get_last_action" →
         cache st' !! key = cache st !! key ∨
         (cache st' !! key = Some (VAction a) ∧
          parent_is_older (cache st !! key) a = Ok true)) ∧
      heap st' = heap st ∧ nav st' = nav st ∧ logged st' = logged st.
Proof.
  induction fuel as [|fuel IH]; intros n a st u st' Hrun; [done|].
  simpl in Hrun. apply bind_Ok in Hrun as (u1 & st1 & Hset & Hloop).
  apply set_cached_value_Ok in Hset as (ik & Hik & ->).
  exists ik. split; [done|].
  set (k0 := make_key ik "get_last_action") in *.
  set (I := λ s : state,
    cache s !! k0 = Some (VAction a) ∧
    (∀ key, key ≠ k0 →
       cache s !! key = cache st !! key ∨
       (cache s !! key = Some (VAction a) ∧
        parent_is_older (cache st !! key) a = Ok true)) ∧
    heap s = heap st ∧ nav s = nav st ∧ logged s = logged st).
  assert (I (with_cache st (<[k0:=VAction a]> (cache st)))) as HI.
  { split; [|split; [|done]].
    - simpl. by rewrite lookup_insert_eq.
    - intros key Hkey. left. simpl. by rewrite lookup_insert_ne. }
  revert HI Hloop. apply (for_each_keeps I).
  intros p s v s' _ (Hown & Hframe & Hh & Hn & Hl) Hbody.
  apply set_last_action_body_Ok in Hbody as (kp & b & Hkp & Hb & Hrun).
  destruct b; [|by subst].
  apply IH in Hrun as (kp' & Hkp' & Hp & Hpframe & Hh' & Hn' & Hl').
  assert (kp' = kp) as -> by congruence.
  set (kq := make_key kp "get_last_action") in *.
  apply parent_is_older_true in Hb as Hb'.
  destruct Hb' as (v0 & m & ma & Hv0 & Hm & Hma & Hlt).
  split; [|split; [|by rewrite Hh', Hn', Hl']].
  - destruct (decide (k0 = kq)) as [->|Hne]; [done|].
    destruct (Hpframe k0 Hne) as [->|[? _]]; done.
  - intros key Hkey. destruct (decide (key = kq)) as [->|Hne].
    + destruct (Hframe kq Hkey) as [Heq|[_ Hold]].
      * right. split; [done|]. by rewrite <- Heq.
      * right. done.
    + destruct (Hpframe key Hne) as [Heq|[Hval Hold]].
      * rewrite Heq. by apply Hframe.
      * destruct (Hframe key Hkey) as [Heq|[Heq _]].
        -- right. split; [done|]. by rewrite <- Heq.
        -- rewrite Heq, (parent_is_older_self a ma Hma) in Hold. done.
Qed.

(** After a call that returns, the test of the loop fails on every
    parent: none is left with a cached action older than the new one. *)
Lemma set_last_action_parents fuel n a st u st' p kp :
  set_last_action fuel n a st = Ok (u, st') →
  p ∈ get_parents n → get_cachekey p = Some kp →
  parent_is_older (cache st' !! make_key kp "get_last_action") a = Ok false.
Proof.
  destruct fuel as [|fuel]; [done|]. intros Hrun Hp Hkp.
  simpl in Hrun. apply bind_Ok in Hrun as (u1 & st1 & _ & Hloop).
  set (kq := make_key kp "get_last_action").
  apply (for_each_reaches_inv (λ _, True)
           (λ s, parent_is_older (cache s !! kq) a = Ok false) _ _ p Hp)
    in Hloop as [_ HQ]; [done| |done].
  intros x s v s' Hx _ Hbody.
  apply set_last_action_body_Ok in Hbody as (kx & b & Hkx & Hb & Hrun).
  split; [done|]. destruct b.
  - apply parent_is_older_true in Hb as (v0 & m & ma & Hv0 & Hm & Hma & Hlt).
    apply set_last_action_effect in Hrun
      as (kx' & Hkx' & Hxown & Hxframe & _).
    assert (kx' = kx) as -> by congruence.
    assert (Hafter : ∀ key, cache s' !! key = cache s !! key ∨
                            cache s' !! key = Some (VAction a)).
    { intros key.
      destruct (decide (key = make_key kx "get_last_action")) as [->|Hne];
        [by right|].
      destruct (Hxframe key Hne) as [?|[? _]]; auto. }
    split.
    + intros HQ. destruct (Hafter kq) as [->| ->]; [done|].
      by eapply parent_is_older_self.
    + intros ->. assert (kx = kp) as -> by congruence.
      fold kq in Hxown. rewrite Hxown. by eapply parent_is_older_self.
  - subst s'. split; [done|]. intros ->.
    assert (kx = kp) as -> by congruence. done.
Qed.

(** A parent whose cached action was older before the call holds the new
    action after it. *)
Lemma set_last_action_older_parent fuel n a st u st' p kp :
  set_last_action fuel n a st = Ok (u, st') →
  p ∈ get_parents n → get_cachekey p = Some kp →
  parent_is_older (cache st !! make_key kp "get_last_action") a = Ok true →
  cache st' !! make_key kp "get_last_action" = Some (VAction a).
Proof.
  intros Hrun Hp Hkp Hold.
  pose proof (set_last_action_parents _ _ _ _ _ _ _ _ Hrun Hp Hkp) as Hafter.
  apply set_last_action_effect in Hrun as (ik & Hik & Hown & Hframe & _).
  destruct (decide (make_key kp "get_last_action"
                    = make_key ik "get_last_action")) as [->|Hne]; [done|].
  destruct (Hframe _ Hne) as [Heq|[? _]]; [|done].
  rewrite Heq, Hold in Hafter. done.
Qed.

(** When the test fails on every parent, the call writes the entry of the
    node and nothing else. *)
Lemma set_last_action_no_older_parent fuel n a st u st' ik :
  set_last_action fuel n a st = Ok (u, st') →
  get_cachekey n = Some ik →
  (∀ p kp, p ∈ get_parents n → get_cachekey p = Some kp →
     make_key kp "get_last_action" ≠ make_key ik "get_last_action" →
     parent_is_older (cache st !! make_key kp "get_last_action") a = Ok false) →
  st' = with_cache st (<[make_key ik "get_last_action" := VAction a]> (cache st)).
Proof.
  destruct fuel as [|fuel]; [done|]. intros Hrun Hik Hnone.
  simpl in Hrun. apply bind_Ok in Hrun as (u1 & st1 & Hset & Hloop).
  apply set_cached_value_Ok in Hset as (ik' & Hik' & ->).
  assert (ik' = ik) as -> by congruence.
  set (st1 := with_cache st _) in *.
  eapply (for_each_keeps (λ s, s = st1)); [|reflexivity|exact Hloop].
  intros p s0 v s' Hp -> Hbody.
  apply set_last_action_body_Ok in Hbody as (kp & b & Hkp & Hb & Hrun).
  destruct b; [|done]. exfalso.
  apply parent_is_older_true in Hb as Hb'.
  destruct Hb' as (v0 & m & ma & Hv0 & Hm & Hma & Hlt).
  destruct (decide (make_key kp "get_last_action"
                    = make_key ik "get_last_action")) as [Heq|Hne].
  - unfold st1 in Hb. simpl in Hb. rewrite Heq, lookup_insert_eq in Hb.
    by rewrite (parent_is_older_self a ma Hma) in Hb.
  - unfold st1 in Hb. simpl in Hb. rewrite lookup_insert_ne in Hb by done.
    by rewrite (Hnone p kp Hp Hkp Hne) in Hb.
Qed.

(** ** The cached methods *)

Lemma getfromcache_hit name function n ik st v :
  get_cachekey n = Some ik → cache st !! make_key ik name = Some v →
  getfromcache name function n st = Ok (v, st).
Proof.
  intros Hik Hhit. unfold getfromcache.
  rewrite (bind_step _ _ st ik st) by by apply call_get_cachekey_Ok.
  unfold mbind, M_bind, cache_get. by rewrite Hhit.
Qed.

Lemma getfromcache_miss name function n ik st v st1 :
  get_cachekey n = Some ik → cache st !! make_key ik name = None →
  function n st = Ok (v, st1) →
  getfromcache name function n st
  = Ok (v, with_cache st1 (<[make_key ik name := v]> (cache st1))).
Proof.
  intros Hik Hmiss Hrun. unfold getfromcache.
  rewrite (bind_step _ _ st ik st) by by apply call_get_cachekey_Ok.
  unfold mbind, M_bind, cache_get. rewrite Hmiss, Hrun. done.
Qed.

Lemma getattr_unfold fuel name n :
  getattr (S fuel) name n
  = getfromcache (method_name name) (method_body name (getattr fuel)) n.
Proof. done. Qed.

(** *** Python's [sum] and [max] on well-typed lists *)

Lemma sum_from_ints acc zs :
  sum_from (VInt acc) (VInt <$> zs) = Ok (VInt (acc + sum_list zs)).
Proof.
  revert acc. induction zs as [|z zs IH]; intros acc; simpl.
  - by rewrite Z.add_0_r.
  - unfold mbind, res_bind. simpl. rewrite IH. by rewrite Z.add_assoc.
Qed.

Lemma py_sum_ints zs : py_sum (VInt <$> zs) = Ok (VInt (sum_list zs)).
Proof. unfold py_sum. by rewrite sum_from_ints. Qed.

Lemma max_from_typed {A} (inj : A → value) (kv : value → res Z) (key : A → Z)
    best l :
  (∀ x, kv (inj x) = Ok (key x)) →
  max_from kv (inj best) (key best) (inj <$> l)
  = Ok (inj (first_max key best l)).
Proof.
  intros Hkey. revert best. induction l as [|x l IH]; intros best; simpl;
    [done|].
  unfold mbind, res_bind. rewrite Hkey. unfold first_max in *.
  destruct (key best <? key x)%Z; apply IH.
Qed.

Lemma py_max_key_typed {A} (inj : A → value) (kv : value → res Z)
    (key : A → Z) best l :
  (∀ x, kv (inj x) = Ok (key x)) →
  py_max_key kv (inj best :: (inj <$> l)) = Ok (inj (first_max key best l)).
Proof.
  intros Hkey. unfold py_max_key, mbind, res_bind. rewrite Hkey.
  by apply max_from_typed.
Qed.

(** The result of [first_max] is the first element of greatest key. *)
Lemma first_max_spec {A} (key : A → Z) best l :
  ∃ l1 l2,
    best :: l = l1 ++ first_max key best l :: l2 ∧
    (∀ x, x ∈ l1 → (key x < key (first_max key best l))%Z) ∧
    (∀ x, x ∈ l2 → (key x ≤ key (first_max key best l))%Z).
Proof.
  unfold first_max.
  assert (Hgen : ∀ l pre best,
    (∀ x, x ∈ pre → (key x < key best)%Z) →
    ∃ l1 l2,
      pre ++ best :: l
      = l1 ++ foldl (λ b x, if (key b <? key x)%Z then x else b) best l :: l2 ∧
      (∀ x, x ∈ l1 →
         (key x < key (foldl (λ b x, if (key b <? key x)%Z then x else b)
                         best l))%Z) ∧
      (∀ x, x ∈ l2 →
         (key x ≤ key (foldl (λ b x, if (key b <? key x)%Z then x else b)
                         best l))%Z)).
  { clear best l. intros l. induction l as [|y l IH] using rev_ind;
      intros pre best Hpre.
    - exists pre, []. split; [done|]. split; [done|].
      intros x Hx. by apply elem_of_nil in Hx.
    - rewrite foldl_app. simpl.
      destruct (IH pre best Hpre) as (l1 & l2 & Heq & H1 & H2).
      set (r := foldl _ best l) in *.
      destruct (key r <? key y)%Z eqn:Hlt.
      + apply Z.ltb_lt in Hlt.
        exists (pre ++ best :: l), []. split; [|split].
        * by rewrite <- app_assoc.
        * intros x Hx. rewrite Heq in Hx.
          apply elem_of_app in Hx as [Hx|Hx]; [specialize (H1 x Hx); lia|].
          apply elem_of_cons in Hx as [->|Hx]; [done|].
          specialize (H2 x Hx); lia.
        * intros x Hx. by apply elem_of_nil in Hx.
      + apply Z.ltb_ge in Hlt.
        exists l1, (l2 ++ [y]). split; [|split; [done|]].
        * rewrite app_comm_cons, app_assoc, Heq.
          by rewrite <- app_assoc.
        * intros x Hx. apply elem_of_app in Hx as [Hx|Hx]; [by apply H2|].
          by apply list_elem_of_singleton in Hx as ->. }
  apply (Hgen l [] best). intros x Hx. by apply elem_of_nil in Hx.
Qed.

(** *** The bodies, given the values of the children *)

Lemma count_body_run raw name getattr n st st1 cs zs st2 :
  initialize_children n st = Ok (tt, st1) →
  self_children n st1 = Ok (cs, st1) →
  comprehension (getattr name) cs st1 = Ok (VInt <$> zs, st2) →
  count_body raw name getattr n st = Ok (VInt (raw n + sum_list zs), st2).
Proof.
  intros Hinit Hcs Hvs. unfold count_body, _sum.
  run Hinit.
  rewrite (bind_step _ _ st1 (VInt (sum_list zs)) st2).
  - done.
  - rewrite (bind_step _ _ _ _ _ Hcs), (bind_step _ _ _ _ _ Hvs).
    by rewrite py_sum_ints.
Qed.

Lemma max_body_run {A} (inj : A → value) (kv : value → res Z) (key : A → Z)
    (raw : node → A) name getattr n st st1 cs xs st2 :
  (∀ x, kv (inj x) = Ok (key x)) →
  initialize_children n st = Ok (tt, st1) →
  self_children n st1 = Ok (cs, st1) →
  comprehension (getattr name) cs st1 = Ok (inj <$> xs, st2) →
  max_body (λ n, inj (raw n)) kv name getattr n st
  = Ok (inj (first_max key (raw n) xs), st2).
Proof.
  intros Hkey Hinit Hcs Hvs. unfold max_body.
  rewrite (bind_step _ _ _ _ _ Hinit), (bind_step _ _ _ _ _ Hcs).
  run Hvs.
  by rewrite (py_max_key_typed inj kv key).
Qed.

Lemma checks_loop_run getattr result cs rs :
  ∀ st st2,
    comprehension (getattr CHECKS) cs st = Ok (VChecks <$> rs, st2) →
    checks_loop getattr result cs st = Ok (foldl add_checks result rs, st2).
Proof.
  revert result rs. induction cs as [|c cs IH]; intros result rs st st2 Hvs.
  - simpl in Hvs. injection Hvs as Hrs <-. destruct rs; [done|].
    discriminate.
  - simpl in Hvs. apply bind_Ok in Hvs as (v & st1 & Hv & Hvs).
    apply bind_Ok in Hvs as (vs & st3 & Hvs & Hret).
    injection Hret as Hrs <-. destruct rs as [|r rs]; [discriminate|].
    injection Hrs as -> ->. simpl.
    run Hv. simpl.
    unfold mbind at 1, M_bind, lift. simpl. by apply IH.
Qed.

Lemma checks_body_run getattr n st st1 cs rs st2 :
  initialize_children n st = Ok (tt, st1) →
  self_children n st1 = Ok (cs, st1) →
  comprehension (getattr CHECKS) cs st1 = Ok (VChecks <$> rs, st2) →
  checks_body getattr n st
  = Ok (VChecks (foldl add_checks (_get_checks n) rs), st2).
Proof.
  intros Hinit Hcs Hvs. unfold checks_body.
  rewrite (bind_step _ _ _ _ _ Hinit), (bind_step _ _ _ _ _ Hcs).
  by rewrite (bind_step _ _ _ _ _ (checks_loop_run _ _ _ _ _ _ Hvs)).
Qed.

(** A cached method returns what its body computes, unless the cache holds
    an entry, which is returned as it is. *)
Lemma getattr_returns fuel name n ik st v st2 :
  get_cachekey n = Some ik →
  cache st !! make_key ik (method_name name) = None ∨
  cache st !! make_key ik (method_name name) = Some v →
  method_body name (getattr fuel) n st = Ok (v, st2) →
  ∃ st', getattr (S fuel) name n st = Ok (v, st') ∧
         cache st' !! make_key ik (method_name name) = Some v.
Proof.
  intros Hik [Hmiss|Hhit] Hbody; rewrite getattr_unfold.
  - eexists. split; [by eapply getfromcache_miss|].
    simpl. by rewrite lookup_insert_eq.
  - exists st. split; [by eapply getfromcache_hit|done].
Qed.

(** C6: when the children's [get_total_wordcount] return c1..cn, and the
    cache holds no entry for the node (or holds that very sum),
    [get_total_wordcount] on the node returns its raw count plus
    c1 + ... + cn and leaves that value in the cache; with no children this
    is the raw count. *)
Theorem get_total_wordcount_sum (fuel : nat) (n : node) (ik : string)
    (st st1 : state) (cs : list node) (zs : list Z) (st2 : state) :
  let r := _get_total_wordcount n in
  let entry := make_key ik (method_name TOTAL) in
  get_cachekey n = Some ik →
  cache st !! entry = None ∨ cache st !! entry = Some (VInt (r + sum_list zs)) →
  initialize_children n st = Ok (tt, st1) →
  self_children n st1 = Ok (cs, st1) →
  comprehension (get_total_wordcount fuel) cs st1 = Ok (VInt <$> zs, st2) →
  (∃ st', get_total_wordcount (S fuel) n st = Ok (VInt (r + sum_list zs), st') ∧
          cache st' !! entry = Some (VInt (r + sum_list zs))) ∧
  (cs = [] → (r + sum_list zs)%Z = r).
Proof.
  intros r entry Hik Hentry Hinit Hcs Hvs. split.
  - eapply getattr_returns; [done|done|].
    simpl. by eapply count_body_run.
  - intros ->. simpl in Hvs. injection Hvs as Hzs _.
    destruct zs; [|done]. simpl. lia.
Qed.

(** C7, amended: when the children's [get_last_action] return the records
    a1..an, and the cache holds no entry for the node (or holds the result
    already), [get_last_action] on the node returns the first record, in
    the order own raw record, a1, ..., an, whose key is greatest, where the
    key of a record is its [mtime] and 0 for a record without [mtime]: the
    records before it have a strictly smaller key and those after it a
    smaller or equal one. *)
Theorem get_last_action_max (fuel : nat) (n : node) (ik : string)
    (st st1 : state) (cs : list node) (acts : list action) (st2 : state) :
  let key := λ a : action, default 0%Z (mtime a) in
  let own := _get_last_action n in
  let r := first_max key own acts in
  let entry := make_key ik (method_name LAST_ACTION) in
  get_cachekey n = Some ik →
  cache st !! entry = None ∨ cache st !! entry = Some (VAction r) →
  initialize_children n st = Ok (tt, st1) →
  self_children n st1 = Ok (cs, st1) →
  comprehension (get_last_action fuel) cs st1 = Ok (VAction <$> acts, st2) →
  (∃ st', get_last_action (S fuel) n st = Ok (VAction r, st') ∧
          cache st' !! entry = Some (VAction r)) ∧
  ∃ before after,
    own :: acts = before ++ r :: after ∧
    (∀ x, x ∈ before → (key x < key r)%Z) ∧
    (∀ x, x ∈ after → (key x ≤ key r)%Z).
Proof.
  intros key own r entry Hik Hentry Hinit Hcs Hvs. split.
  - eapply getattr_returns; [done|done|].
    simpl. unfold last_action_body.
    by eapply (max_body_run VAction mtime_key key _get_last_action).
  - apply first_max_spec.
Qed.

Lemma dictsum_lookup x y k :
  default 0%Z (dictsum x y !! k)
  = (default 0%Z (x !! k) + default 0%Z (y !! k))%Z.
Proof.
  unfold dictsum. rewrite lookup_union_with.
  destruct (x !! k), (y !! k); simpl; lia.
Qed.

Lemma dictsum_dom x y k :
  is_Some (dictsum x y !! k) ↔ is_Some (x !! k) ∨ is_Some (y !! k).
Proof.
  unfold dictsum. rewrite lookup_union_with.
  unfold is_Some.
  destruct (x !! k) as [a|], (y !! k) as [b|]; simpl;
    (split; [intros [v Hv]|intros [[v Hv]|[v Hv]]]);
    eauto; discriminate.
Qed.

Lemma sum_list_cons z zs : sum_list (z :: zs) = (z + sum_list zs)%Z.
Proof. done. Qed.

Lemma foldl_add_checks_unit_count r rs :
  unit_count (foldl add_checks r rs)
  = (unit_count r + sum_list (unit_count <$> rs))%Z.
Proof.
  revert r. induction rs as [|c rs IH]; intros r; [simpl; lia|].
  rewrite fmap_cons, sum_list_cons. simpl. rewrite IH. simpl. lia.
Qed.

Lemma foldl_add_checks_lookup r rs k :
  default 0%Z (checks (foldl add_checks r rs) !! k)
  = (default 0%Z (checks r !! k)
     + sum_list ((λ c, default 0%Z (checks c !! k)) <$> rs))%Z.
Proof.
  revert r. induction rs as [|c rs IH]; intros r; [simpl; lia|].
  rewrite fmap_cons, sum_list_cons. simpl. rewrite IH. simpl.
  rewrite dictsum_lookup. lia.
Qed.

Lemma foldl_add_checks_dom r rs k :
  is_Some (checks (foldl add_checks r rs) !! k) ↔
  is_Some (checks r !! k) ∨ ∃ c, c ∈ rs ∧ is_Some (checks c !! k).
Proof.
  revert r. induction rs as [|c rs IH]; intros r; simpl.
  - split; [by left|]. intros [?|(c & Hc & _)]; [done|].
    by apply elem_of_nil in Hc.
  - rewrite IH. simpl. rewrite dictsum_dom. split.
    + intros [[?|?]|(c' & Hc' & ?)]; [by left| |].
      * right. exists c. split; [by left|done].
      * right. exists c'. split; [by right|done].
    + intros [?|(c' & Hc' & ?)]; [by left; left|].
      apply elem_of_cons in Hc' as [->|Hc']; [by left; right|].
      right. by exists c'.
Qed.

(** C8: when the children's [get_checks] return the records c1..cn, and
    the cache holds no entry for the node (or holds the result already),
    [get_checks] on the node returns a record whose [unit_count] is the
    node's raw [unit_count] plus those of c1..cn, and whose [checks] holds,
    for every key, the sum of the raw count and the counts of c1..cn for
    that key, a key missing from a record counting as 0; its keys are
    those of the raw record and of c1..cn. *)
Theorem get_checks_dictsum (fuel : nat) (n : node) (ik : string)
    (st st1 : state) (cs : list node) (rs : list checks_stat) (st2 : state) :
  let own := _get_checks n in
  let r := foldl add_checks own rs in
  let entry := make_key ik (method_name CHECKS) in
  get_cachekey n = Some ik →
  cache st !! entry = None ∨ cache st !! entry = Some (VChecks r) →
  initialize_children n st = Ok (tt, st1) →
  self_children n st1 = Ok (cs, st1) →
  comprehension (get_checks fuel) cs st1 = Ok (VChecks <$> rs, st2) →
  (∃ st', get_checks (S fuel) n st = Ok (VChecks r, st') ∧
          cache st' !! entry = Some (VChecks r)) ∧
  unit_count r = (unit_count own + sum_list (unit_count <$> rs))%Z ∧
  (∀ k, default 0%Z (checks r !! k)
        = (default 0%Z (checks own !! k)
           + sum_list ((λ c, default 0%Z (checks c !! k)) <$> rs))%Z) ∧
  (∀ k, is_Some (checks r !! k) ↔
        is_Some (checks own !! k) ∨ ∃ c, c ∈ rs ∧ is_Some (checks c !! k)).
Proof.
  intros own r entry Hik Hentry Hinit Hcs Hvs. split; [|split; [|split]].
  - eapply getattr_returns; [done|done|].
    simpl. by eapply checks_body_run.
  - apply foldl_add_checks_unit_count.
  - apply foldl_add_checks_lookup.
  - apply foldl_add_checks_dom.
Qed.

(** ** What the cached methods leave alone *)

Lemma keeps_entries_refl st : keeps_entries st st.
Proof. by intros key v. Qed.

Lemma keeps_entries_trans st1 st2 st3 :
  keeps_entries st1 st2 → keeps_entries st2 st3 → keeps_entries st1 st3.
Proof. intros H1 H2 key v Hv. by apply H2, H1. Qed.

Lemma quiet_same {A} (m : M A) :
  (∀ st a st', m st = Ok (a, st') → st' = st) → quiet m.
Proof.
  intros H st a st' Hrun. apply H in Hrun as ->.
  split; [apply evolves_refl|apply keeps_entries_refl].
Qed.

Lemma quiet_bind {A B} (m : M A) (f : A → M B) :
  quiet m → (∀ a, quiet (f a)) → quiet (m ≫= f).
Proof.
  intros Hm Hf st b st' Hrun. apply bind_Ok in Hrun as (a & st1 & H1 & H2).
  apply Hm in H1 as [He1 Hk1]. apply Hf in H2 as [He2 Hk2]. split.
  - by eapply evolves_trans.
  - by eapply keeps_entries_trans.
Qed.

Lemma quiet_ret {A} (a : A) : quiet (mret a : M A).
Proof. apply quiet_same. by intros st b st' [= _ <-]. Qed.

Lemma quiet_lift {A} (r : res A) : quiet (lift r).
Proof. apply quiet_same. intros st a st' H. by apply lift_Ok in H as [_ ->]. Qed.

Lemma quiet_initialize_children n : quiet (initialize_children n).
Proof.
  intros st [] st' Hrun.
  destruct (initialize_children_spec n st) as (st1 & Hrun' & Hc & He & _).
  rewrite Hrun' in Hrun. injection Hrun as <-. split; [done|].
  intros key v. by rewrite Hc.
Qed.

Lemma quiet_self_children n : quiet (self_children n).
Proof.
  apply quiet_same. intros st a st' H. by apply self_children_Ok in H as [_ ->].
Qed.

Lemma quiet_comprehension {A B} (f : A → M B) l :
  (∀ x, quiet (f x)) → quiet (comprehension f l).
Proof.
  intros Hf. induction l as [|x l IH]; simpl; [apply quiet_ret|].
  apply quiet_bind; [done|]. intros v.
  apply quiet_bind; [done|]. intros vs. apply quiet_ret.
Qed.

Lemma quiet_checks_loop getattr result cs :
  (∀ x, quiet (getattr CHECKS x)) → quiet (checks_loop getattr result cs).
Proof.
  intros Hf. revert result. induction cs as [|c cs IH]; intros result; simpl;
    [apply quiet_ret|].
  apply quiet_bind; [done|]. intros v.
  apply quiet_bind; [apply quiet_lift|]. intros r. apply IH.
Qed.

Lemma quiet_method_body name getattr n :
  (∀ m x, quiet (getattr m x)) → quiet (method_body name getattr n).
Proof.
  intros Hf.
  assert (Hcount : ∀ raw m, quiet (count_body raw m getattr n)).
  { intros raw m. unfold count_body, _sum.
    apply quiet_bind; [apply quiet_initialize_children|]. intros _.
    apply quiet_bind; [|intros s; apply quiet_lift].
    apply quiet_bind; [apply quiet_self_children|]. intros cs.
    apply quiet_bind; [by apply quiet_comprehension|]. intros vs.
    apply quiet_lift. }
  assert (Hmax : ∀ own key m, quiet (max_body own key m getattr n)).
  { intros own key m. unfold max_body.
    apply quiet_bind; [apply quiet_initialize_children|]. intros _.
    apply quiet_bind; [apply quiet_self_children|]. intros cs.
    apply quiet_bind; [by apply quiet_comprehension|]. intros vs.
    apply quiet_lift. }
  destruct name; simpl; try apply Hcount; try apply Hmax.
  unfold checks_body.
  apply quiet_bind; [apply quiet_initialize_children|]. intros _.
  apply quiet_bind; [apply quiet_self_children|]. intros cs.
  apply quiet_bind; [by apply quiet_checks_loop|]. intros r. apply quiet_ret.
Qed.

Lemma quiet_getfromcache name function n :
  quiet (function n) → quiet (getfromcache name function n).
Proof.
  intros Hf st v st' Hrun. unfold getfromcache in Hrun.
  apply bind_Ok in Hrun as (ik & st0 & Hkey & Hrun).
  apply call_get_cachekey_Ok in Hkey as [Hik ->].
  apply bind_Ok in Hrun as (r & st0 & Hget & Hrun).
  injection Hget as <- <-.
  destruct (cache st !! make_key ik name) eqn:Hentry.
  - injection Hrun as _ <-. split; [apply evolves_refl|apply keeps_entries_refl].
  - apply bind_Ok in Hrun as (v' & st1 & Hbody & Hrun).
    apply bind_Ok in Hrun as (u & st2 & Hset & Hret).
    injection Hset as _ <-. injection Hret as _ <-.
    apply Hf in Hbody as [He Hk]. split.
    + eapply evolves_trans; [exact He|]. auto with frames.
    + intros key w Hw. simpl.
      rewrite lookup_insert_ne by (intros <-; congruence). by apply Hk.
Qed.

Lemma quiet_getattr fuel : ∀ name n, quiet (getattr fuel name n).
Proof.
  induction fuel as [|fuel IH]; intros name n; [by intros st a st' H|].
  rewrite getattr_unfold. apply quiet_getfromcache.
  by apply quiet_method_body.
Qed.

Lemma quiet_read_all fuel n : quiet (read_all fuel n).
Proof.
  unfold read_all.
  repeat (apply quiet_bind; [apply quiet_getattr|]; intros _).
  apply quiet_ret.
Qed.

(** ** Recomputation from scratch *)

Lemma children_of_height_0 (height : node → nat) n :
  children_wf height → height n = 0 → get_children n = [].
Proof.
  intros Hwf H0. destruct (get_children n) as [|c l] eqn:Hcs; [done|].
  assert (c ∈ get_children n) as Hc by (rewrite Hcs; by left).
  apply Hwf in Hc. lia.
Qed.

Lemma fmap_ext_elem {A B} (f g : A → B) (l : list A) :
  (∀ x, x ∈ l → f x = g x) → f <$> l = g <$> l.
Proof.
  induction l as [|x l IH]; intros H; simpl; [done|].
  rewrite (H x) by by left. f_equal. apply IH. intros y Hy. apply H. by right.
Qed.

(** Fuel beyond the height of the node does not change the result. *)
Lemma aggregate_fuel {A} (comb : node → list A → A) (height : node → nat) :
  children_wf height →
  ∀ f f' n, height n ≤ f → height n ≤ f' →
            aggregate comb f n = aggregate comb f' n.
Proof.
  intros Hwf. induction f as [|f IH]; intros f' n Hf Hf'.
  - assert (get_children n = []) as Hnil
      by (apply (children_of_height_0 height); [done|lia]).
    destruct f'; simpl; [done|]. by rewrite Hnil.
  - destruct f' as [|f']; simpl.
    + assert (get_children n = []) as Hnil
        by (apply (children_of_height_0 height); [done|lia]).
      by rewrite Hnil.
    + f_equal. apply fmap_ext_elem. intros c Hc. apply Hwf in Hc.
      apply IH; lia.
Qed.

Lemma aggregate_height {A} (comb : node → list A → A) (height : node → nat) n :
  children_wf height →
  aggregate comb (height n) n
  = comb n ((λ c, aggregate comb (height c) c) <$> get_children n).
Proof.
  intros Hwf. destruct (height n) as [|h] eqn:Hh; simpl.
  - by rewrite (children_of_height_0 height n Hwf Hh).
  - f_equal. apply fmap_ext_elem. intros c Hc. apply Hwf in Hc.
    apply (aggregate_fuel comb height Hwf); lia.
Qed.

Lemma coherent_refreshes height P st st' :
  keys_distinct → coherent height P st → refreshes height st st' →
  coherent height P st'.
Proof.
  intros Hdist Hcoh Href d ik m v Hd Hik Hv.
  destruct (Href (make_key ik (method_name m)))
    as [Heq|[Hnone|(d' & ik' & m' & Hik' & Hkey & Hval)]].
  - rewrite Heq in Hv. by eapply Hcoh.
  - congruence.
  - destruct (Hdist d d' ik ik' m m' Hik Hik' Hkey) as [-> ->]. congruence.
Qed.

Lemma fills_in_refreshes height st st' :
  fills_in height st st' → refreshes height st st'.
Proof. intros H key. destruct (H key) as [?|?]; auto. Qed.

Lemma deletes_only_refreshes height keys st st' :
  deletes_only keys st st' → refreshes height st st'.
Proof. intros H key. destruct (H key) as [?|[? _]]; auto. Qed.

Lemma refreshes_refl height st : refreshes height st st.
Proof. intros key. by left. Qed.

Lemma refreshes_trans height st1 st2 st3 :
  refreshes height st1 st2 → refreshes height st2 st3 →
  refreshes height st1 st3.
Proof.
  intros H1 H2 key. destruct (H2 key) as [Heq|[?|?]]; [|auto|auto].
  rewrite Heq. apply H1.
Qed.

Lemma fills_in_refl height st : fills_in height st st.
Proof. intros key. by left. Qed.

Lemma fills_in_trans height st1 st2 st3 :
  fills_in height st1 st2 → fills_in height st2 st3 → fills_in height st1 st3.
Proof.
  intros H1 H2 key. destruct (H2 key) as [Heq|?]; [|auto].
  rewrite Heq. apply H1.
Qed.

Lemma coherent_descendant height n c st :
  c ∈ get_children n → coherent height (descendant n) st →
  coherent height (descendant c) st.
Proof.
  intros Hc Hcoh d ik m v Hd. apply Hcoh. by eapply rtc_l.
Qed.

(** An entry with the recomputed value survives later fillings. *)
Lemma fills_in_entry height st st' n ik m :
  keys_distinct → fills_in height st st' → get_cachekey n = Some ik →
  cache st !! make_key ik (method_name m) = Some (from_scratch height m n) →
  cache st' !! make_key ik (method_name m) = Some (from_scratch height m n).
Proof.
  intros Hdist Hfill Hik Hentry.
  destruct (Hfill (make_key ik (method_name m)))
    as [Heq|(d' & ik' & m' & Hik' & Hkey & Hval)]; [congruence|].
  destruct (Hdist n d' ik ik' m m' Hik Hik' Hkey) as [-> ->]. done.
Qed.

(** A list comprehension returns when each of its calls does. *)
Lemma comprehension_returns {A B} (I : state → Prop) (f : A → M B)
    (g : A → B) (l : list A) :
  (∀ x st, x ∈ l → I st → ∃ st', f x st = Ok (g x, st') ∧ I st') →
  ∀ st, I st → ∃ st', comprehension f l st = Ok (g <$> l, st') ∧ I st'.
Proof.
  induction l as [|x l IH]; intros Hf st HI; simpl.
  - by exists st.
  - destruct (Hf x st) as (st1 & H1 & HI1); [by left|done|].
    destruct IH with (st := st1) as (st' & H2 & HI'); [|done|].
    + intros y s Hy. apply Hf. by right.
    + exists st'. split; [|done].
      rewrite (bind_step _ _ _ _ _ H1), (bind_step _ _ _ _ _ H2). done.
Qed.

(** ** Reading through a coherent cache *)

Section Coherent.
Variable height : node → nat.
Hypothesis Hcwf : children_wf height.
Hypothesis Himpl : keys_implemented.
Hypothesis Hdist : keys_distinct.

Lemma children_values fuel name n st :
  reads_from_scratch height fuel name →
  height n ≤ fuel → heap_ok st → coherent height (descendant n) st →
  ∃ st', comprehension (getattr fuel name) (get_children n) st
         = Ok (from_scratch height name <$> get_children n, st') ∧
         evolves st st' ∧ fills_in height st st'.
Proof.
  intros IH Hfuel Hok Hcoh.
  apply (comprehension_returns
           (λ s, evolves st s ∧ fills_in height st s)).
  - intros c s Hc [He Hf].
    destruct (IH c s) as (s' & Hrun & He' & Hf' & _).
    + specialize (Hcwf n c Hc). lia.
    + by apply He.
    + eapply coherent_refreshes; [done| |by apply fills_in_refreshes].
      by eapply coherent_descendant.
    + exists s'. split; [done|]. split.
      * by eapply evolves_trans.
      * by eapply fills_in_trans.
  - split; [apply evolves_refl|apply fills_in_refl].
Qed.

Lemma method_body_coherent fuel name n st :
  reads_from_scratch height fuel name →
  height n ≤ fuel → heap_ok st → coherent height (descendant n) st →
  ∃ st', method_body name (getattr fuel) n st
         = Ok (from_scratch height name n, st') ∧
         evolves st st' ∧ fills_in height st st'.
Proof.
  intros IH Hfuel Hok Hcoh.
  destruct (initialize_children_spec n st) as (st1 & Hinit & Hc & He & _ & Hcs).
  assert (self_children n st1 = Ok (get_children n, st1)) as Hself
    by (apply self_children_Ok; auto).
  destruct (children_values fuel name n st1 IH Hfuel) as (st2 & Hvs & He2 & Hf2).
  { by apply He. }
  { intros d ik m v. rewrite Hc. apply Hcoh. }
  exists st2. split; [|split].
  - unfold from_scratch at 1.
    destruct name; simpl; unfold count_of, max_of, checks_of;
      rewrite (aggregate_height _ height n Hcwf).
    + eapply checks_body_run; [done|done|].
      by rewrite <- list_fmap_compose.
    + eapply count_body_run; [done|done|].
      by rewrite <- list_fmap_compose.
    + eapply count_body_run; [done|done|].
      by rewrite <- list_fmap_compose.
    + eapply count_body_run; [done|done|].
      by rewrite <- list_fmap_compose.
    + eapply (max_body_run VAction mtime_key (λ a, default 0%Z (mtime a))
                _get_last_action); [done|done|done|].
      by rewrite <- list_fmap_compose.
    + eapply count_body_run; [done|done|].
      by rewrite <- list_fmap_compose.
    + eapply (max_body_run VTime time_key (λ t, t) _get_mtime);
        [done|done|done|].
      by rewrite <- list_fmap_compose.
    + eapply (max_body_run VUpdated creation_time_key
                (λ u, default 0%Z (creation_time u)) _get_last_updated);
        [done|done|done|].
      by rewrite <- list_fmap_compose.
  - by eapply evolves_trans.
  - intros key. rewrite <- Hc. apply Hf2.
Qed.

Lemma getattr_coherent fuel : ∀ name, reads_from_scratch height fuel name.
Proof.
  induction fuel as [|fuel IH]; intros name n st Hfuel Hok Hcoh; [lia|].
  destruct (Himpl n) as [ik Hik]. rewrite getattr_unfold.
  destruct (cache st !! make_key ik (method_name name)) as [v|] eqn:Hentry.
  - assert (v = from_scratch height name n) as ->.
    { eapply Hcoh; [apply rtc_refl|done|done]. }
    exists st. split; [by eapply getfromcache_hit|].
    split; [apply evolves_refl|]. split; [apply fills_in_refl|].
    intros ik' Hik'. congruence.
  - destruct (method_body_coherent fuel name n st (IH name))
      as (st1 & Hbody & He & Hf); [lia|done|done|].
    eexists. split; [by eapply getfromcache_miss|].
    split; [|split].
    + eapply evolves_trans; [exact He|]. auto with frames.
    + intros key. simpl.
      destruct (decide (key = make_key ik (method_name name))) as [->|Hne].
      * right. exists n, ik, name. by rewrite lookup_insert_eq.
      * rewrite lookup_insert_ne by done. apply Hf.
    + intros ik' Hik'. assert (ik' = ik) as -> by congruence.
      simpl. by rewrite lookup_insert_eq.
Qed.

(** The eight reads of [refresh_stats], on a cache coherent below the
    node, leave every statistic of the node cached with the value
    recomputed from scratch. *)
Lemma read_all_coherent fuel n st :
  height n < fuel → heap_ok st → coherent height (descendant n) st →
  ∃ st', read_all fuel n st = Ok (tt, st') ∧
         evolves st st' ∧ fills_in height st st' ∧
         ∀ name ik, get_cachekey n = Some ik →
                    cache st' !! make_key ik (method_name name)
                    = Some (from_scratch height name n).
Proof.
  intros Hfuel Hok Hcoh. unfold read_all.
  unfold get_total_wordcount, get_translated_wordcount, get_fuzzy_wordcount,
    get_suggestion_count, get_last_action, get_checks, get_mtime,
    get_last_updated.
  assert (Hstep : ∀ name s,
    evolves st s → fills_in height st s →
    ∃ s', getattr fuel name n s = Ok (from_scratch height name n, s') ∧
          evolves st s' ∧ fills_in height st s' ∧ fills_in height s s' ∧
          ∀ ik, get_cachekey n = Some ik →
                cache s' !! make_key ik (method_name name)
                = Some (from_scratch height name n)).
  { intros name s He Hf.
    destruct (getattr_coherent fuel name n s) as (s' & Hrun & He' & Hf' & Hentry).
    - done.
    - by apply He.
    - eapply coherent_refreshes; [done|done|by apply fills_in_refreshes].
    - exists s'. split; [done|]. split; [by eapply evolves_trans|].
      split; [by eapply fills_in_trans|]. done. }
  destruct (Hstep TOTAL st) as (s1 & R1 & E1 & F1 & G1 & K1);
    [apply evolves_refl|apply fills_in_refl|].
  destruct (Hstep TRANSLATED s1) as (s2 & R2 & E2 & F2 & G2 & K2); [done..|].
  destruct (Hstep FUZZY s2) as (s3 & R3 & E3 & F3 & G3 & K3); [done..|].
  destruct (Hstep SUGGESTIONS s3) as (s4 & R4 & E4 & F4 & G4 & K4); [done..|].
  destruct (Hstep LAST_ACTION s4) as (s5 & R5 & E5 & F5 & G5 & K5); [done..|].
  destruct (Hstep CHECKS s5) as (s6 & R6 & E6 & F6 & G6 & K6); [done..|].
  destruct (Hstep MTIME s6) as (s7 & R7 & E7 & F7 & G7 & K7); [done..|].
  destruct (Hstep LAST_UPDATED s7) as (s8 & R8 & E8 & F8 & G8 & K8); [done..|].
  exists s8.
  rewrite (bind_step _ _ _ _ _ R1), (bind_step _ _ _ _ _ R2),
    (bind_step _ _ _ _ _ R3), (bind_step _ _ _ _ _ R4),
    (bind_step _ _ _ _ _ R5), (bind_step _ _ _ _ _ R6),
    (bind_step _ _ _ _ _ R7), (bind_step _ _ _ _ _ R8).
  split; [done|]. split; [done|]. split; [done|].
  intros name ik Hik.
  assert (Hlater : ∀ s m,
    fills_in height s s8 →
    cache s !! make_key ik (method_name m) = Some (from_scratch height m n) →
    cache s8 !! make_key ik (method_name m) = Some (from_scratch height m n)).
  { intros s m Hfill. by apply fills_in_entry. }
  pose proof (fills_in_refl height s8) as H8.
  pose proof (fills_in_trans _ _ _ _ G8 H8) as H7.
  pose proof (fills_in_trans _ _ _ _ G7 H7) as H6.
  pose proof (fills_in_trans _ _ _ _ G6 H6) as H5.
  pose proof (fills_in_trans _ _ _ _ G5 H5) as H4.
  pose proof (fills_in_trans _ _ _ _ G4 H4) as H3.
  pose proof (fills_in_trans _ _ _ _ G3 H3) as H2.
  pose proof (fills_in_trans _ _ _ _ G2 H2) as H1.
  destruct name.
  - apply (Hlater s6); auto.
  - apply (Hlater s1); auto.
  - apply (Hlater s2); auto.
  - apply (Hlater s3); auto.
  - apply (Hlater s5); auto.
  - apply (Hlater s4); auto.
  - apply (Hlater s7); auto.
  - apply (Hlater s8); auto.
Qed.

End Coherent.

(** ** [clear_all_cache] and [refresh_stats] *)

Lemma method_name_in_get_all m : method_name m ∈ get_all.
Proof.
  unfold get_all. apply list_elem_of_fmap. exists m. split; [done|].
  unfold all_methods. destruct m; repeat (first [by left|right]).
Qed.

(** A call of [_clear_cache] with keys to delete logs them first. *)
Lemma _clear_cache_logs fuel n keys parents children st u st' :
  keys ≠ ∅ →
  _clear_cache fuel n keys parents children st = Ok (u, st') →
  ∃ ik l, get_cachekey n = Some ik ∧
          logged st' = logged st ++ (keys, ik) :: l.
Proof.
  intros Hkeys Hrun. destruct fuel as [|fuel]; [done|]. simpl in Hrun.
  apply bind_Ok in Hrun as (ik & st0 & Hkey & Hrun).
  apply call_get_cachekey_Ok in Hkey as [Hkey ->].
  apply bind_Ok in Hrun as (u1 & st1 & Hdel & Hrun).
  rewrite delete_loop_run in Hdel. injection Hdel as _ <-.
  apply bind_Ok in Hrun as (u2 & st2 & Hlog & Hrun).
  rewrite bool_decide_eq_true_2 in Hlog by done.
  unfold log in Hlog. injection Hlog as _ <-.
  apply bind_Ok in Hrun as (u3 & st3 & Hpar & Hchi).
  set (st2 := {| cache := _; heap := _; nav := _; logged := _ |}) in *.
  assert (Hloop : ∀ (l : list node) p c s v s',
    evolves st2 s →
    for_each l (λ x, _clear_cache fuel x keys p c) s = Ok (v, s') →
    evolves st2 s').
  { intros l p c s v s'. apply (for_each_keeps (evolves st2)).
    intros x s0 v0 s0' _ He Hx. apply _clear_cache_effect in Hx as (_ & He' & _).
    by eapply evolves_trans. }
  assert (evolves st2 st3) as He3.
  { destruct parents.
    - eapply Hloop; [apply evolves_refl|exact Hpar].
    - unfold pass, mret, M_ret in Hpar. injection Hpar as _ <-.
      apply evolves_refl. }
  assert (evolves st2 st') as (_ & _ & l & Hl).
  { destruct children.
    - apply bind_Ok in Hchi as (u4 & st4 & Hinit & Hchi).
      apply bind_Ok in Hchi as (cs & st5 & Hcs & Hchi).
      apply self_children_Ok in Hcs as [_ ->].
      apply quiet_initialize_children in Hinit as [He4 _].
      eapply Hloop; [|exact Hchi]. by eapply evolves_trans.
    - unfold pass, mret, M_ret in Hchi. by injection Hchi as _ <-. }
  exists ik, l. split; [done|]. rewrite Hl. simpl. by rewrite <- app_assoc.
Qed.

(** Flagging [args] and clearing upwards: the entries of the node and of
    its ancestors for [args] are gone, nothing is flagged on the node any
    more, and the deletion has been logged for the node. *)
Lemma flag_and_clear_effect fuel n (args : list string) st u st' :
  (flag_for_deletion n args;; clear_flagged_cache fuel n true false) st
  = Ok (u, st') →
  (∃ keys, deletes_only keys st st') ∧
  (heap_ok st → heap_ok st') ∧
  (∀ a ik k, ancestor n a → get_cachekey a = Some ik → k ∈ args →
             cache st' !! make_key ik k = None) ∧
  _flagged_for_deletion (obj_of st' n) = ∅ ∧
  (args ≠ [] →
   ∃ ik keys l, get_cachekey n = Some ik ∧ list_to_set args ⊆ keys ∧
                logged st' = logged st ++ (keys, ik) :: l).
Proof.
  intros Hrun.
  apply bind_Ok in Hrun as (u1 & st1 & Hflag & Hrun).
  rewrite flag_for_deletion_run in Hflag. injection Hflag as _ <-.
  apply clear_flagged_cache_Ok in Hrun as (st2 & Hclear & ->).
  rewrite obj_of_with_heap_eq in Hclear.
  change (_flagged_for_deletion (with_flagged ?o ?k)) with k in Hclear.
  remember (_flagged_for_deletion (obj_of st n) ∪ list_to_set args)
    as keys eqn:Hkeys.
  assert (Hsub : list_to_set args ⊆ keys)
    by (rewrite Hkeys; apply union_subseteq_r).
  pose proof (_clear_cache_effect _ _ _ _ _ _ _ _ Hclear) as (Hd & He & _).
  split; [|split; [|split; [|split]]].
  - exists keys. intros key. simpl. apply Hd.
  - intros Hok. apply heap_ok_set_flagged. apply He.
    by apply heap_ok_set_flagged.
  - intros a ik k Ha Hik Hk. simpl.
    eapply _clear_cache_ancestors; [done..|].
    by apply Hsub, elem_of_list_to_set.
  - by rewrite obj_of_with_heap_eq.
  - intros Hargs. apply _clear_cache_logs in Hclear as (ik & l & Hik & Hl).
    + by exists ik, keys, l.
    + intros Hempty. destruct args as [|k args]; [done|].
      assert (k ∈ keys) as Hk by (apply Hsub, elem_of_list_to_set; by left).
      rewrite Hempty in Hk. by apply not_elem_of_empty in Hk.
Qed.

(** What [clear_all_cache(parents=True, children=False)] has done when it
    returns: every statistic of the node and of its ancestors is gone from
    the cache, nothing is flagged on the node any more, and the deletion
    has been logged for the node. *)
Lemma clear_all_cache_effect fuel n st u st' :
  clear_all_cache fuel n false true st = Ok (u, st') →
  (∃ keys, deletes_only keys st st') ∧
  (heap_ok st → heap_ok st') ∧
  (∀ a ik m, ancestor n a → get_cachekey a = Some ik →
             cache st' !! make_key ik (method_name m) = None) ∧
  _flagged_for_deletion (obj_of st' n) = ∅ ∧
  ∃ ik keys l, get_cachekey n = Some ik ∧ list_to_set get_all ⊆ keys ∧
               logged st' = logged st ++ (keys, ik) :: l.
Proof.
  intros Hrun. apply flag_and_clear_effect in Hrun
    as (Hd & Hok & Hgone & Hflag & Hlog).
  split; [done|]. split; [done|]. split; [|split; [done|]].
  - intros a ik m Ha Hik. eapply Hgone; [done|done|].
    apply method_name_in_get_all.
  - by apply Hlog.
Qed.

Lemma clear_all_cache_returns (depth : node → nat) fuel n st :
  parents_wf depth → keys_implemented → depth n < fuel →
  ∃ st', clear_all_cache fuel n false true st = Ok (tt, st').
Proof.
  intros Hpwf Himpl Hfuel. unfold clear_all_cache.
  rewrite (bind_step _ _ _ _ _ (flag_for_deletion_run n get_all st)).
  set (st1 := with_heap st _).
  destruct (_clear_cache_up_returns depth fuel n
              (_flagged_for_deletion (obj_of st1 n)) true st1)
    as (st2 & Hclear); [by apply upward_ok_global|done|].
  eexists. apply clear_flagged_cache_Ok. by exists st2.
Qed.

Lemma refresh_stats_unfold fuel n st u st' :
  refresh_stats (S fuel) n true st = Ok (u, st') ↔
  ∃ st0 cs st1 st2,
    initialize_children n st = Ok (tt, st0) ∧
    self_children n st0 = Ok (cs, st0) ∧
    for_each cs (λ item, refresh_stats fuel item true) st0 = Ok (tt, st1) ∧
    clear_all_cache (S fuel) n false true st1 = Ok (tt, st2) ∧
    read_all (S fuel) n st2 = Ok (u, st').
Proof.
  simpl. rewrite bind_Ok. split.
  - intros ([] & st0 & Hinit & Hrun).
    apply bind_Ok in Hrun as ([] & st2 & Hmid & Hread).
    apply bind_Ok in Hmid as (cs & st0' & Hcs & Hmid).
    pose proof Hcs as Hcs'. apply self_children_Ok in Hcs' as [_ ->].
    apply bind_Ok in Hmid as ([] & st1 & Hloop & Hclear).
    by exists st0, cs, st1, st2.
  - intros (st0 & cs & st1 & st2 & Hinit & Hcs & Hloop & Hclear & Hread).
    exists tt, st0. split; [done|].
    apply bind_Ok. exists tt, st2. split; [|done].
    apply bind_Ok. exists cs, st0. split; [done|].
    apply bind_Ok. by exists tt, st1.
Qed.

(** C3: in [refresh_stats(include_children=True)] the [else] clause of
    the child loop runs whenever the loop has ended, whatever the number
    of children: a call that returns has loaded the children [cs], run the
    loop over them, then called [clear_all_cache(parents=True,
    children=False)] on the node, and only then read the statistics.  So
    on return nothing is flagged on the node and the deletion of all the
    cached methods of the node has been logged after the loop. *)
Theorem refresh_stats_else_clause (fuel : nat) (n : node) (st : state)
    (u : unit) (st' : state) :
  refresh_stats (S fuel) n true st = Ok (u, st') →
  ∃ st0 cs st1 st2,
    initialize_children n st = Ok (tt, st0) ∧
    self_children n st0 = Ok (cs, st0) ∧
    for_each cs (λ item, refresh_stats fuel item true) st0 = Ok (tt, st1) ∧
    clear_all_cache (S fuel) n false true st1 = Ok (tt, st2) ∧
    read_all (S fuel) n st2 = Ok (u, st') ∧
    _flagged_for_deletion (obj_of st' n) = ∅ ∧
    ∃ ik keys l, get_cachekey n = Some ik ∧ list_to_set get_all ⊆ keys ∧
                 logged st' = logged st1 ++ (keys, ik) :: l.
Proof.
  intros Hrun.
  apply refresh_stats_unfold in Hrun
    as (st0 & cs & st1 & st2 & Hinit & Hcs & Hloop & Hclear & Hread).
  exists st0, cs, st1, st2. do 5 (split; [done|]).
  apply clear_all_cache_effect in Hclear
    as (_ & _ & _ & Hflag & ik & keys & l & Hik & Hall & Hl).
  apply quiet_read_all in Hread as [(Hf & _ & l' & Hl') _].
  split; [by rewrite Hf|].
  exists ik, keys, (l ++ l'). split; [done|]. split; [done|].
  rewrite Hl', Hl. by rewrite <- app_assoc.
Qed.

(** Without [include_children] nothing is deleted: [refresh_stats] reads
    through the cache, and every entry present before the call is still
    there, unchanged, after it. *)
Lemma refresh_stats_without_children_keeps fuel n st u st' :
  refresh_stats fuel n false st = Ok (u, st') → keeps_entries st st'.
Proof.
  destruct fuel as [|fuel]; [done|]. simpl. intros Hrun.
  apply bind_Ok in Hrun as ([] & st0 & Hinit & Hrun).
  apply bind_Ok in Hrun as ([] & st1 & Hpass & Hread).
  unfold pass, mret, M_ret in Hpass. injection Hpass as <-.
  apply quiet_initialize_children in Hinit as [_ Hk0].
  apply quiet_read_all in Hread as [_ Hk1].
  by eapply keeps_entries_trans.
Qed.

Section Refresh.
Variables (height depth : node → nat) (D : nat).
Hypothesis Hcwf : children_wf height.
Hypothesis Hpwf : parents_wf depth.
Hypothesis Hdepth : ∀ n, depth n ≤ D.
Hypothesis Himpl : keys_implemented.
Hypothesis Hdist : keys_distinct.

Lemma refresh_stats_coherent fuel :
  ∀ n st,
    height n + D < fuel → heap_ok st →
    ∃ st1 st2 st',
      refresh_stats fuel n true st = Ok (tt, st') ∧
      clear_all_cache fuel n false true st1 = Ok (tt, st2) ∧
      (∀ name ik, get_cachekey n = Some ik →
                  cache st2 !! make_key ik (method_name name) = None) ∧
      read_all fuel n st2 = Ok (tt, st') ∧
      heap_ok st' ∧ refreshes height st st' ∧
      coherent height (descendant n) st' ∧
      ∀ name ik, get_cachekey n = Some ik →
                 cache st' !! make_key ik (method_name name)
                 = Some (from_scratch height name n).
Proof.
  induction fuel as [|fuel IH]; intros n st Hfuel Hok; [lia|].
  destruct (initialize_children_spec n st) as (st0 & Hinit & Hc0 & He0 & _ & Hcs).
  assert (self_children n st0 = Ok (get_children n, st0)) as Hself
    by (apply self_children_Ok; auto).
  assert (Hloop : ∀ l s,
    (∀ c, c ∈ l → c ∈ get_children n) → heap_ok s →
    ∃ s', for_each l (λ item, refresh_stats fuel item true) s = Ok (tt, s') ∧
          heap_ok s' ∧ refreshes height s s' ∧
          ∀ c, c ∈ l → coherent height (descendant c) s').
  { induction l as [|c l IHl]; intros s Hl Hs.
    - exists s. split; [done|]. split; [done|].
      split; [apply refreshes_refl|]. intros c Hc. by apply elem_of_nil in Hc.
    - destruct (IH c s)
        as (_ & _ & s1 & Hrun1 & _ & _ & _ & Hok1 & Hr1 & Hcoh1 & _).
      { assert (c ∈ get_children n) as Hc by (apply Hl; by left).
        apply Hcwf in Hc. lia. }
      { done. }
      destruct (IHl s1) as (s' & Hrun' & Hok' & Hr' & Hcoh').
      { intros c' Hc'. apply Hl. by right. }
      { done. }
      exists s'. simpl. run Hrun1.
      split; [done|]. split; [done|].
      split; [by eapply refreshes_trans|].
      intros c' Hc'. apply elem_of_cons in Hc' as [->|Hc']; [|by apply Hcoh'].
      by eapply coherent_refreshes. }
  destruct (Hloop (get_children n) st0) as (st1 & Hrun1 & Hok1 & Hr1 & Hcoh1);
    [done|by apply He0|].
  destruct (clear_all_cache_returns depth (S fuel) n st1 Hpwf Himpl)
    as (st2 & Hclear); [specialize (Hdepth n); lia|].
  pose proof (clear_all_cache_effect _ _ _ _ _ Hclear)
    as ((keys & Hd) & Hok2 & Hgone & _).
  assert (coherent height (descendant n) st2) as Hcoh2.
  { intros d ik m v Hdn Hik Hv. apply rtc_inv in Hdn as [->|(c & Hc & Hdc)].
    - rewrite (Hgone d ik m) in Hv; [done|apply rtc_refl|done].
    - eapply (coherent_refreshes height (descendant c) st1 st2);
        [done|by apply Hcoh1|by eapply deletes_only_refreshes|done|done|done]. }
  destruct (read_all_coherent height Hcwf Himpl Hdist (S fuel) n st2)
    as (st3 & Hread & He3 & Hf3 & Hentries); [lia|by apply Hok2|done|].
  exists st1, st2, st3.
  split; [|split; [done|split; [|split; [done|split; [|split; [|split]]]]]].
  - apply refresh_stats_unfold. by exists st0, (get_children n), st1, st2.
  - intros name ik Hik. apply (Hgone n); [apply rtc_refl|done].
  - apply He3. by apply Hok2.
  - eapply refreshes_trans; [|by apply fills_in_refreshes].
    eapply refreshes_trans; [|by eapply deletes_only_refreshes].
    eapply refreshes_trans; [|exact Hr1].
    intros key. left. by rewrite Hc0.
  - eapply coherent_refreshes; [done|exact Hcoh2|by apply fills_in_refreshes].
  - done.
Qed.

End Refresh.

(** On a cache without entries a cached method computes the value from
    scratch. *)
Lemma getattr_cold_cache (height : node → nat) fuel name n st :
  children_wf height → keys_implemented → keys_distinct →
  cache st = ∅ → height n < fuel → heap_ok st →
  ∃ st', getattr fuel name n st = Ok (from_scratch height name n, st').
Proof.
  intros Hcwf Himpl Hdist Hempty Hfuel Hok.
  destruct (getattr_coherent height Hcwf Himpl Hdist fuel name n st)
    as (st' & Hrun & _); [done|done| |by exists st'].
  intros d ik m v _ _. by rewrite Hempty, lookup_empty.
Qed.

(** C2, amended: with [include_children] set, on a well-founded graph
    where every node has a cache key of its own, [refresh_stats] returns;
    after the children have been refreshed it has deleted the node's
    entries of every statistic ([clear_all_cache] leads to [st2], where
    none is left) and only then read every statistic, so that on return the cache holds, for each
    statistic of the node, the value recomputed from scratch, whatever the
    cache held before the call.  Without [include_children] nothing is
    deleted: every entry present before the call is still there, unchanged,
    after it. *)
Theorem refresh_stats_recomputes (height depth : node → nat) (D fuel : nat)
    (n : node) (st : state) :
  children_wf height → parents_wf depth → (∀ x, depth x ≤ D) →
  keys_implemented → keys_distinct → heap_ok st →
  height n + D < fuel →
  (∃ st1 st2 st',
     refresh_stats fuel n true st = Ok (tt, st') ∧
     clear_all_cache fuel n false true st1 = Ok (tt, st2) ∧
     (∀ name ik, get_cachekey n = Some ik →
                 cache st2 !! make_key ik (method_name name) = None) ∧
     read_all fuel n st2 = Ok (tt, st') ∧
     ∀ name ik, get_cachekey n = Some ik →
                cache st' !! make_key ik (method_name name)
                = Some (from_scratch height name n)) ∧
  (∀ s u s', refresh_stats fuel n false s = Ok (u, s') → keeps_entries s s').
Proof.
  intros Hcwf Hpwf Hdepth Himpl Hdist Hok Hfuel. split.
  - destruct (refresh_stats_coherent height depth D Hcwf Hpwf Hdepth Himpl
                Hdist fuel n st Hfuel Hok)
      as (st1 & st2 & st' & Hrun & Hclear & Hgone & Hread & _ & _ & _
          & Hentries).
    by exists st1, st2, st'.
  - intros s u s'. apply refresh_stats_without_children_keeps.
Qed.

End Properties.

(** * The sample tree *)

Section Sample.
Variable la : node → action.

Lemma sample_children_wf : children_wf (Impl := sample_tree la) sample_height.
Proof.
  intros n c Hc. simpl in Hc.
  destruct n as [|[|n]]; simpl in *.
  - apply elem_of_cons in Hc as [->|Hc]; [simpl; lia|].
    apply list_elem_of_singleton in Hc as ->. simpl; lia.
  - apply list_elem_of_singleton in Hc as ->. simpl; lia.
  - by apply elem_of_nil in Hc.
Qed.

Lemma sample_parents_wf : parents_wf (Impl := sample_tree la) sample_depth.
Proof.
  intros n p Hp. simpl in Hp.
  destruct n as [|[|[|[|n]]]]; simpl in *;
    try (by apply elem_of_nil in Hp);
    apply list_elem_of_singleton in Hp as ->; simpl; lia.
Qed.

Lemma sample_keys_implemented : keys_implemented (Impl := sample_tree la).
Proof. intros n. by eexists. Qed.

Lemma tally_append n rest : tally n EmptyString +:+ rest = tally n rest.
Proof.
  induction n as [|n IH]; [done|]. exact (f_equal (String "I"%char) IH).
Qed.

Lemma tally_colon_inj n n' rest rest' :
  tally n (String ":" rest) = tally n' (String ":" rest') →
  n = n' ∧ rest = rest'.
Proof.
  revert n'. induction n as [|n IH]; intros [|n'] H; simpl in H;
    try discriminate.
  - by injection H as ->.
  - injection H as H. apply IH in H as [-> ->]. done.
Qed.

Lemma method_name_inj m m' : method_name m = method_name m' → m = m'.
Proof. destruct m, m'; simpl; intros H; try done; discriminate. Qed.

Lemma make_key_sample n name :
  make_key (Impl := sample_tree la) (key_of n) name
  = String "n"%char (tally n (String ":"%char name)).
Proof.
  transitivity (String "n"%char (tally n EmptyString +:+ String ":"%char name));
    [reflexivity|]. by rewrite tally_append.
Qed.

Lemma sample_keys_distinct : keys_distinct (Impl := sample_tree la).
Proof.
  intros n n' k k' m m' [= <-] [= <-]. rewrite !make_key_sample.
  intros [= H].
  apply tally_colon_inj in H as [-> H]. by apply method_name_inj in H as ->.
Qed.

Lemma heap_ok_cached c : heap_ok (Impl := sample_tree la) (cached c).
Proof. intros n. unfold obj_of. simpl. by rewrite lookup_empty. Qed.

End Sample.

(** * Witnesses and counterexamples *)

(** Three calls of [initialize_children] on the fresh root of the sample
    tree call [get_children] once. *)
Lemma initialize_children_idempotent_witness :
  initialized (obj_of empty_state 0) = false ∧
  ∃ st1,
    initialize_children (Impl := sample) 0 empty_state = Ok (tt, st1) ∧
    times 3 (initialize_children (Impl := sample) 0) empty_state
    = Ok (tt, st1) ∧
    nav st1 = nav empty_state ++ [0] ∧
    children (obj_of st1 0) = Some [1; 3] ∧
    initialized (obj_of st1 0) = true ∧
    ∀ j, times j (initialize_children (Impl := sample) 0) st1 = Ok (tt, st1).
Proof.
  split; [reflexivity|].
  apply (initialize_children_idempotent (Impl := sample) 0 2 empty_state).
  reflexivity.
Defined.

(** With nothing flagged on node 1 of the sample tree, clearing with both
    directions enabled visits nodes 0 and 2 and deletes nothing. *)
Lemma clear_flagged_cache_nothing_flagged_witness :
  let st := cached {[ "n:get_mtime" := VTime 4; "nII:get_mtime" := VTime 2 ]} in
  _flagged_for_deletion (obj_of st 1) = ∅ ∧
  ∃ st', clear_flagged_cache (Impl := sample) 3 1 true true st = Ok (tt, st') ∧
         cache st' = cache st.
Proof.
  intros st. split; [reflexivity|].
  apply (clear_flagged_cache_nothing_flagged (Impl := sample)
           sample_height sample_depth 3 1 true true st).
  - reflexivity.
  - apply sample_children_wf.
  - apply sample_parents_wf.
  - apply sample_keys_implemented.
  - apply heap_ok_cached.
  - simpl. lia.
  - simpl. lia.
Defined.

(** The chain 0, 1, 2 of the sample tree, with a cached total on each. *)
Lemma clear_flagged_cache_chain_witness :
  let st := cached {[ "n:get_total_wordcount" := VInt 111;
                      "nI:get_total_wordcount" := VInt 110;
                      "nII:get_total_wordcount" := VInt 100 ]} in
  ∃ st1 st2,
    flag_for_deletion 2 ["get_total_wordcount"] st = Ok (tt, st1) ∧
    clear_flagged_cache (Impl := sample) 3 2 true false st1 = Ok (tt, st2) ∧
    cache st2 !! "nII:get_total_wordcount" = None ∧
    cache st2 !! "nI:get_total_wordcount" = None ∧
    cache st2 !! "n:get_total_wordcount" = None ∧
    _flagged_for_deletion (obj_of st2 2) = ∅.
Proof.
  intros st.
  apply (clear_flagged_cache_chain (Impl := sample) sample_depth 0 1 2
           (key_of 0) (key_of 1) (key_of 2) 3 st).
  - apply upward_ok_global.
    + apply sample_parents_wf.
    + apply sample_keys_implemented.
  - simpl. apply list_elem_of_singleton. reflexivity.
  - simpl. apply list_elem_of_singleton. reflexivity.
  - reflexivity.
  - reflexivity.
  - reflexivity.
  - simpl. lia.
Defined.

(** C1 as stated fails: node 2 has the parent 1, which has no cached
    [last_action]; [set_last_action] on node 2 leaves the entry of node 1
    absent, where the call on the parent that the claim describes would
    have written the action there. *)
Lemma set_last_action_absent_parent_counterexample :
  let a := action_at 7 9 in
  get_parents (TreeItemImpl := sample) 2 = [1] ∧
  cache empty_state !! "nI:get_last_action" = None ∧
  (∃ st', set_last_action (Impl := sample) 3 2 a empty_state = Ok (tt, st') ∧
          cache st' !! "nI:get_last_action" = None) ∧
  (∃ st', spec_set_last_action (Impl := sample) 3 2 a empty_state
          = Ok (tt, st') ∧
          cache st' !! "nI:get_last_action" = Some (VAction a)) ∧
  set_last_action (Impl := sample) 3 2 a empty_state
  ≠ spec_set_last_action (Impl := sample) 3 2 a empty_state.
Proof.
  intros a. split; [reflexivity|]. split; [reflexivity|].
  split; [|split].
  - eexists. split; [vm_compute; reflexivity|]. reflexivity.
  - eexists. split; [vm_compute; reflexivity|]. reflexivity.
  - vm_compute. discriminate.
Qed.

(** The write on the node itself is unconditional: node 2 holds a cached
    action at 10; [set_last_action] with an action at 5 replaces it by the
    older one. *)
Example set_last_action_replaces_newer :
  let st := cached {[ "nII:get_last_action" := VAction (action_at 1 10) ]} in
  ∃ st', set_last_action (Impl := sample) 3 2 (action_at 2 5) st
         = Ok (tt, st') ∧
         cache st !! "nII:get_last_action" = Some (VAction (action_at 1 10)) ∧
         cache st' !! "nII:get_last_action" = Some (VAction (action_at 2 5)) ∧
         (5 < 10)%Z.
Proof.
  intros st. eexists. split; [vm_compute; reflexivity|].
  split; [reflexivity|]. split; [reflexivity|]. lia.
Qed.

(** C2 as stated fails: without [include_children] nothing is deleted.
    The leaf 2 of the sample tree has the raw total 100 and a stale cached
    total 7; after [refresh_stats(include_children=False)] the cache still
    holds 7. *)
Lemma refresh_stats_without_children_counterexample :
  let st := cached {[ "nII:get_total_wordcount" := VInt 7 ]} in
  ∃ st', refresh_stats (Impl := sample) 3 2 false st = Ok (tt, st') ∧
         cache st' !! "nII:get_total_wordcount" = Some (VInt 7) ∧
         from_scratch (Impl := sample) sample_height TOTAL 2 = VInt 100.
Proof.
  intros st. eexists. split; [vm_compute; reflexivity|].
  split; reflexivity.
Qed.

(** The root of the sample tree with stale totals cached for the root and
    for node 1: after [refresh_stats] the cached total of the root is
    1 + (10 + 100) + 1000. *)
Lemma refresh_stats_recomputes_witness :
  let st := cached {[ "n:get_total_wordcount" := VInt 7;
                      "nI:get_total_wordcount" := VInt 8 ]} in
  ∃ st', refresh_stats (Impl := sample) 5 0 true st = Ok (tt, st') ∧
         cache st' !! "n:get_total_wordcount" = Some (VInt 1111) ∧
         cache st' !! "n:get_last_action" = Some (VAction (action_at 3 9)).
Proof.
  intros st.
  destruct (refresh_stats_recomputes (Impl := sample) sample_height
              sample_depth 2 5 0 st)
    as [(st1 & st2 & st' & Hrun & _ & _ & _ & Hentries) _].
  - apply sample_children_wf.
  - apply sample_parents_wf.
  - intros [|[|[|[|x]]]]; simpl; lia.
  - apply sample_keys_implemented.
  - apply sample_keys_distinct.
  - apply heap_ok_cached.
  - simpl. lia.
  - exists st'. split; [exact Hrun|]. split.
    + apply (Hentries TOTAL (key_of 0)). reflexivity.
    + apply (Hentries LAST_ACTION (key_of 0)). reflexivity.
Defined.

(** Node 1 of the sample tree has the child 2; its [refresh_stats] runs
    the [else] clause all the same. *)
Lemma refresh_stats_else_clause_witness :
  ∃ st', refresh_stats (Impl := sample) 4 1 true empty_state = Ok (tt, st') ∧
         children (obj_of st' 1) = Some [2] ∧
         _flagged_for_deletion (obj_of st' 1) = ∅ ∧
         ∃ keys, list_to_set get_all ⊆ keys ∧ (keys, key_of 1) ∈ logged st'.
Proof.
  assert (∃ st', refresh_stats (Impl := sample) 4 1 true empty_state
                 = Ok (tt, st') ∧ children (obj_of st' 1) = Some [2])
    as (st' & Hrun & Hchildren).
  { eexists. split; [vm_compute; reflexivity|]. reflexivity. }
  exists st'. split; [exact Hrun|]. split; [exact Hchildren|].
  destruct (refresh_stats_else_clause (Impl := sample) 3 1 empty_state tt st'
              Hrun)
    as (st0 & cs & st1 & st2 & _ & _ & _ & _ & _ & Hflag
        & ik & keys & l & Hik & Hall & Hlog).
  split; [exact Hflag|]. exists keys. split; [exact Hall|].
  injection Hik as <-. rewrite Hlog. apply elem_of_app. right. left.
Defined.

(** The root of the sample tree on an empty cache: its children return
    110 and 1000, its raw total is 1. *)
Lemma get_total_wordcount_sum_witness :
  ∃ st', get_total_wordcount (Impl := sample) 3 0 empty_state
         = Ok (VInt 1111, st') ∧
         cache st' !! "n:get_total_wordcount" = Some (VInt 1111).
Proof.
  assert (∃ st1 st2,
    initialize_children (Impl := sample) 0 empty_state = Ok (tt, st1) ∧
    self_children 0 st1 = Ok ([1; 3], st1) ∧
    comprehension (get_total_wordcount (Impl := sample) 2) [1; 3] st1
    = Ok (VInt <$> ([110; 1000]%Z), st2))
    as (st1 & st2 & Hinit & Hself & Hvalues).
  { do 2 eexists. split; [vm_compute; reflexivity|].
    split; vm_compute; reflexivity. }
  destruct (get_total_wordcount_sum (Impl := sample) 2 0 (key_of 0) empty_state st1
              [1; 3] ([110; 1000]%Z) st2 eq_refl (or_introl eq_refl) Hinit Hself Hvalues)
    as [Hrun _].
  exact Hrun.
Defined.

(** C7 as stated fails: the root's own record has the [mtime] -5 and the
    children return records without [mtime]; [get_last_action] returns the
    record of node 1, which the order of the specification puts below the
    root's own record. *)
Lemma get_last_action_missing_mtime_counterexample :
  ∃ st', get_last_action (Impl := sample_tree negative_actions) 3 0 empty_state
         = Ok (VAction (no_mtime 1), st') ∧
         _get_last_action (TreeItemImpl := sample_tree negative_actions) 0
         = action_at 0 (-5) ∧
         spec_below (no_mtime 1) (action_at 0 (-5)).
Proof.
  eexists. split; [vm_compute; reflexivity|]. split; [reflexivity|]. exact I.
Qed.

(** The root of the sample tree on an empty cache: its own action is at 5
    and its children return actions at 3 and 9; the result is the record
    of the second child. *)
Lemma get_last_action_max_witness :
  ∃ st', get_last_action (Impl := sample) 3 0 empty_state
         = Ok (VAction (action_at 3 9), st') ∧
         cache st' !! "n:get_last_action" = Some (VAction (action_at 3 9)).
Proof.
  assert (∃ st1 st2,
    initialize_children (Impl := sample) 0 empty_state = Ok (tt, st1) ∧
    self_children 0 st1 = Ok ([1; 3], st1) ∧
    comprehension (get_last_action (Impl := sample) 2) [1; 3] st1
    = Ok (VAction <$> [action_at 1 3; action_at 3 9], st2))
    as (st1 & st2 & Hinit & Hself & Hvalues).
  { do 2 eexists. split; [vm_compute; reflexivity|].
    split; vm_compute; reflexivity. }
  destruct (get_last_action_max (Impl := sample) 2 0 (key_of 0) empty_state st1
              [1; 3] [action_at 1 3; action_at 3 9] st2 eq_refl (or_introl eq_refl) Hinit Hself Hvalues)
    as [Hrun _].
  exact Hrun.
Defined.

(** The root of the sample tree on an empty cache: its raw checks are 2
    units with one critical failure, its first child returns 3 units with
    two critical failures and one warning, its second child none. *)
Lemma get_checks_dictsum_witness :
  ∃ st', get_checks (Impl := sample) 3 0 empty_state
         = Ok (VChecks {| unit_count := 5;
                          checks := {[ "critical" := 3%Z; "warning" := 1%Z ]} |},
               st').
Proof.
  assert (∃ st1 st2,
    initialize_children (Impl := sample) 0 empty_state = Ok (tt, st1) ∧
    self_children 0 st1 = Ok ([1; 3], st1) ∧
    comprehension (get_checks (Impl := sample) 2) [1; 3] st1
    = Ok (VChecks <$> [ {| unit_count := 3;
                    checks := {[ "critical" := 2%Z; "warning" := 1%Z ]} |};
                 {| unit_count := 0; checks := ∅ |} ], st2))
    as (st1 & st2 & Hinit & Hself & Hvalues).
  { do 2 eexists. split; [vm_compute; reflexivity|].
    split; vm_compute; reflexivity. }
  destruct (get_checks_dictsum (Impl := sample) 2 0 (key_of 0) empty_state st1
              [1; 3] [ {| unit_count := 3;
                    checks := {[ "critical" := 2%Z; "warning" := 1%Z ]} |};
                 {| unit_count := 0; checks := ∅ |} ] st2 eq_refl (or_introl eq_refl) Hinit Hself Hvalues)
    as [(st' & Hrun & _) _].
  exists st'. exact Hrun.
Defined.

(** The combination rules on the figures of the specification. *)
Example add_checks_example :
  add_checks
    {| unit_count := 2; checks := {[ "critical" := 1%Z ]} |}
    {| unit_count := 3; checks := {[ "critical" := 2%Z; "warning" := 1%Z ]} |}
  = {| unit_count := 5; checks := {[ "critical" := 3%Z; "warning" := 1%Z ]} |}.
Proof. vm_compute. reflexivity. Qed.

Example first_max_example :
  first_max (λ a, default 0%Z (mtime a)) (action_at 0 5)
    [action_at 1 3; action_at 3 9]
  = action_at 3 9.
Proof. reflexivity. Qed.

(** A record without [mtime] has the key 0: it wins over a record with a
    negative [mtime] and loses to one with a positive [mtime]. *)
Example first_max_missing_mtime :
  first_max (λ a, default 0%Z (mtime a)) (action_at 0 (-5)) [no_mtime 1]
  = no_mtime 1 ∧
  first_max (λ a, default 0%Z (mtime a)) (action_at 0 5) [no_mtime 1]
  = action_at 0 5.
Proof. split; reflexivity. Qed.

(** * Further properties *)

Section Invalidation.
Context `{Impl : TreeItemImpl}.

(** ** Which entries an invalidation deletes *)

Lemma visited_parent p c n q x :
  q ∈ get_parents n → visited p false q x → visited true c n x.
Proof.
  intros Hq [->|[[_ Ha]|[? _]]]; [| |done]; right; left; (split; [done|]).
  - by apply rtc_once.
  - by eapply rtc_l.
Qed.

Lemma visited_child p c n item x :
  item ∈ get_children n → visited false c item x → visited p true n x.
Proof.
  intros Hi [->|[[? _]|[_ Hd]]]; [|done|]; right; right; (split; [done|]).
  - by apply rtc_once.
  - by eapply rtc_l.
Qed.

Lemma deletes_within_refl P keys st : deletes_within P keys st st.
Proof. intros key. by left. Qed.

Lemma deletes_within_trans P keys st1 st2 st3 :
  deletes_within P keys st1 st2 → deletes_within P keys st2 st3 →
  deletes_within P keys st1 st3.
Proof.
  intros H1 H2 key. destruct (H2 key) as [Heq|?]; [|by right].
  rewrite Heq. apply H1.
Qed.

Lemma deletes_within_mono (P Q : node → Prop) keys st st' :
  (∀ x, P x → Q x) → deletes_within P keys st st' →
  deletes_within Q keys st st'.
Proof.
  intros HPQ H key.
  destruct (H key) as [?|[? (x & ik & k & Hx & ?)]]; [by left|].
  right. split; [done|]. exists x, ik, k. split; [by apply HPQ|done].
Qed.

(** A call of [_clear_cache] deletes entries of the nodes it visits only. *)
Lemma _clear_cache_visits fuel :
  ∀ n keys parents children st u st',
    (children = true → heap_ok st) →
    _clear_cache fuel n keys parents children st = Ok (u, st') →
    deletes_within (visited parents children n) keys st st'.
Proof.
  induction fuel as [|fuel IH]; intros n keys parents children st u st' Hok Hrun;
    [done|].
  pose proof Hrun as Hwhole. simpl in Hrun.
  apply bind_Ok in Hrun as (ik & st0 & Hkey & Hrun).
  apply call_get_cachekey_Ok in Hkey as [Hkey ->].
  apply bind_Ok in Hrun as (u1 & st1 & Hdel & Hrun).
  rewrite delete_loop_run in Hdel. injection Hdel as _ <-.
  apply bind_Ok in Hrun as (u2 & st2 & Hlog & Hrun).
  apply bind_Ok in Hrun as (u3 & st3 & Hpar & Hchi).
  set (V := visited parents children n).
  set (I := λ s : state, deletes_within V keys st s ∧ evolves st s).
  assert (I st2) as HI2.
  { assert (I (with_cache st
       (foldl (λ c key, delete (make_key ik key) c) (cache st)
          (elements keys)))) as [Hd He].
    { split; [|apply evolves_with_cache].
      intros key. simpl.
      destruct (lookup_delete_loop (make_key ik) (elements keys)
                  (cache st) key) as [?|[? (k & Hk & ->)]]; [by left|].
      right. split; [done|]. exists n, ik, k.
      rewrite elem_of_elements in Hk. split; [by left|done]. }
    destruct (bool_decide (keys ≠ ∅)).
    - unfold log in Hlog. injection Hlog as _ <-. split; [done|].
      eapply evolves_trans; [exact He|]. by eapply evolves_same_heap.
    - unfold pass, mret, M_ret in Hlog. by injection Hlog as _ <-. }
  assert (I st3) as HI3.
  { destruct parents.
    - revert HI2 Hpar. apply (for_each_keeps I).
      intros q s v s' Hq [Hd He] Hx.
      pose proof (_clear_cache_effect _ _ _ _ _ _ _ _ Hx) as (_ & He' & _).
      apply IH in Hx; [|done]. split; [|by eapply evolves_trans].
      eapply deletes_within_trans; [exact Hd|].
      eapply deletes_within_mono; [|exact Hx].
      intros x Hx'. by eapply visited_parent.
    - unfold pass, mret, M_ret in Hpar. by injection Hpar as _ <-. }
  destruct children.
  - apply bind_Ok in Hchi as (u4 & st4 & Hinit & Hchi).
    apply bind_Ok in Hchi as (cs & st5 & Hcs & Hchi).
    apply self_children_Ok in Hcs as [Hcs ->].
    destruct (initialize_children_spec n st3)
      as (st4' & Hinit' & Hc & He & _ & Hloaded).
    rewrite Hinit' in Hinit. injection Hinit as _ <-.
    destruct HI3 as [Hd3 He3].
    assert (heap_ok st3) as Hok3 by (apply He3, Hok; done).
    rewrite (Hloaded Hok3) in Hcs. injection Hcs as <-.
    assert (I st4' ∧ heap_ok st4') as HI4.
    { split; [split|].
      - intros key. rewrite Hc. apply Hd3.
      - by eapply evolves_trans.
      - by apply He. }
    assert (I st' ∧ heap_ok st') as [[Hd _] _]; [|done].
    revert HI4 Hchi. apply (for_each_keeps (λ s, I s ∧ heap_ok s)).
    intros item s v s' Hitem [[Hd He'] Hs] Hx.
    pose proof (_clear_cache_effect _ _ _ _ _ _ _ _ Hx) as (_ & He'' & _).
    apply IH in Hx; [|done]. split; [split|].
    + eapply deletes_within_trans; [exact Hd|].
      eapply deletes_within_mono; [|exact Hx].
      intros x Hx'. by eapply visited_child.
    + by eapply evolves_trans.
    + by apply He''.
  - unfold pass, mret, M_ret in Hchi. injection Hchi as _ <-. apply HI3.
Qed.

(** A call of [_clear_cache] that returns has found a cache key on every
    node it had to visit and has deleted the entries of these nodes for
    [keys]. *)
Lemma _clear_cache_reaches fuel :
  ∀ n keys parents children st u st',
    (children = true → heap_ok st) →
    _clear_cache fuel n keys parents children st = Ok (u, st') →
    ∀ x, visited parents children n x →
         ∃ ik, get_cachekey x = Some ik ∧
               ∀ k, k ∈ keys → cache st' !! make_key ik k = None.
Proof.
  induction fuel as [|fuel IH]; intros n keys parents children st u st' Hok Hrun x Hx;
    [done|].
  pose proof Hrun as Hwhole. simpl in Hrun.
  apply bind_Ok in Hrun as (ik & st0 & Hkey & Hrun).
  apply call_get_cachekey_Ok in Hkey as [Hkey ->].
  apply bind_Ok in Hrun as (u1 & st1 & Hdel & Hrun).
  apply bind_Ok in Hrun as (u2 & st2 & Hlog & Hrun).
  apply bind_Ok in Hrun as (u3 & st3 & Hpar & Hchi).
  (* the part of the call after the loop over the parents only deletes *)
  assert (Hrest : deletes_only keys st3 st') .
  { destruct children.
    - apply bind_Ok in Hchi as (u4 & st4 & Hinit & Hchi).
      apply bind_Ok in Hchi as (cs & st5 & Hcs & Hchi).
      apply self_children_Ok in Hcs as [_ ->].
      destruct (initialize_children_spec n st3) as (s4 & Hinit' & Hc & _).
      rewrite Hinit' in Hinit. injection Hinit as _ <-.
      assert (deletes_only keys s4 st') as Hd.
      { revert Hchi. apply (for_each_keeps (deletes_only keys s4));
          [|apply deletes_only_refl].
        intros item s v s' _ Hd Hitem.
        apply _clear_cache_effect in Hitem as (Hd' & _).
        by eapply deletes_only_trans. }
      intros key. rewrite <- Hc. apply Hd.
    - unfold pass, mret, M_ret in Hchi. injection Hchi as _ <-.
      apply deletes_only_refl. }
  destruct Hx as [->|[[-> Ha]|[-> Hd]]].
  - exists ik. split; [done|]. intros k Hk.
    apply _clear_cache_effect in Hwhole as (_ & _ & Hn). by apply Hn.
  - apply rtc_inv in Ha as [->|(q & Hq & Ha)].
    { exists ik. split; [done|]. intros k Hk.
      apply _clear_cache_effect in Hwhole as (_ & _ & Hn). by apply Hn. }
    assert (∃ ikx, get_cachekey x = Some ikx ∧
              ∀ k, k ∈ keys → cache st3 !! make_key ikx k = None)
      as (ikx & Hikx & Hgone).
    { revert Hpar.
      apply (for_each_reaches
               (λ s, ∃ ikx, get_cachekey x = Some ikx ∧
                  ∀ k, k ∈ keys → cache s !! make_key ikx k = None) _ _ q);
        [done|].
      intros y s v s' Hy Hbody. split.
      - intros (ikx & Hikx & Hgone). exists ikx. split; [done|].
        intros k Hk. apply _clear_cache_effect in Hbody as (Hd & _).
        eapply deletes_only_None; [exact Hd|]. by apply Hgone.
      - intros ->.
        rewrite bool_decide_eq_true_2 in Hbody
          by (intros Hnil; rewrite Hnil in Hq; by inversion Hq).
        eapply IH; [|exact Hbody|]; [done|]. right. left. done. }
    exists ikx. split; [done|]. intros k Hk.
    eapply deletes_only_None; [exact Hrest|]. by apply Hgone.
  - apply rtc_inv in Hd as [->|(item & Hitem & Hd)].
    { exists ik. split; [done|]. intros k Hk.
      apply _clear_cache_effect in Hwhole as (_ & _ & Hn). by apply Hn. }
    apply bind_Ok in Hchi as (u4 & st4 & Hinit & Hchi).
    apply bind_Ok in Hchi as (cs & st5 & Hcs & Hchi).
    apply self_children_Ok in Hcs as [Hcs ->].
    assert (heap_ok st3) as Hok3.
    { assert (evolves st st3) as (_ & Hh & _); [|by apply Hh, Hok].
      assert (∃ w, (itemkey ← call_get_cachekey n;
               for_each (elements keys)
                 (λ key, cache_delete (make_key itemkey key));;
               (if bool_decide (keys ≠ ∅) then log keys itemkey else pass);;
               (if parents then
                  for_each (get_parents n) (λ p,
                    _clear_cache fuel p keys
                      (bool_decide (get_parents n ≠ [])) false)
                else pass);; (pass : M unit)) st = Ok (w, st3)) as [w Hw].
      { exists tt.
        rewrite (bind_step _ _ st ik st) by by apply call_get_cachekey_Ok.
        run Hdel. run Hlog. run Hpar. done. }
      change (_clear_cache (S fuel) n keys parents false st = Ok (w, st3)) in Hw.
      by apply _clear_cache_effect in Hw as (_ & He & _). }
    destruct (initialize_children_spec n st3)
      as (st4' & Hinit' & Hc & He & _ & Hloaded).
    rewrite Hinit' in Hinit. injection Hinit as _ <-.
    rewrite (Hloaded Hok3) in Hcs. injection Hcs as <-.
    assert (heap_ok st4') as Hok4 by by apply He.
    assert (heap_ok st' ∧
            ∃ ikx, get_cachekey x = Some ikx ∧
              ∀ k, k ∈ keys → cache st' !! make_key ikx k = None)
      as [_ HQ]; [|done].
    eapply (for_each_reaches_inv heap_ok
              (λ s, ∃ ikx, get_cachekey x = Some ikx ∧
                 ∀ k, k ∈ keys → cache s !! make_key ikx k = None) _ _ item
              Hitem); [|exact Hok4|exact Hchi].
    intros y s v s' Hy Hs Hbody.
    pose proof (_clear_cache_effect _ _ _ _ _ _ _ _ Hbody) as (Hd' & He' & _).
    split; [by apply He'|]. split.
    + intros (ikx & Hikx & Hgone). exists ikx. split; [done|].
      intros k Hk. eapply deletes_only_None; [exact Hd'|]. by apply Hgone.
    + intros ->. eapply IH; [|exact Hbody|]; [done|]. right. right. done.
Qed.

(** ** [flag_for_deletion], [clear_flagged_cache], [clear_all_cache] *)

Lemma with_flagged_twice o k k' :
  with_flagged (with_flagged o k) k' = with_flagged o k'.
Proof. done. Qed.

Lemma flag_for_deletion_twice n l1 l2 st :
  (flag_for_deletion n l1;; flag_for_deletion n l2) st
  = Ok (tt, with_heap st
              (<[n := with_flagged (obj_of st n)
                        (_flagged_for_deletion (obj_of st n)
                         ∪ list_to_set l1 ∪ list_to_set l2)]> (heap st))).
Proof.
  run (flag_for_deletion_run n l1 st). rewrite flag_for_deletion_run.
  rewrite obj_of_with_heap_eq. unfold with_heap. simpl.
  rewrite insert_insert_eq. reflexivity.
Qed.

(** X7: flagging accumulates names in a set: flagging [l1] then [l2] is
    flagging [l1 ++ l2], in either order, and flagging the same names twice
    is flagging them once.  Only the pending set of the node changes. *)
Theorem flag_for_deletion_accumulates (n : node) (l1 l2 : list string)
    (st : state) :
  ∃ st',
    flag_for_deletion n (l1 ++ l2) st = Ok (tt, st') ∧
    (flag_for_deletion n l1;; flag_for_deletion n l2) st = Ok (tt, st') ∧
    (flag_for_deletion n l2;; flag_for_deletion n l1) st = Ok (tt, st') ∧
    (flag_for_deletion n (l1 ++ l2);; flag_for_deletion n (l1 ++ l2)) st
    = Ok (tt, st') ∧
    _flagged_for_deletion (obj_of st' n)
    = _flagged_for_deletion (obj_of st n) ∪ list_to_set l1 ∪ list_to_set l2 ∧
    cache st' = cache st ∧ nav st' = nav st ∧ logged st' = logged st ∧
    children (obj_of st' n) = children (obj_of st n) ∧
    initialized (obj_of st' n) = initialized (obj_of st n) ∧
    ∀ x, x ≠ n → obj_of st' x = obj_of st x.
Proof.
  eexists. split; [apply flag_for_deletion_run|].
  assert (Hsets : ∀ F : gset string,
            F ∪ list_to_set (l1 ++ l2) = F ∪ list_to_set l1 ∪ list_to_set l2).
  { intros F. rewrite list_to_set_app_L. apply (assoc_L (∪)). }
  split; [|split; [|split; [|split; [|split; [done|split; [done|
    split; [done|split; [|split]]]]]]]].
  - rewrite flag_for_deletion_twice. by rewrite <- Hsets.
  - rewrite flag_for_deletion_twice.
    replace (_flagged_for_deletion (obj_of st n) ∪ list_to_set l2
             ∪ list_to_set l1)
      with (_flagged_for_deletion (obj_of st n) ∪ list_to_set (l1 ++ l2));
      [done|].
    apply set_eq. intros x.
    rewrite list_to_set_app_L, !elem_of_union. tauto.
  - rewrite flag_for_deletion_twice.
    replace (_flagged_for_deletion (obj_of st n) ∪ list_to_set (l1 ++ l2)
             ∪ list_to_set (l1 ++ l2))
      with (_flagged_for_deletion (obj_of st n) ∪ list_to_set (l1 ++ l2));
      [done|].
    apply set_eq. intros x. rewrite !elem_of_union. tauto.
  - rewrite obj_of_with_heap_eq. simpl. apply Hsets.
  - by rewrite obj_of_with_heap_eq.
  - by rewrite obj_of_with_heap_eq.
  - intros x Hx. by rewrite obj_of_with_heap_ne.
Qed.

(** X1: a call of [clear_flagged_cache] that returns has found a cache key
    on the node, on every ancestor when [parents] is set and on every
    descendant when [children] is set, and has deleted the entries of all
    these nodes for every name that was flagged on the node; nothing is
    flagged on the node any more. *)
Theorem clear_flagged_cache_invalidates (fuel : nat) (n : node)
    (parents children : bool) (st : state) (u : unit) (st' : state) :
  (children = true → heap_ok st) →
  clear_flagged_cache fuel n parents children st = Ok (u, st') →
  _flagged_for_deletion (obj_of st' n) = ∅ ∧
  ∀ x, visited parents children n x →
       ∃ ik, get_cachekey x = Some ik ∧
             ∀ k, k ∈ _flagged_for_deletion (obj_of st n) →
                  cache st' !! make_key ik k = None.
Proof.
  intros Hok Hrun.
  apply clear_flagged_cache_Ok in Hrun as (st1 & Hclear & ->).
  split; [by rewrite obj_of_with_heap_eq|].
  intros x Hx.
  destruct (_clear_cache_reaches _ _ _ _ _ _ _ _ Hok Hclear x Hx)
    as (ik & Hik & Hgone).
  exists ik. split; [done|]. intros k Hk. simpl. by apply Hgone.
Qed.

(** X2: a call of [clear_flagged_cache] never adds or replaces a cache
    entry; an entry it deletes is the entry, for a name flagged on the
    node, of the node itself, of an ancestor (with [parents]) or of a
    descendant (with [children]).  The pending sets of all other nodes,
    including the parents visited, stay as they are. *)
Theorem clear_flagged_cache_frame (fuel : nat) (n : node)
    (parents children : bool) (st : state) (u : unit) (st' : state) :
  (children = true → heap_ok st) →
  clear_flagged_cache fuel n parents children st = Ok (u, st') →
  deletes_within (visited parents children n)
    (_flagged_for_deletion (obj_of st n)) st st' ∧
  (∀ x, x ≠ n → _flagged_for_deletion (obj_of st' x)
                = _flagged_for_deletion (obj_of st x)) ∧
  (heap_ok st → heap_ok st').
Proof.
  intros Hok Hrun.
  apply clear_flagged_cache_Ok in Hrun as (st1 & Hclear & ->).
  pose proof (_clear_cache_effect _ _ _ _ _ _ _ _ Hclear) as (_ & He & _).
  destruct He as (Hflags & Hheap & _).
  split; [|split].
  - intros key. simpl. by eapply _clear_cache_visits.
  - intros x Hx. rewrite obj_of_with_heap_ne by done. apply Hflags.
  - intros Hst. apply heap_ok_set_flagged. by apply Hheap.
Qed.

(** X3: when cache keys are distinct and the names flagged are names of
    cached methods, [clear_flagged_cache] leaves every statistic of every
    node it does not visit as it is: upward invalidation from a node
    spares its siblings and its descendants. *)
Theorem clear_flagged_cache_spares (fuel : nat) (n : node)
    (parents children : bool) (st : state) (u : unit) (st' : state)
    (x : node) (ik : string) (m : CachedMethods) :
  keys_distinct →
  (children = true → heap_ok st) →
  (∀ k, k ∈ _flagged_for_deletion (obj_of st n) → ∃ m', k = method_name m') →
  clear_flagged_cache fuel n parents children st = Ok (u, st') →
  get_cachekey x = Some ik →
  ¬ visited parents children n x →
  cache st' !! make_key ik (method_name m)
  = cache st !! make_key ik (method_name m).
Proof.
  intros Hdist Hok Hnames Hrun Hik Hx.
  apply clear_flagged_cache_Ok in Hrun as (st1 & Hclear & ->). simpl.
  destruct (_clear_cache_visits _ _ _ _ _ _ _ _ Hok Hclear
              (make_key ik (method_name m)))
    as [?|[_ (y & iky & k & Hy & Hiky & Hk & Hkey)]]; [done|].
  destruct (Hnames k Hk) as [m' ->].
  destruct (Hdist x y ik iky m m' Hik Hiky Hkey) as [-> _]. done.
Qed.

Lemma flag_then_clear fuel n (args : list string) parents children st u st' :
  (flag_for_deletion n args;; clear_flagged_cache fuel n parents children) st
  = Ok (u, st') →
  ∃ st1,
    clear_flagged_cache fuel n parents children st1 = Ok (u, st') ∧
    _flagged_for_deletion (obj_of st1 n)
    = _flagged_for_deletion (obj_of st n) ∪ list_to_set args ∧
    cache st1 = cache st ∧ (heap_ok st → heap_ok st1).
Proof.
  intros Hrun. apply bind_Ok in Hrun as (u1 & st1 & Hflag & Hrun).
  rewrite flag_for_deletion_run in Hflag. injection Hflag as _ <-.
  eexists. split; [exact Hrun|]. split; [|split; [done|]].
  - by rewrite obj_of_with_heap_eq.
  - apply heap_ok_set_flagged.
Qed.

(** X4: a call of [clear_all_cache] that returns has deleted the entry of
    every cached method on the node, on every ancestor when [parents] is
    set and on every descendant when [children] is set (both by default),
    and has left nothing flagged on the node. *)
Theorem clear_all_cache_clears (fuel : nat) (n : node)
    (children parents : bool) (st : state) (u : unit) (st' : state) :
  (children = true → heap_ok st) →
  clear_all_cache fuel n children parents st = Ok (u, st') →
  _flagged_for_deletion (obj_of st' n) = ∅ ∧
  ∀ x, visited parents children n x →
       ∃ ik, get_cachekey x = Some ik ∧
             ∀ m, cache st' !! make_key ik (method_name m) = None.
Proof.
  intros Hok Hrun. apply flag_then_clear in Hrun
    as (st1 & Hrun & Hflags & _ & Hheap).
  apply clear_flagged_cache_Ok in Hrun as (st2 & Hclear & ->).
  split; [by rewrite obj_of_with_heap_eq|]. intros x Hx.
  destruct (_clear_cache_reaches _ _ _ _ _ _ _ _
              (λ Hc, Hheap (Hok Hc)) Hclear x Hx) as (ik & Hik & Hk).
  exists ik. split; [done|]. intros m. simpl. apply Hk. rewrite Hflags.
  apply elem_of_union_r, elem_of_list_to_set, method_name_in_get_all.
Qed.

(** X5: upward invalidation restores the coherence of the cache.  When
    every entry that differs from the value recomputed from scratch
    belongs to the node or to one of its ancestors (as after a change of
    the node's raw data), then after
    [clear_all_cache(parents=True, children=False)] every entry left in
    the cache is the value recomputed from scratch, and on a well-founded
    graph with distinct keys the next read of any statistic on any node
    returns the value recomputed from scratch. *)
Theorem clear_all_cache_restores_coherence (height : node → nat)
    (fuel : nat) (n : node) (st : state) (u : unit) (st' : state) :
  (∀ d ik m v, get_cachekey d = Some ik →
     cache st !! make_key ik (method_name m) = Some v →
     v = from_scratch height m d ∨ ancestor n d) →
  clear_all_cache fuel n false true st = Ok (u, st') →
  coherent height (λ _, True) st' ∧
  (children_wf height → keys_implemented → keys_distinct → heap_ok st →
   ∀ x name f, height x < f →
     ∃ st'', getattr f name x st' = Ok (from_scratch height name x, st'')).
Proof.
  intros Hstale Hrun.
  pose proof (clear_all_cache_effect _ _ _ _ _ Hrun)
    as ((keys & Hd) & Hheap & Hgone & _).
  assert (Hcoh : coherent height (λ _, True) st').
  { intros d ik m v _ Hik Hv.
    destruct (Hd (make_key ik (method_name m))) as [Heq|[Hnone _]];
      [|congruence].
    rewrite Heq in Hv. destruct (Hstale d ik m v Hik Hv) as [?|Ha]; [done|].
    rewrite (Hgone d ik m Ha Hik) in Heq. congruence. }
  split; [done|]. intros Hcwf Himpl Hdist Hok x name f Hf.
  destruct (getattr_coherent height Hcwf Himpl Hdist f name x st')
    as (st'' & Hread & _); [done|by apply Hheap| |by exists st''].
  intros d ik m v _. by apply Hcoh.
Qed.

(** X6: on a well-founded graph where every node has a cache key,
    [clear_flagged_cache] returns whatever is flagged and whichever
    directions are chosen, given fuel beyond the depth and the height of
    the node; so does [clear_all_cache]. *)
Theorem clear_flagged_cache_returns (height depth : node → nat)
    (fuel : nat) (n : node) (parents children : bool) (st : state) :
  children_wf height → parents_wf depth → keys_implemented → heap_ok st →
  depth n < fuel → height n < fuel →
  (∃ st', clear_flagged_cache fuel n parents children st = Ok (tt, st')) ∧
  (∃ st', clear_all_cache fuel n children parents st = Ok (tt, st')).
Proof.
  intros Hcwf Hpwf Himpl Hok Hd Hh.
  assert (Hret : ∀ s, heap_ok s →
            ∃ s', clear_flagged_cache fuel n parents children s = Ok (tt, s')).
  { intros s Hs.
    destruct (_clear_cache_returns height depth Hcwf Hpwf Himpl fuel n
                (_flagged_for_deletion (obj_of s n)) parents children s)
      as (s1 & Hclear & _); [lia|done|done|done|].
    eexists. apply clear_flagged_cache_Ok. by exists s1. }
  split; [by apply Hret|].
  unfold clear_all_cache. run (flag_for_deletion_run n get_all st).
  apply Hret. by apply heap_ok_set_flagged.
Qed.

End Invalidation.

Section Reading.
Context `{Impl : TreeItemImpl}.

(** ** The cached methods *)

Lemma getattr_caches fuel name n st v st' :
  getattr fuel name n st = Ok (v, st') →
  ∃ ik, get_cachekey n = Some ik ∧
        cache st' !! make_key ik (method_name name) = Some v.
Proof.
  destruct fuel as [|fuel]; [done|]. rewrite getattr_unfold.
  unfold getfromcache. intros Hrun.
  apply bind_Ok in Hrun as (ik & st0 & Hkey & Hrun).
  apply call_get_cachekey_Ok in Hkey as [Hik ->].
  apply bind_Ok in Hrun as (r & st0 & Hget & Hrun).
  injection Hget as <- <-. exists ik. split; [done|].
  destruct (cache st !! make_key ik (method_name name)) eqn:Hentry.
  - injection Hrun as <- <-. done.
  - apply bind_Ok in Hrun as (v' & st1 & Hbody & Hrun).
    apply bind_Ok in Hrun as (w & st2 & Hset & Hret).
    injection Hset as _ <-. injection Hret as <- <-.
    simpl. by rewrite lookup_insert_eq.
Qed.

(** X8: a cached method called again right after it has returned returns
    the same value and leaves the state exactly as it is: the second call
    is served from the cache, with no call to [get_children] and no
    write. *)
Theorem cached_method_memoised (fuel : nat) (name : CachedMethods)
    (n : node) (st : state) (v : value) (st' : state) :
  getattr fuel name n st = Ok (v, st') →
  ∀ fuel', getattr (S fuel') name n st' = Ok (v, st').
Proof.
  intros Hrun fuel'. apply getattr_caches in Hrun as (ik & Hik & Hentry).
  rewrite getattr_unfold. by eapply getfromcache_hit.
Qed.

(** X9: a cached method that returns has deleted or replaced no cache
    entry, of any node and any statistic, has changed no pending set, and
    has kept the memoised children in agreement with the navigator. *)
Theorem cached_method_quiet (fuel : nat) (name : CachedMethods) (n : node)
    (st : state) (v : value) (st' : state) :
  getattr fuel name n st = Ok (v, st') →
  keeps_entries st st' ∧
  (∀ x, _flagged_for_deletion (obj_of st' x)
        = _flagged_for_deletion (obj_of st x)) ∧
  (heap_ok st → heap_ok st').
Proof.
  intros Hrun. apply quiet_getattr in Hrun as [(Hflags & Hheap & _) Hkeeps].
  done.
Qed.

(** X10: on a well-founded graph with distinct cache keys, a cached method
    called on a cache whose entries for the node and its descendants are
    the values recomputed from scratch returns the value recomputed from
    scratch, caches it, and keeps every part of the cache that was
    coherent coherent. *)
Theorem cached_method_from_scratch (height : node → nat) (fuel : nat)
    (name : CachedMethods) (n : node) (st : state) :
  children_wf height → keys_implemented → keys_distinct →
  height n < fuel → heap_ok st → coherent height (descendant n) st →
  ∃ st', getattr fuel name n st = Ok (from_scratch height name n, st') ∧
         (∀ ik, get_cachekey n = Some ik →
                cache st' !! make_key ik (method_name name)
                = Some (from_scratch height name n)) ∧
         (∀ P, coherent height P st → coherent height P st') ∧
         keeps_entries st st'.
Proof.
  intros Hcwf Himpl Hdist Hfuel Hok Hcoh.
  destruct (getattr_coherent height Hcwf Himpl Hdist fuel name n st)
    as (st' & Hrun & _ & Hfill & Hentry); [done..|].
  exists st'. split; [done|]. split; [done|]. split.
  - intros P HP. eapply coherent_refreshes; [done|exact HP|].
    by apply fills_in_refreshes.
  - by apply quiet_getattr in Hrun as [_ ?].
Qed.

(** X11: each of the four counting methods ([get_total_wordcount],
    [get_translated_wordcount], [get_fuzzy_wordcount],
    [get_suggestion_count]) returns the raw count of its own provider plus
    the sum of what the same method returns on the children, when the
    cache holds no entry for the node (or holds that sum). *)
Theorem count_methods_sum (name : CachedMethods) (raw : node → Z)
    (fuel : nat) (n : node) (ik : string) (st st1 : state)
    (cs : list node) (zs : list Z) (st2 : state) :
  let entry := make_key ik (method_name name) in
  raw_count name = Some raw →
  get_cachekey n = Some ik →
  cache st !! entry = None ∨
  cache st !! entry = Some (VInt (raw n + sum_list zs)) →
  initialize_children n st = Ok (tt, st1) →
  self_children n st1 = Ok (cs, st1) →
  comprehension (getattr fuel name) cs st1 = Ok (VInt <$> zs, st2) →
  ∃ st', getattr (S fuel) name n st = Ok (VInt (raw n + sum_list zs), st') ∧
         cache st' !! entry = Some (VInt (raw n + sum_list zs)).
Proof.
  intros entry Hraw Hik Hentry Hinit Hcs Hvs.
  eapply getattr_returns; [done|done|].
  destruct name; simpl in Hraw; try discriminate; injection Hraw as <-;
    simpl; by eapply count_body_run.
Qed.

Lemma sum_from_not_ints acc vs :
  forallb is_int vs = false → sum_from (VInt acc) vs = Raise TypeError.
Proof.
  revert acc. induction vs as [|v vs IH]; intros acc Hvs; [done|].
  simpl in *. destruct v; simpl in *; try done.
  unfold mbind, res_bind. by apply IH.
Qed.

(** X12: a counting method whose cache entry is absent raises [TypeError]
    as soon as one of its children returns something that is not an
    integer (a value of another type left under the child's key): the
    wrong value is not absorbed into the sum. *)
Theorem count_methods_type_error (name : CachedMethods) (raw : node → Z)
    (fuel : nat) (n : node) (ik : string) (st st1 : state)
    (cs : list node) (vs : list value) (st2 : state) :
  raw_count name = Some raw →
  get_cachekey n = Some ik →
  cache st !! make_key ik (method_name name) = None →
  initialize_children n st = Ok (tt, st1) →
  self_children n st1 = Ok (cs, st1) →
  comprehension (getattr fuel name) cs st1 = Ok (vs, st2) →
  forallb is_int vs = false →
  getattr (S fuel) name n st = Raise TypeError.
Proof.
  intros Hraw Hik Hmiss Hinit Hcs Hvs Hbad.
  assert (Hbody : ∀ r, count_body r name (getattr fuel) n st = Raise TypeError).
  { intros r. unfold count_body, _sum. run Hinit.
    unfold mbind at 1, M_bind at 1.
    unfold mbind at 1, M_bind at 1. rewrite Hcs.
    unfold mbind at 1, M_bind at 1. rewrite Hvs.
    unfold py_sum. by rewrite sum_from_not_ints. }
  rewrite getattr_unfold. unfold getfromcache.
  rewrite (bind_step _ _ st ik st) by by apply call_get_cachekey_Ok.
  unfold mbind at 1, M_bind at 1, cache_get. rewrite Hmiss.
  unfold mbind at 1, M_bind at 1.
  destruct name; simpl in Hraw; try discriminate; simpl;
    unfold statslog; by rewrite Hbody.
Qed.

Lemma first_max_greatest {A} (key : A → Z) best (l : list A) :
  first_max key best l ∈ best :: l ∧
  ∀ x, x ∈ best :: l → (key x ≤ key (first_max key best l))%Z.
Proof.
  destruct (first_max_spec key best l) as (l1 & l2 & Heq & H1 & H2).
  rewrite Heq. split.
  - apply elem_of_app. right. by left.
  - intros x Hx. apply elem_of_app in Hx as [Hx|Hx].
    + specialize (H1 x Hx). lia.
    + apply elem_of_cons in Hx as [->|Hx]; [lia|]. by apply H2.
Qed.

(** X13: [get_mtime] returns the greatest of the node's own modification
    time and of the times that [get_mtime] returns on the children, when
    the cache holds no entry for the node (or holds that time). *)
Theorem get_mtime_max (fuel : nat) (n : node) (ik : string)
    (st st1 : state) (cs : list node) (ts : list Z) (st2 : state) :
  let r := first_max (λ t, t) (_get_mtime n) ts in
  let entry := make_key ik (method_name MTIME) in
  get_cachekey n = Some ik →
  cache st !! entry = None ∨ cache st !! entry = Some (VTime r) →
  initialize_children n st = Ok (tt, st1) →
  self_children n st1 = Ok (cs, st1) →
  comprehension (get_mtime fuel) cs st1 = Ok (VTime <$> ts, st2) →
  (∃ st', get_mtime (S fuel) n st = Ok (VTime r, st') ∧
          cache st' !! entry = Some (VTime r)) ∧
  r ∈ _get_mtime n :: ts ∧
  ∀ t, t ∈ _get_mtime n :: ts → (t ≤ r)%Z.
Proof.
  intros r entry Hik Hentry Hinit Hcs Hvs. split.
  - eapply getattr_returns; [done|done|].
    simpl. unfold mtime_body.
    by eapply (max_body_run VTime time_key (λ t, t) _get_mtime).
  - apply (first_max_greatest (λ t : Z, t)).
Qed.

(** X14: [get_last_updated] returns the first record, in the order own
    raw record then the records returned on the children, whose key is
    greatest, the key being [creation_time] and 0 for a record without
    [creation_time]; this when the cache holds no entry for the node (or
    holds the result already). *)
Theorem get_last_updated_max (fuel : nat) (n : node) (ik : string)
    (st st1 : state) (cs : list node) (ups : list updated) (st2 : state) :
  let key := λ u : updated, default 0%Z (creation_time u) in
  let own := _get_last_updated n in
  let r := first_max key own ups in
  let entry := make_key ik (method_name LAST_UPDATED) in
  get_cachekey n = Some ik →
  cache st !! entry = None ∨ cache st !! entry = Some (VUpdated r) →
  initialize_children n st = Ok (tt, st1) →
  self_children n st1 = Ok (cs, st1) →
  comprehension (get_last_updated fuel) cs st1 = Ok (VUpdated <$> ups, st2) →
  (∃ st', get_last_updated (S fuel) n st = Ok (VUpdated r, st') ∧
          cache st' !! entry = Some (VUpdated r)) ∧
  ∃ before after,
    own :: ups = before ++ r :: after ∧
    (∀ x, x ∈ before → (key x < key r)%Z) ∧
    (∀ x, x ∈ after → (key x ≤ key r)%Z).
Proof.
  intros key own r entry Hik Hentry Hinit Hcs Hvs. split.
  - eapply getattr_returns; [done|done|].
    simpl. unfold last_updated_body.
    by eapply (max_body_run VUpdated creation_time_key key _get_last_updated).
  - apply first_max_spec.
Qed.

(** The greatest raw value below a node: the value that [max_of] computes
    is the raw value of some descendant, and no descendant has a greater
    key. *)
Lemma max_of_height {A} (raw : node → A) (key : A → Z) (height : node → nat)
    n :
  children_wf height →
  max_of raw key (height n) n
  = first_max key (raw n)
      ((λ c, max_of raw key (height c) c) <$> get_children n).
Proof.
  intros Hcwf.
  exact (aggregate_height (λ n l, first_max key (raw n) l) height n Hcwf).
Qed.

Lemma max_of_latest {A} (raw : node → A) (key : A → Z) (height : node → nat) :
  children_wf height →
  ∀ h n, height n ≤ h →
    (∃ d, descendant n d ∧ max_of raw key (height n) n = raw d) ∧
    ∀ d, descendant n d →
         (key (raw d) ≤ key (max_of raw key (height n) n))%Z.
Proof.
  intros Hcwf. induction h as [|h IH]; intros n Hh.
  - rewrite (max_of_height raw key height n Hcwf).
    rewrite (children_of_height_0 height n Hcwf) by lia. simpl. split.
    + exists n. split; [apply rtc_refl|done].
    + intros d Hd. apply rtc_inv in Hd as [->|(c & Hc & _)]; [done|].
      apply Hcwf in Hc. lia.
  - rewrite (max_of_height raw key height n Hcwf).
    set (l := (λ c, max_of raw key (height c) c) <$> get_children n).
    destruct (first_max_greatest key (raw n) l) as [Hin Hmax].
    assert (Hchild : ∀ c, c ∈ get_children n → height c ≤ h).
    { intros c Hc. apply Hcwf in Hc. lia. }
    split.
    + apply elem_of_cons in Hin as [Heq|Hin].
      * exists n. split; [apply rtc_refl|done].
      * apply list_elem_of_fmap in Hin as (c & Heq & Hc).
        destruct (IH c (Hchild c Hc)) as [(d & Hd & Heq') _].
        exists d. split; [by eapply rtc_l|]. by rewrite Heq, Heq'.
    + intros d Hd. apply rtc_inv in Hd as [->|(c & Hc & Hd)].
      * apply Hmax. by left.
      * destruct (IH c (Hchild c Hc)) as [_ Hle].
        etransitivity; [by apply Hle|]. apply Hmax. right.
        unfold l. apply list_elem_of_fmap. by exists c.
Qed.

(** X15: on a well-founded graph with distinct cache keys and a cache
    coherent below the node (an empty cache, say), [get_mtime] returns the
    latest of the raw modification times of the node and of all its
    descendants: the raw time of some descendant, which no descendant
    exceeds. *)
Theorem get_mtime_latest (height : node → nat) (fuel : nat) (n : node)
    (st : state) :
  children_wf height → keys_implemented → keys_distinct →
  height n < fuel → heap_ok st → coherent height (descendant n) st →
  ∃ st' d,
    get_mtime fuel n st = Ok (VTime (_get_mtime d), st') ∧
    descendant n d ∧
    ∀ d', descendant n d' → (_get_mtime d' ≤ _get_mtime d)%Z.
Proof.
  intros Hcwf Himpl Hdist Hfuel Hok Hcoh.
  destruct (getattr_coherent height Hcwf Himpl Hdist fuel MTIME n st)
    as (st' & Hrun & _); [done..|].
  destruct (max_of_latest _get_mtime (λ t, t) height Hcwf (height n) n)
    as [(d & Hd & Heq) Hle]; [done|].
  exists st', d. split; [|split; [done|]].
  - unfold get_mtime. rewrite Hrun. unfold from_scratch. simpl.
    by rewrite Heq.
  - intros d' Hd'. rewrite <- Heq. by apply Hle.
Qed.

(** X16: [get_error_unit_count] returns the [unit_count] of what
    [get_checks] returns: the node's raw [unit_count] plus the
    [unit_count] of the records that [get_checks] returns on the children,
    when the cache holds no [get_checks] entry for the node (or holds the
    result already). *)
Theorem get_error_unit_count_sum (fuel : nat) (n : node) (ik : string)
    (st st1 : state) (cs : list node) (rs : list checks_stat) (st2 : state) :
  let own := _get_checks n in
  let r := foldl add_checks own rs in
  let entry := make_key ik (method_name CHECKS) in
  get_cachekey n = Some ik →
  cache st !! entry = None ∨ cache st !! entry = Some (VChecks r) →
  initialize_children n st = Ok (tt, st1) →
  self_children n st1 = Ok (cs, st1) →
  comprehension (get_checks fuel) cs st1 = Ok (VChecks <$> rs, st2) →
  ∃ st', get_error_unit_count (S fuel) n st
         = Ok (VInt (unit_count own + sum_list (unit_count <$> rs)), st') ∧
         cache st' !! entry = Some (VChecks r).
Proof.
  intros own r entry Hik Hentry Hinit Hcs Hvs.
  assert (∃ st', get_checks (S fuel) n st = Ok (VChecks r, st') ∧
                 cache st' !! entry = Some (VChecks r))
    as (st' & Hrun & Hcached).
  { eapply getattr_returns; [done|done|].
    simpl. by eapply checks_body_run. }
  exists st'. split; [|done]. unfold get_error_unit_count. run Hrun.
  simpl. unfold mbind, M_bind, lift, mret, M_ret. simpl. do 3 f_equal.
  apply foldl_add_checks_unit_count.
Qed.

(** X23: on a well-founded graph with distinct cache keys and a cache
    coherent below the node, [get_last_action] returns the raw
    [last_action] of the node or of one of its descendants, and no raw
    [last_action] among them has a greater [mtime], a record without
    [mtime] counting as 0. *)
Theorem get_last_action_latest (height : node → nat) (fuel : nat) (n : node)
    (st : state) :
  let key := λ a : action, default 0%Z (mtime a) in
  children_wf height → keys_implemented → keys_distinct →
  height n < fuel → heap_ok st → coherent height (descendant n) st →
  ∃ st' d,
    get_last_action fuel n st = Ok (VAction (_get_last_action d), st') ∧
    descendant n d ∧
    ∀ d', descendant n d' →
          (key (_get_last_action d') ≤ key (_get_last_action d))%Z.
Proof.
  intros key Hcwf Himpl Hdist Hfuel Hok Hcoh.
  destruct (getattr_coherent height Hcwf Himpl Hdist fuel LAST_ACTION n st)
    as (st' & Hrun & _); [done..|].
  destruct (max_of_latest _get_last_action key height Hcwf (height n) n)
    as [(d & Hd & Heq) Hle]; [done|].
  exists st', d. split; [|split; [done|]].
  - unfold get_last_action. rewrite Hrun. unfold from_scratch. simpl.
    fold key. by rewrite Heq.
  - intros d' Hd'. rewrite <- Heq. by apply Hle.
Qed.

(** X24: in the same situation [get_last_updated] returns the raw
    [last_updated] of the node or of one of its descendants, and no raw
    [last_updated] among them has a greater [creation_time], a record
    without [creation_time] counting as 0. *)
Theorem get_last_updated_latest (height : node → nat) (fuel : nat)
    (n : node) (st : state) :
  let key := λ u : updated, default 0%Z (creation_time u) in
  children_wf height → keys_implemented → keys_distinct →
  height n < fuel → heap_ok st → coherent height (descendant n) st →
  ∃ st' d,
    get_last_updated fuel n st = Ok (VUpdated (_get_last_updated d), st') ∧
    descendant n d ∧
    ∀ d', descendant n d' →
          (key (_get_last_updated d') ≤ key (_get_last_updated d))%Z.
Proof.
  intros key Hcwf Himpl Hdist Hfuel Hok Hcoh.
  destruct (getattr_coherent height Hcwf Himpl Hdist fuel LAST_UPDATED n st)
    as (st' & Hrun & _); [done..|].
  destruct (max_of_latest _get_last_updated key height Hcwf (height n) n)
    as [(d & Hd & Heq) Hle]; [done|].
  exists st', d. split; [|split; [done|]].
  - unfold get_last_updated. rewrite Hrun. unfold from_scratch. simpl.
    fold key. by rewrite Heq.
  - intros d' Hd'. rewrite <- Heq. by apply Hle.
Qed.

Lemma count_of_height (raw : node → Z) (height : node → nat) n :
  children_wf height →
  count_of raw (height n) n
  = (raw n + sum_list ((λ c, count_of raw (height c) c) <$> get_children n))%Z.
Proof.
  intros Hcwf.
  exact (aggregate_height (λ n l, raw n + sum_list l)%Z height n Hcwf).
Qed.

Lemma sum_list_fmap_le {A} (f g : A → Z) (l : list A) :
  (∀ x, x ∈ l → (0 ≤ f x ≤ g x)%Z) →
  (0 ≤ sum_list (f <$> l) ≤ sum_list (g <$> l))%Z.
Proof.
  induction l as [|x l IH]; intros H; [done|].
  rewrite !fmap_cons, !sum_list_cons.
  assert (0 ≤ f x ≤ g x)%Z by (apply H; by left).
  assert (0 ≤ sum_list (f <$> l) ≤ sum_list (g <$> l))%Z
    by (apply IH; intros y Hy; apply H; by right).
  lia.
Qed.

Lemma count_of_le (raw1 raw2 : node → Z) (height : node → nat) :
  children_wf height →
  ∀ h n, height n ≤ h →
    (∀ d, descendant n d → (0 ≤ raw1 d ≤ raw2 d)%Z) →
    (0 ≤ count_of raw1 (height n) n ≤ count_of raw2 (height n) n)%Z.
Proof.
  intros Hcwf. induction h as [|h IH]; intros n Hh Hraw;
    rewrite !(count_of_height _ height n Hcwf);
    assert (0 ≤ raw1 n ≤ raw2 n)%Z by apply Hraw, rtc_refl.
  - rewrite (children_of_height_0 height n Hcwf) by lia. simpl.
    unfold sum_list. simpl. lia.
  - pose proof (sum_list_fmap_le
        (λ c, count_of raw1 (height c) c) (λ c, count_of raw2 (height c) c)
        (get_children n)) as Hsum.
    assert (0 ≤ sum_list ((λ c, count_of raw1 (height c) c) <$> get_children n)
            ≤ sum_list ((λ c, count_of raw2 (height c) c) <$> get_children n))%Z.
    { apply Hsum. intros c Hc. apply IH.
      - apply Hcwf in Hc. lia.
      - intros d Hd. apply Hraw. by eapply rtc_l. }
    lia.
Qed.

(** X25: on a well-founded graph with distinct cache keys and a cache
    coherent below the node, two counting methods whose raw providers are
    ordered on the node and its descendants, the smaller one never
    negative, return ordered results: with raw translated counts between 0
    and the raw totals, [get_translated_wordcount] lies between 0 and
    [get_total_wordcount]. *)
Theorem count_methods_ordered (height : node → nat) (fuel : nat)
    (name1 name2 : CachedMethods) (raw1 raw2 : node → Z) (n : node)
    (st : state) :
  children_wf height → keys_implemented → keys_distinct →
  height n < fuel → heap_ok st → coherent height (descendant n) st →
  raw_count name1 = Some raw1 → raw_count name2 = Some raw2 →
  (∀ d, descendant n d → (0 ≤ raw1 d ≤ raw2 d)%Z) →
  ∃ z1 z2 st1 st2,
    getattr fuel name1 n st = Ok (VInt z1, st1) ∧
    getattr fuel name2 n st1 = Ok (VInt z2, st2) ∧
    (0 ≤ z1 ≤ z2)%Z.
Proof.
  intros Hcwf Himpl Hdist Hfuel Hok Hcoh Hraw1 Hraw2 Hle.
  destruct (getattr_coherent height Hcwf Himpl Hdist fuel name1 n st)
    as (st1 & Hrun1 & (_ & Hok1 & _) & Hfill & _); [done..|].
  destruct (getattr_coherent height Hcwf Himpl Hdist fuel name2 n st1)
    as (st2 & Hrun2 & _); [done|by apply Hok1| |].
  { eapply coherent_refreshes; [done|exact Hcoh|].
    by apply fills_in_refreshes. }
  assert (Hfrom : ∀ name raw, raw_count name = Some raw →
    from_scratch height name n = VInt (count_of raw (height n) n)).
  { intros name raw Hraw.
    destruct name; simpl in Hraw; try discriminate; by injection Hraw as <-. }
  rewrite (Hfrom _ _ Hraw1) in Hrun1. rewrite (Hfrom _ _ Hraw2) in Hrun2.
  do 4 eexists. split; [exact Hrun1|]. split; [exact Hrun2|].
  by apply (count_of_le raw1 raw2 height Hcwf (height n)).
Qed.

(** ** [refresh_stats] *)

(** X19: on a well-founded graph with distinct cache keys,
    [refresh_stats(include_children=True)] returns and leaves every entry
    that the cache holds for the node or for any of its descendants equal
    to the value recomputed from scratch, whatever the cache held before;
    and no part of the cache that was coherent is made incoherent. *)
Theorem refresh_stats_coherent_subtree (height depth : node → nat)
    (D fuel : nat) (n : node) (st : state) :
  children_wf height → parents_wf depth → (∀ x, depth x ≤ D) →
  keys_implemented → keys_distinct → heap_ok st →
  height n + D < fuel →
  ∃ st', refresh_stats fuel n true st = Ok (tt, st') ∧
         coherent height (descendant n) st' ∧
         (∀ P, coherent height P st → coherent height P st') ∧
         heap_ok st'.
Proof.
  intros Hcwf Hpwf Hdepth Himpl Hdist Hok Hfuel.
  destruct (refresh_stats_coherent height depth D Hcwf Hpwf Hdepth Himpl Hdist
              fuel n st Hfuel Hok)
    as (st1 & st2 & st' & Hrun & _ & _ & _ & Hok' & Href & Hcoh & _).
  exists st'. split; [done|]. split; [done|]. split; [|done].
  intros P HP. by eapply coherent_refreshes.
Qed.

(** X20: without [include_children], on a cache coherent below the node,
    [refresh_stats] deletes nothing and leaves each of the eight
    statistics of the node cached with the value recomputed from
    scratch: it only warms the cache. *)
Theorem refresh_stats_warms (height : node → nat) (fuel : nat) (n : node)
    (st : state) :
  children_wf height → keys_implemented → keys_distinct →
  height n < fuel → heap_ok st → coherent height (descendant n) st →
  ∃ st', refresh_stats fuel n false st = Ok (tt, st') ∧
         keeps_entries st st' ∧
         ∀ name ik, get_cachekey n = Some ik →
                    cache st' !! make_key ik (method_name name)
                    = Some (from_scratch height name n).
Proof.
  intros Hcwf Himpl Hdist Hfuel Hok Hcoh.
  destruct fuel as [|fuel]; [lia|].
  destruct (initialize_children_spec n st) as (st0 & Hinit & Hc & He & _).
  destruct (read_all_coherent height Hcwf Himpl Hdist (S fuel) n st0)
    as (st' & Hread & _ & _ & Hentries).
  - done.
  - by apply He.
  - intros d ik m v. rewrite Hc. apply Hcoh.
  - assert (Hrun : refresh_stats (S fuel) n false st = Ok (tt, st')).
    { simpl. run Hinit. unfold pass. simpl.
      unfold mbind at 1, M_bind at 1, mret, M_ret. exact Hread. }
    exists st'. split; [done|]. split; [|done].
    by eapply refresh_stats_without_children_keeps.
Qed.

End Reading.

Section Writing.
Context `{Impl : TreeItemImpl}.

(** ** [set_last_action] on a whole chain of ancestors *)

Lemma ancestor_parent n p x : p ∈ get_parents n → ancestor p x → ancestor n x.
Proof. intros Hp Hx. by eapply rtc_l. Qed.

Lemma above_parent n p x : p ∈ get_parents n → above p x → above n x.
Proof.
  intros Hp (q & Hq & Hx). exists p. split; [done|].
  by eapply ancestor_parent.
Qed.

Lemma ancestor_depth depth n x :
  parents_wf depth → ancestor n x → depth x ≤ depth n.
Proof.
  intros Hpwf Hx. induction Hx as [|x y z Hy _ IH]; [done|].
  apply Hpwf in Hy. lia.
Qed.

Lemma above_depth depth n x : parents_wf depth → above n x → depth x < depth n.
Proof.
  intros Hpwf (p & Hp & Hx). apply (ancestor_depth depth) in Hx; [|done].
  apply Hpwf in Hp. lia.
Qed.

(** A call that returns has changed only [get_last_action] entries of the
    node and of its ancestors, each of them to the action. *)
Lemma set_last_action_within fuel :
  ∀ n a st u st',
    set_last_action fuel n a st = Ok (u, st') →
    ∀ key,
      cache st' !! key = cache st !! key ∨
      (cache st' !! key = Some (VAction a) ∧
       ∃ x kx, ancestor n x ∧ get_cachekey x = Some kx ∧
               key = make_key kx "get_last_action").
Proof.
  induction fuel as [|fuel IH]; intros n a st u st' Hrun; [done|].
  simpl in Hrun. apply bind_Ok in Hrun as (u1 & st1 & Hset & Hloop).
  apply set_cached_value_Ok in Hset as (ik & Hik & ->).
  revert Hloop. apply (for_each_keeps (λ s, ∀ key,
    cache s !! key = cache st !! key ∨
    (cache s !! key = Some (VAction a) ∧
     ∃ x kx, ancestor n x ∧ get_cachekey x = Some kx ∧
             key = make_key kx "get_last_action"))).
  - intros p s v s' Hp HI Hbody key.
    apply set_last_action_body_Ok in Hbody as (kp & b & Hkp & Hb & Hrun).
    destruct b; [|by subst].
    destruct (IH _ _ _ _ _ Hrun key) as [->|[Ha (x & kx & Hx & Hkx & ->)]];
      [by apply HI|].
    right. split; [done|]. exists x, kx. split; [|done].
    by eapply ancestor_parent.
  - intros key. simpl.
    destruct (decide (key = make_key ik "get_last_action")) as [->|Hne].
    + right. rewrite lookup_insert_eq. split; [done|].
      exists n, ik. split; [apply rtc_refl|done].
    + left. by rewrite lookup_insert_ne.
Qed.

(** X21: a call of [set_last_action] that returns has changed nothing but
    [get_last_action] entries of the node and of its ancestors, each of
    them now the action: the memoised children, the pending sets, the
    record of navigator calls and the log are as before, and, cache keys
    being distinct, the entries of every other statistic and of every node
    that is not an ancestor are as before. *)
Theorem set_last_action_frame (fuel : nat) (n : node) (a : action)
    (st : state) (u : unit) (st' : state) :
  set_last_action fuel n a st = Ok (u, st') →
  heap st' = heap st ∧ nav st' = nav st ∧ logged st' = logged st ∧
  (∀ key, cache st' !! key ≠ cache st !! key →
     cache st' !! key = Some (VAction a) ∧
     ∃ x kx, ancestor n x ∧ get_cachekey x = Some kx ∧
             key = make_key kx "get_last_action") ∧
  (keys_distinct →
   ∀ x kx m, get_cachekey x = Some kx →
     ¬ ancestor n x ∨ m ≠ LAST_ACTION →
     cache st' !! make_key kx (method_name m)
     = cache st !! make_key kx (method_name m)).
Proof.
  intros Hrun.
  pose proof (set_last_action_within _ _ _ _ _ _ Hrun) as Hwithin.
  apply set_last_action_effect in Hrun as (_ & _ & _ & _ & Hh & Hn & Hl).
  split; [done|]. split; [done|]. split; [done|]. split.
  - intros key Hne. by destruct (Hwithin key) as [?|?].
  - intros Hdist x kx m Hkx Hout.
    destruct (Hwithin (make_key kx (method_name m)))
      as [?|[_ (y & ky & Hy & Hky & Heq)]]; [done|].
    destruct (Hdist x y kx ky m LAST_ACTION Hkx Hky Heq) as [-> ->].
    by destruct Hout.
Qed.

Lemma parent_is_older_lt b a m ma :
  mtime b = Some m → mtime a = Some ma → (m < ma)%Z →
  parent_is_older (Some (VAction b)) a = Ok true.
Proof.
  intros Hb Ha Hlt. unfold parent_is_older. simpl. rewrite Hb, Ha. simpl.
  rewrite orb_true_r. simpl. unfold mbind, res_bind.
  by apply Z.ltb_lt in Hlt as ->.
Qed.

Lemma closed_at_keeps a s s' x :
  (∀ key, cache s' !! key = cache s !! key ∨
          cache s' !! key = Some (VAction a)) →
  closed_at a s x → closed_at a s' x.
Proof.
  intros Hframe Hclosed y Hy. destruct (Hclosed y Hy) as (ky & Hky & Hval).
  exists ky. split; [done|].
  destruct (Hframe (make_key ky "get_last_action")) as [->|?]; done.
Qed.

Lemma set_last_action_closes depth :
  parents_wf depth → keys_distinct →
  ∀ fuel n a st u st',
    set_last_action fuel n a st = Ok (u, st') →
    (∀ x, above n x → older_at a st x ∨ closed_at a st x) →
    closed_at a st' n.
Proof.
  intros Hpwf Hdist.
  induction fuel as [|fuel IH]; intros n a st u st' Hrun HJ; [done|].
  simpl in Hrun. apply bind_Ok in Hrun as (u1 & st1 & Hset & Hloop).
  apply set_cached_value_Ok in Hset as (ik & Hik & ->).
  set (own := make_key ik "get_last_action") in *.
  set (st1 := with_cache st (<[own:=VAction a]> (cache st))) in *.
  set (I := λ s : state,
    cache s !! own = Some (VAction a) ∧
    ∀ x, above n x → older_at a s x ∨ closed_at a s x).
  assert (Hframe1 : ∀ key, cache st1 !! key = cache st !! key ∨
                           cache st1 !! key = Some (VAction a)).
  { intros key. unfold st1. simpl.
    destruct (decide (key = own)) as [->|Hne].
    - right. by rewrite lookup_insert_eq.
    - left. by rewrite lookup_insert_ne. }
  assert (HI1 : I st1).
  { split; [unfold st1; simpl; by rewrite lookup_insert_eq|].
    intros x Hx. destruct (HJ x Hx) as [(kx & Hkx & Hold)|Hclosed].
    - left. exists kx. split; [done|]. unfold st1. simpl.
      rewrite lookup_insert_ne; [done|]. intros Heq.
      destruct (Hdist n x ik kx LAST_ACTION LAST_ACTION Hik Hkx Heq) as [-> _].
      apply (above_depth depth) in Hx; [lia|done].
    - right. by eapply closed_at_keeps. }
  assert (Hstep : ∀ q s v s', q ∈ get_parents n → I s →
    (pla ← get_cached_value q "get_last_action";
     older ← lift (parent_is_older pla a);
     if (older : bool) then set_last_action fuel q a else pass) s
    = Ok (v, s') →
    I s' ∧ ∀ p, (closed_at a s p → closed_at a s' p) ∧
                (q = p → closed_at a s' p)).
  { intros q s v s' Hq [Hown HJs] Hbody.
    apply set_last_action_body_Ok in Hbody as (kq & b & Hkq & Hb & Hrun).
    destruct b.
    - assert (Hq' : closed_at a s' q).
      { eapply IH; [exact Hrun|]. intros x Hx. apply HJs.
        by eapply above_parent. }
      pose proof (set_last_action_within _ _ _ _ _ _ Hrun) as Hwithin.
      assert (Hweak : ∀ key, cache s' !! key = cache s !! key ∨
                             cache s' !! key = Some (VAction a)).
      { intros key. destruct (Hwithin key) as [?|[? _]]; auto. }
      split; [split|].
      + destruct (Hweak own) as [->|?]; done.
      + intros x Hx. destruct (HJs x Hx) as [(kx & Hkx & Hold)|Hclosed].
        * destruct (Hwithin (make_key kx "get_last_action"))
            as [Heq|[_ (z & kz & Hz & Hkz & Heq)]].
          -- left. exists kx. split; [done|]. by rewrite Heq.
          -- destruct (Hdist x z kx kz LAST_ACTION LAST_ACTION Hkx Hkz Heq)
               as [-> _].
             right. intros y Hy. apply Hq'. by eapply rtc_trans.
        * right. by eapply closed_at_keeps.
      + intros p. split; [by apply closed_at_keeps|]. by intros <-.
    - subst s'. split; [done|]. intros p. split; [done|]. intros <-.
      destruct (HJs q) as [(kx & Hkx & Hold)|Hclosed]; [|congruence|done].
      exists q. split; [done|apply rtc_refl]. }
  intros y Hy. apply rtc_inv in Hy as [<-|(p & Hp & Hy)].
  - exists ik. split; [done|].
    assert (I st') as [Hown _]; [|done].
    revert HI1 Hloop. apply (for_each_keeps I).
    intros q s v s' Hq HIs Hbody. by destruct (Hstep q s v s' Hq HIs Hbody).
  - assert (I st' ∧ closed_at a st' p) as [_ Hclosed]; [|by apply Hclosed].
    eapply (for_each_reaches_inv I (λ s, closed_at a s p) _ _ p Hp);
      [|exact HI1|exact Hloop].
    intros q s v s' Hq HIs Hbody.
    destruct (Hstep q s v s' Hq HIs Hbody) as [HIs' Hp'].
    split; [done|]. apply Hp'.
Qed.

(** X17: on a graph whose parents are strictly closer to a root, with
    distinct cache keys, when every node strictly above the node holds a
    cached [last_action] with an [mtime] strictly smaller than the
    action's, a call of [set_last_action] that returns has written the
    action into the [get_last_action] entry of the node and of every one
    of its ancestors, however far up. *)
Theorem set_last_action_reaches_ancestors (depth : node → nat)
    (fuel : nat) (n : node) (a : action) (st : state) (u : unit)
    (st' : state) :
  parents_wf depth → keys_distinct →
  set_last_action fuel n a st = Ok (u, st') →
  (∀ x, above n x →
     ∃ b m ma, last_action_entry st x = Some (VAction b) ∧
               mtime b = Some m ∧ mtime a = Some ma ∧ (m < ma)%Z) →
  ∀ x, ancestor n x → last_action_entry st' x = Some (VAction a).
Proof.
  intros Hpwf Hdist Hrun Hold x Hx.
  destruct (set_last_action_closes depth Hpwf Hdist _ _ _ _ _ _ Hrun)
    with (y := x) as (kx & Hkx & Hval); [|done|].
  - intros y Hy. left. destruct (Hold y Hy) as (b & m & ma & Hb & Hm & Hma & Hlt).
    unfold last_action_entry in Hb.
    destruct (get_cachekey y) as [ky|] eqn:Hky; [|done]. simpl in Hb.
    exists ky. split; [done|]. rewrite Hb. by eapply parent_is_older_lt.
  - unfold last_action_entry. by rewrite Hkx.
Qed.

Lemma has_mtime_comparable v a :
  has_mtime v = true → is_Some (mtime a) →
  ∃ b, parent_is_older v a = Ok b.
Proof.
  intros Hv [ma Ha]. destruct v as [[]|]; simpl in Hv; try done.
  - apply bool_decide_eq_true in Hv as [m Hm].
    unfold parent_is_older. simpl. rewrite Hm, Ha. simpl.
    rewrite orb_true_r. simpl. by eexists.
  - by exists false.
Qed.

(** X18: [set_last_action] returns when every node above the node has a
    cache key and parents strictly closer to a root, the action carries
    an [mtime], and every node strictly above the node has either no
    cached [last_action] or one that carries an [mtime]. *)
Theorem set_last_action_returns (depth : node → nat) (fuel : nat)
    (n : node) (a : action) (st : state) :
  upward_ok depth n → depth n < fuel → is_Some (mtime a) →
  (∀ x, above n x → has_mtime (last_action_entry st x) = true) →
  ∃ st', set_last_action fuel n a st = Ok (tt, st').
Proof.
  intros Hup Hfuel Ha. revert n st Hup Hfuel.
  induction fuel as [|fuel IH]; intros n st Hup Hfuel Hentries; [lia|].
  destruct (Hup n) as [[ik Hik] Hlt]; [apply rtc_refl|].
  simpl.
  set (st1 := with_cache st (<[make_key ik "get_last_action":=VAction a]>
                               (cache st))).
  assert (Hset : set_cached_value n "get_last_action" (VAction a) st
                 = Ok (tt, st1)).
  { apply set_cached_value_Ok. by exists ik. }
  run Hset.
  assert (Hkeep : ∀ s s' : state,
    (∀ key, cache s' !! key = cache s !! key ∨
            cache s' !! key = Some (VAction a)) →
    ∀ x, has_mtime (last_action_entry s x) = true →
         has_mtime (last_action_entry s' x) = true).
  { intros s s' Hframe x. unfold last_action_entry.
    destruct (get_cachekey x) as [kx|]; [|done]. simpl.
    destruct (Hframe (make_key kx "get_last_action")) as [->| ->]; [done|].
    intros _. simpl. by apply bool_decide_eq_true. }
  destruct (for_each_returns
    (λ s, ∀ x, above n x → has_mtime (last_action_entry s x) = true)
    (get_parents n)
    (λ p, pla ← get_cached_value p "get_last_action";
          older ← lift (parent_is_older pla a);
          if (older : bool) then set_last_action fuel p a else pass))
    with (st := st1) as (st' & Hloop & _).
  - intros p s Hp HI.
    destruct (Hup p) as [[kp Hkp] _]; [by apply rtc_once|].
    assert (Hp' : has_mtime (cache s !! make_key kp "get_last_action") = true).
    { specialize (HI p). unfold last_action_entry in HI. rewrite Hkp in HI.
      apply HI. exists p. split; [done|apply rtc_refl]. }
    destruct (has_mtime_comparable _ a Hp' Ha) as [b Hb].
    destruct b.
    + destruct (IH p s) as [s' Hrun].
      * by eapply upward_ok_parent.
      * specialize (Hlt p Hp). lia.
      * intros x Hx. apply HI. by eapply above_parent.
      * exists s'. split.
        -- apply set_last_action_body_Ok. by exists kp, true.
        -- intros x Hx. apply (Hkeep s s'); [|by apply HI].
           intros key.
           destruct (set_last_action_within _ _ _ _ _ _ Hrun key)
             as [?|[? _]]; auto.
    + exists s. split; [|done].
      apply set_last_action_body_Ok. by exists kp, false.
  - intros x Hx. apply (Hkeep st st1); [|by apply Hentries].
    intros key. unfold st1. simpl.
    destruct (decide (key = make_key ik "get_last_action")) as [->|Hne].
    + right. by rewrite lookup_insert_eq.
    + left. by rewrite lookup_insert_ne.
  - by exists st'.
Qed.

(** X22: unlike [get_last_action], which reads a missing [mtime] as 0,
    [set_last_action] with an action that has no [mtime] raises
    [KeyError] as soon as the first parent holds a cached [last_action]
    with an [mtime]: the comparison subscripts the action. *)
Theorem set_last_action_missing_mtime (fuel : nat) (n : node) (a : action)
    (ik kp : string) (p : node) (ps : list node) (b : action) (st : state) :
  get_cachekey n = Some ik →
  get_parents n = p :: ps →
  get_cachekey p = Some kp →
  make_key kp "get_last_action" ≠ make_key ik "get_last_action" →
  cache st !! make_key kp "get_last_action" = Some (VAction b) →
  is_Some (mtime b) →
  mtime a = None →
  set_last_action (S fuel) n a st = Raise KeyError.
Proof.
  intros Hik Hps Hkp Hne Hb [m Hm] Ha. simpl.
  set (st1 := with_cache st (<[make_key ik "get_last_action":=VAction a]>
                               (cache st))).
  assert (Hset : set_cached_value n "get_last_action" (VAction a) st
                 = Ok (tt, st1)).
  { apply set_cached_value_Ok. by exists ik. }
  run Hset. rewrite Hps. simpl.
  assert (Hget : get_cached_value p "get_last_action" st1
                 = Ok (Some (VAction b), st1)).
  { apply get_cached_value_Ok. exists kp. split; [done|]. split; [|done].
    unfold st1. simpl. by rewrite lookup_insert_ne. }
  unfold mbind at 1, M_bind at 1. run Hget.
  unfold mbind at 1, M_bind at 1. unfold lift, parent_is_older. simpl.
  rewrite Hm, Ha. simpl. by rewrite orb_true_r.
Qed.

End Writing.

Section Failures.
Context `{Impl : TreeItemImpl}.

(** ** Nodes without a cache key *)

Lemma for_each_outcome {A} (l : list A) (body : A → M unit) (e : error) :
  (∀ x st, x ∈ l →
     (∃ st', body x st = Ok (tt, st')) ∨ body x st = Raise e) →
  ∀ st, (∃ st', for_each l body st = Ok (tt, st')) ∨
        for_each l body st = Raise e.
Proof.
  induction l as [|x l IH]; intros Hbody st; simpl.
  - left. by exists st.
  - destruct (Hbody x st) as [[st1 H1]|H1]; [by left| |].
    + run H1. apply IH. intros y s Hy. apply Hbody. by right.
    + right. unfold mbind, M_bind. by rewrite H1.
Qed.

(** Walking up with enough fuel either returns or stops at a node without
    a cache key. *)
Lemma _clear_cache_up_outcome (depth : node → nat) :
  parents_wf depth →
  ∀ fuel n keys parents st,
    depth n < fuel →
    (∃ st', _clear_cache fuel n keys parents false st = Ok (tt, st')) ∨
    _clear_cache fuel n keys parents false st = Raise NotImplementedError.
Proof.
  intros Hpwf.
  induction fuel as [|fuel IH]; intros n keys parents s Hfuel; [lia|].
  simpl. destruct (get_cachekey n) as [ik|] eqn:Hik.
  - assert (call_get_cachekey n s = Ok (ik, s)) as Hkey
      by by apply call_get_cachekey_Ok.
    run Hkey.
    rewrite (bind_step _ _ _ _ _ (delete_loop_run ik _ s)).
    set (s1 := with_cache s _).
    assert (∃ s2, (if bool_decide (keys ≠ ∅) then log keys ik else pass) s1
                  = Ok (tt, s2)) as (s2 & Hlog).
    { destruct (bool_decide (keys ≠ ∅)); by eexists. }
    run Hlog.
    destruct parents; [|left; by exists s2].
    destruct (for_each_outcome (get_parents n)
      (λ p, _clear_cache fuel p keys (bool_decide (get_parents n ≠ [])) false)
      NotImplementedError) with (st := s2) as [(s3 & Hloop)|Hloop].
    + intros p s' Hp. apply IH. specialize (Hpwf n p Hp). lia.
    + left. cbv zeta. run Hloop. by exists s3.
    + right. cbv zeta. unfold mbind at 1, M_bind at 1. by rewrite Hloop.
  - right. unfold mbind at 1, M_bind at 1, call_get_cachekey. by rewrite Hik.
Qed.

(** X26: upward invalidation needs a cache key on every ancestor.  On a
    graph whose parents are strictly closer to a root, with fuel beyond the
    depth of the node, [clear_flagged_cache(parents=True, children=False)]
    returns exactly when the node and all its ancestors have a cache key,
    and raises [NotImplementedError] otherwise; so does
    [clear_all_cache(parents=True, children=False)]. *)
Theorem clear_flagged_cache_unkeyed_ancestor (depth : node → nat)
    (fuel : nat) (n : node) (st : state) :
  parents_wf depth → depth n < fuel →
  ((∀ x, ancestor n x → is_Some (get_cachekey x)) →
   (∃ st', clear_flagged_cache fuel n true false st = Ok (tt, st')) ∧
   (∃ st', clear_all_cache fuel n false true st = Ok (tt, st'))) ∧
  ((∃ x, ancestor n x ∧ get_cachekey x = None) →
   clear_flagged_cache fuel n true false st = Raise NotImplementedError ∧
   clear_all_cache fuel n false true st = Raise NotImplementedError).
Proof.
  intros Hpwf Hfuel.
  assert (Hup : (∀ x, ancestor n x → is_Some (get_cachekey x)) →
                upward_ok depth n).
  { intros Hkeys a Ha. split; [by apply Hkeys|apply Hpwf]. }
  assert (Hraise : (∃ x, ancestor n x ∧ get_cachekey x = None) →
    ∀ keys s, _clear_cache fuel n keys true false s
              = Raise NotImplementedError).
  { intros (x & Hx & Hnone) keys s.
    destruct (_clear_cache_up_outcome depth Hpwf fuel n keys true s Hfuel)
      as [[s' Hrun]|?]; [|done].
    destruct (_clear_cache_reaches _ _ _ _ _ _ _ _
                (λ H : false = true, False_ind _ (diff_false_true H)) Hrun x)
      as (ik & Hik & _); [|congruence].
    right. left. done. }
  split.
  - intros Hkeys. apply Hup in Hkeys. split.
    + destruct (_clear_cache_up_returns depth fuel n
                  (_flagged_for_deletion (obj_of st n)) true st Hkeys Hfuel)
        as [st1 Hclear].
      eexists. apply clear_flagged_cache_Ok. by exists st1.
    + unfold clear_all_cache. run (flag_for_deletion_run n get_all st).
      set (st0 := with_heap st _).
      destruct (_clear_cache_up_returns depth fuel n
                  (_flagged_for_deletion (obj_of st0 n)) true st0 Hkeys Hfuel)
        as [st1 Hclear].
      eexists. apply clear_flagged_cache_Ok. by exists st1.
  - intros Hnone. split.
    + unfold clear_flagged_cache, self. unfold mbind at 1, M_bind at 1.
      unfold mbind at 1, M_bind at 1. by rewrite (Hraise Hnone).
    + unfold clear_all_cache. run (flag_for_deletion_run n get_all st).
      unfold clear_flagged_cache, self. unfold mbind at 1, M_bind at 1.
      unfold mbind at 1, M_bind at 1. by rewrite (Hraise Hnone).
Qed.

End Failures.

Section Propagation.
Context `{Impl : TreeItemImpl}.

(** ** [set_last_action]: the recursion on the parents *)

Lemma parent_is_older_not_self a :
  parent_is_older (Some (VAction a)) a ≠ Ok true.
Proof.
  intros H.
  apply parent_is_older_true in H as (v & m & ma & Hv & Hm & Hma & Hlt).
  injection Hv as <-. simpl in Hm. rewrite Hma in Hm. injection Hm as <-. lia.
Qed.

Lemma overwrites_refl a st : overwrites a st st.
Proof. intros key. by left. Qed.

Lemma overwrites_trans a st s s' :
  overwrites a st s → overwrites a s s' → overwrites a st s'.
Proof.
  intros H1 H2 key. destruct (H2 key) as [->|?]; [apply H1|by right].
Qed.

Lemma set_last_action_overwrites fuel n a s u s' :
  set_last_action fuel n a s = Ok (u, s') → overwrites a s s'.
Proof.
  intros Hrun key.
  destruct (set_last_action_within _ _ _ _ _ _ Hrun key) as [?|[? _]]; auto.
Qed.

Lemma older_at_overwrites a st s p :
  overwrites a st s → older_at a s p → older_at a st p.
Proof.
  intros Hw (kp & Hkp & Hold). exists kp. split; [done|].
  destruct (Hw (make_key kp "get_last_action")) as [Heq|Heq];
    rewrite Heq in Hold; [done|].
  by apply parent_is_older_not_self in Hold.
Qed.

Lemma reached_overwrites a st s x y :
  overwrites a st s → reached a s x y → reached a st x y.
Proof.
  intros Hw H. induction H as [|x p y [Hp Hold] _ IH]; [apply rtc_refl|].
  eapply rtc_l; [|exact IH]. split; [done|]. by eapply older_at_overwrites.
Qed.

Lemma saturated_keeps a st s s' x :
  overwrites a s s' → saturated a st s x → saturated a st s' x.
Proof.
  intros Hw Hsat y Hy. destruct (Hsat y Hy) as (ky & Hky & Hval).
  exists ky. split; [done|].
  destruct (Hw (make_key ky "get_last_action")) as [->|?]; done.
Qed.

(** A call that returns has changed only entries of nodes reached from
    the node, each of them to the action. *)
Lemma set_last_action_within_reached fuel :
  ∀ n a s u s',
    set_last_action fuel n a s = Ok (u, s') →
    ∀ key,
      cache s' !! key = cache s !! key ∨
      (cache s' !! key = Some (VAction a) ∧
       ∃ x kx, reached a s n x ∧ get_cachekey x = Some kx ∧
               key = make_key kx "get_last_action").
Proof.
  induction fuel as [|fuel IH]; intros n a s u s' Hrun; [done|].
  simpl in Hrun. apply bind_Ok in Hrun as (u1 & s1 & Hset & Hloop).
  apply set_cached_value_Ok in Hset as (ik & Hik & ->).
  revert Hloop. apply (for_each_keeps (λ t, ∀ key,
    cache t !! key = cache s !! key ∨
    (cache t !! key = Some (VAction a) ∧
     ∃ x kx, reached a s n x ∧ get_cachekey x = Some kx ∧
             key = make_key kx "get_last_action"))).
  - intros q t v t' Hq HI Hbody key.
    apply set_last_action_body_Ok in Hbody as (kq & b & Hkq & Hb & Hrun).
    destruct b; [|by subst].
    assert (Hw : overwrites a s t).
    { intros k. destruct (HI k) as [?|[? _]]; auto. }
    assert (Hold : older_at a s q).
    { apply (older_at_overwrites a s t); [done|]. by exists kq. }
    destruct (IH _ _ _ _ _ Hrun key) as [->|[Ha (x & kx & Hx & Hkx & ->)]];
      [by apply HI|].
    right. split; [done|]. exists x, kx. split; [|done].
    eapply rtc_l; [split; [exact Hq|exact Hold]|].
    by eapply reached_overwrites.
  - intros key. simpl.
    destruct (decide (key = make_key ik "get_last_action")) as [->|Hne].
    + right. rewrite lookup_insert_eq. split; [done|].
      exists n, ik. split; [apply rtc_refl|done].
    + left. by rewrite lookup_insert_ne.
Qed.

(** Every node reached from the node of a call that returns holds the
    action afterwards: a parent that passes the test gets the same call,
    and so on upwards. *)
Lemma set_last_action_saturates depth a st :
  parents_wf depth → keys_distinct →
  ∀ fuel n s u s',
    set_last_action fuel n a s = Ok (u, s') →
    overwrites a st s →
    (∀ x, above n x → untouched st s x ∨ saturated a st s x) →
    saturated a st s' n.
Proof.
  intros Hpwf Hdist.
  induction fuel as [|fuel IH]; intros n s u s' Hrun Hw HJ; [done|].
  simpl in Hrun. apply bind_Ok in Hrun as (u1 & s1 & Hset & Hloop).
  apply set_cached_value_Ok in Hset as (ik & Hik & ->).
  set (own := make_key ik "get_last_action") in *.
  set (s1 := with_cache s (<[own:=VAction a]> (cache s))) in *.
  set (I := λ t : state,
    cache t !! own = Some (VAction a) ∧ overwrites a st t ∧
    ∀ x, above n x → untouched st t x ∨ saturated a st t x).
  assert (Hw1 : overwrites a s s1).
  { intros key. unfold s1. simpl.
    destruct (decide (key = own)) as [->|Hne].
    - right. by rewrite lookup_insert_eq.
    - left. by rewrite lookup_insert_ne. }
  assert (HI1 : I s1).
  { split; [unfold s1; simpl; by rewrite lookup_insert_eq|].
    split; [by eapply overwrites_trans|].
    intros x Hx. destruct (HJ x Hx) as [Hu|Hs].
    - left. intros kx Hkx. unfold s1. simpl.
      rewrite lookup_insert_ne; [by apply Hu|]. intros Heq.
      destruct (Hdist n x ik kx LAST_ACTION LAST_ACTION Hik Hkx Heq) as [-> _].
      apply (above_depth depth) in Hx; [lia|done].
    - right. by eapply saturated_keeps. }
  assert (Hstep : ∀ q t v t', q ∈ get_parents n → I t →
    (pla ← get_cached_value q "get_last_action";
     older ← lift (parent_is_older pla a);
     if (older : bool) then set_last_action fuel q a else pass) t
    = Ok (v, t') →
    I t' ∧ ∀ p, (saturated a st t p → saturated a st t' p) ∧
                (q = p → older_at a st p → saturated a st t' p)).
  { intros q t v t' Hq (Hown & Hwt & HJt) Hbody.
    apply set_last_action_body_Ok in Hbody as (kq & b & Hkq & Hb & Hrun).
    destruct b.
    - assert (Hq' : saturated a st t' q).
      { eapply IH; [exact Hrun|exact Hwt|]. intros x Hx. apply HJt.
        by eapply above_parent. }
      pose proof (set_last_action_within_reached _ _ _ _ _ _ Hrun) as Hwithin.
      pose proof (set_last_action_overwrites _ _ _ _ _ _ Hrun) as Hweak.
      split; [split; [|split]|].
      + destruct (Hweak own) as [->|?]; done.
      + by eapply overwrites_trans.
      + intros x Hx. destruct (HJt x Hx) as [Hu|Hs];
          [|right; by eapply saturated_keeps].
        destruct (get_cachekey x) as [kx|] eqn:Hkx;
          [|left; intros kx' Hkx'; congruence].
        destruct (Hwithin (make_key kx "get_last_action"))
          as [Heq|[_ (z & kz & Hz & Hkz & Heq)]].
        * left. intros kx' Hkx'. assert (kx' = kx) as -> by congruence.
          rewrite Heq. by apply Hu.
        * destruct (Hdist x z kx kz LAST_ACTION LAST_ACTION Hkx Hkz Heq)
            as [-> _].
          right. intros y Hy. apply Hq'. eapply rtc_trans; [|exact Hy].
          by eapply reached_overwrites.
      + intros p. split; [by apply saturated_keeps|]. by intros <- _.
    - subst t'. split; [done|]. intros p. split; [done|].
      intros <- (kq' & Hkq' & Hold).
      destruct (HJt q) as [Hu|Hs]; [|exfalso|done].
      { exists q. split; [done|apply rtc_refl]. }
      assert (kq' = kq) as -> by congruence.
      rewrite (Hu kq Hkq), Hold in Hb. discriminate. }
  intros y Hy. apply rtc_inv in Hy as [<-|(p & [Hp Hold] & Hy)].
  - exists ik. split; [done|].
    assert (I s') as [Hown _]; [|done].
    revert HI1 Hloop. apply (for_each_keeps I).
    intros q t v t' Hq HIt Hbody. by destruct (Hstep q t v t' Hq HIt Hbody).
  - assert (I s' ∧ saturated a st s' p) as [_ Hsat]; [|by apply Hsat].
    eapply (for_each_reaches_inv I (λ t, saturated a st t p) _ _ p Hp);
      [|exact HI1|exact Hloop].
    intros q t v t' Hq HIt Hbody.
    destruct (Hstep q t v t' Hq HIt Hbody) as [HIt' Hp'].
    split; [done|]. destruct (Hp' p) as [Hkeep Hest].
    split; [done|]. intros ->. by apply Hest.
Qed.

(** C1, amended: a call [set_last_action(node, action)] that returns has
    written [action] into the node's [get_last_action] entry; a parent
    whose cached [last_action] was present with an [mtime] earlier than
    the action's has received the same call, a parent whose entry was
    absent, empty or not earlier has not.  So the entry of such an older
    parent is [action], the entry of any other parent is what it was (an
    absent one stays absent), and when no parent is older the call has
    written the node's entry and done nothing else.  The recursion goes all
    the way: an entry that the call has changed is now [action] and belongs
    to a node linked to the node by a chain of parents each older than the
    action; and, parents being strictly closer to a root and cache keys
    distinct, every node so linked holds [action]. *)
Theorem set_last_action_propagation (fuel : nat) (n : node) (a : action)
    (st : state) (u : unit) (st' : state) :
  set_last_action fuel n a st = Ok (u, st') →
  ∃ ik, get_cachekey n = Some ik ∧
    let own := make_key ik "get_last_action" in
    cache st' !! own = Some (VAction a) ∧
    (∀ p kp, p ∈ get_parents n → get_cachekey p = Some kp →
       let entry := make_key kp "get_last_action" in
       (parent_is_older (cache st !! entry) a = Ok true →
        cache st' !! entry = Some (VAction a)) ∧
       (entry ≠ own → parent_is_older (cache st !! entry) a = Ok false →
        cache st' !! entry = cache st !! entry) ∧
       (entry ≠ own → cache st !! entry = None → cache st' !! entry = None)) ∧
    ((∀ p kp, p ∈ get_parents n → get_cachekey p = Some kp →
        make_key kp "get_last_action" ≠ own →
        parent_is_older (cache st !! make_key kp "get_last_action") a
        = Ok false) →
     st' = with_cache st (<[own := VAction a]> (cache st))) ∧
    (∀ key, cache st' !! key ≠ cache st !! key →
       cache st' !! key = Some (VAction a) ∧
       ∃ x kx, reached a st n x ∧ get_cachekey x = Some kx ∧
               key = make_key kx "get_last_action") ∧
    (∀ depth, parents_wf depth → keys_distinct →
       ∀ x, reached a st n x → last_action_entry st' x = Some (VAction a)).
Proof.
  intros Hrun.
  destruct (set_last_action_effect _ _ _ _ _ _ Hrun)
    as (ik & Hik & Hown & Hframe & _).
  exists ik. split; [done|]. cbv zeta. split; [done|].
  split; [|split; [|split]].
  - intros p kp Hp Hkp.
    assert (Hnot : make_key kp "get_last_action" ≠ make_key ik "get_last_action" →
                   parent_is_older (cache st !! make_key kp "get_last_action") a
                   = Ok false →
                   cache st' !! make_key kp "get_last_action"
                   = cache st !! make_key kp "get_last_action").
    { intros Hne Hold. destruct (Hframe _ Hne) as [?|[_ Hold']]; [done|].
      by rewrite Hold in Hold'. }
    split; [|split; [done|]].
    + by eapply set_last_action_older_parent.
    + intros Hne Hnone. rewrite Hnot; [done..|]. by rewrite Hnone.
  - intros Hnone. by eapply set_last_action_no_older_parent.
  - intros key Hne.
    by destruct (set_last_action_within_reached _ _ _ _ _ _ Hrun key) as [?|?].
  - intros depth Hpwf Hdist x Hx.
    destruct (set_last_action_saturates depth a st Hpwf Hdist _ _ _ _ _ Hrun)
      with (y := x) as (kx & Hkx & Hval); [apply overwrites_refl| |done|].
    + intros y _. left. by intros ky _.
    + unfold last_action_entry. by rewrite Hkx.
Qed.

(** ** [set_last_action] and the bound on cached actions *)

Lemma above_step n x p : above n x → p ∈ get_parents x → above n p.
Proof.
  intros (p0 & Hp0 & Hx) Hp. exists p0. split; [done|]. by eapply rtc_r.
Qed.

Lemma ancestor_step_above q x p :
  ancestor q x → p ∈ get_parents x → above q p.
Proof.
  intros Hx Hp. apply rtc_inv in Hx as [<-|(p0 & Hp0 & Hx)].
  - exists p. split; [done|apply rtc_refl].
  - exists p0. split; [done|]. by eapply rtc_r.
Qed.

Lemma ancestor_above n x : ancestor n x → x = n ∨ above n x.
Proof.
  intros Hx. apply rtc_inv in Hx as [<-|(p & Hp & Hx)]; [by left|].
  right. by exists p.
Qed.

Lemma descendant_ancestor x d :
  parents_cover_children → descendant x d → ancestor d x.
Proof.
  intros Hcover Hd. induction Hd as [|x c d Hc _ IH]; [apply rtc_refl|].
  eapply rtc_r; [exact IH|]. by apply Hcover.
Qed.

Lemma cached_mtime_entry s x kx b :
  get_cachekey x = Some kx →
  cache s !! make_key kx "get_last_action" = Some (VAction b) →
  cached_mtime s x = mtime b.
Proof.
  intros Hkx Hb. unfold cached_mtime, last_action_entry. rewrite Hkx. simpl.
  by rewrite Hb.
Qed.

Lemma cached_mtime_Some s x m :
  cached_mtime s x = Some m →
  ∃ kx b, get_cachekey x = Some kx ∧
          cache s !! make_key kx "get_last_action" = Some (VAction b) ∧
          mtime b = Some m.
Proof.
  unfold cached_mtime, last_action_entry.
  destruct (get_cachekey x) as [kx|]; [|done]. simpl.
  destruct (cache s !! make_key kx "get_last_action") as [[]|] eqn:Hb;
    try done.
  intros Hm. by eexists _, _.
Qed.

Lemma cached_mtime_overwrites a ma s s' x :
  mtime a = Some ma → overwrites a s s' →
  cached_mtime s' x = cached_mtime s x ∨ cached_mtime s' x = Some ma.
Proof.
  intros Hma Hw. unfold cached_mtime, last_action_entry.
  destruct (get_cachekey x) as [kx|]; [|by left]. simpl.
  destruct (Hw (make_key kx "get_last_action")) as [->| ->]; auto.
Qed.

Lemma cached_mtime_older a s p kp :
  get_cachekey p = Some kp →
  parent_is_older (cache s !! make_key kp "get_last_action") a = Ok true →
  ∃ m ma, cached_mtime s p = Some m ∧ mtime a = Some ma ∧ (m < ma)%Z.
Proof.
  intros Hkp Hold.
  apply parent_is_older_true in Hold as (v & m & ma & Hv & Hm & Hma & Hlt).
  exists m, ma. split; [|done].
  destruct v as [| |b| |]; simpl in Hm; try done.
  rewrite (cached_mtime_entry s p kp b Hkp Hv).
  destruct (mtime b); [|done]. by injection Hm as ->.
Qed.

Lemma cached_mtime_not_older a ma s p kp m :
  get_cachekey p = Some kp →
  parent_is_older (cache s !! make_key kp "get_last_action") a = Ok false →
  cached_mtime s p = Some m → mtime a = Some ma → (ma ≤ m)%Z.
Proof.
  intros Hkp Hb Hm Hma.
  apply cached_mtime_Some in Hm as (kp' & b & Hkp' & Hentry & Hm).
  assert (kp' = kp) as -> by congruence.
  rewrite Hentry in Hb. unfold parent_is_older in Hb. simpl in Hb.
  rewrite Hm, Hma in Hb. simpl in Hb. rewrite orb_true_r in Hb. simpl in Hb.
  injection Hb as Hb. by apply Z.ltb_ge in Hb.
Qed.

(** A call that returns next to a parent with a dated cached action was
    made with a dated action: the test subscripts both. *)
Lemma set_last_action_dated depth fuel n a s u s' p :
  parents_wf depth → keys_distinct →
  set_last_action fuel n a s = Ok (u, s') →
  p ∈ get_parents n → is_Some (cached_mtime s p) → is_Some (mtime a).
Proof.
  intros Hpwf Hdist Hrun Hp [m Hm].
  apply cached_mtime_Some in Hm as (kp & b & Hkp & Hentry & Hm).
  pose proof (set_last_action_parents _ _ _ _ _ _ _ _ Hrun Hp Hkp) as Hafter.
  destruct (set_last_action_effect _ _ _ _ _ _ Hrun)
    as (ik & Hik & _ & Hframe & _).
  destruct (Hframe (make_key kp "get_last_action")) as [Heq|[_ Hold]].
  - intros Heq.
    destruct (Hdist p n kp ik LAST_ACTION LAST_ACTION Hkp Hik Heq) as [-> _].
    apply Hpwf in Hp. lia.
  - rewrite Heq, Hentry in Hafter. unfold parent_is_older in Hafter.
    simpl in Hafter. rewrite Hm in Hafter. simpl in Hafter.
    rewrite orb_true_r in Hafter. simpl in Hafter.
    destruct (mtime a); [done|discriminate].
  - apply parent_is_older_true in Hold as (_ & _ & ma & _ & _ & Hma & _).
    by exists ma.
Qed.

(** With a dated cached action on every node strictly above the node,
    none of them later than the one of a parent, a call that returns
    leaves on every node strictly above the node a cached action that is
    not older than the action. *)
Lemma set_last_action_bounds_above depth a ma :
  parents_wf depth → keys_distinct → mtime a = Some ma →
  ∀ fuel n s u s',
    set_last_action fuel n a s = Ok (u, s') →
    (∀ x, above n x → is_Some (cached_mtime s x)) →
    (∀ x p m m', above n x → p ∈ get_parents x →
       cached_mtime s x = Some m → cached_mtime s p = Some m' → (m ≤ m')%Z) →
    ∀ x, above n x → ∃ m, cached_mtime s' x = Some m ∧ (ma ≤ m)%Z.
Proof.
  intros Hpwf Hdist Hma.
  induction fuel as [|fuel IH]; intros n s u s' Hrun HP1 HP2; [done|].
  simpl in Hrun. apply bind_Ok in Hrun as (u1 & s1 & Hset & Hloop).
  apply set_cached_value_Ok in Hset as (ik & Hik & ->).
  set (own := make_key ik "get_last_action") in *.
  set (s1 := with_cache s (<[own:=VAction a]> (cache s))) in *.
  set (I := λ t : state,
    (∀ x, above n x → is_Some (cached_mtime t x)) ∧
    (∀ x p m m', above n x → p ∈ get_parents x →
       cached_mtime t x = Some m → cached_mtime t p = Some m' → (m ≤ m')%Z)).
  set (Q := λ (q : node) (t : state),
    ∀ y, ancestor q y → ∃ m, cached_mtime t y = Some m ∧ (ma ≤ m)%Z).
  assert (Hsame1 : ∀ x, above n x → cached_mtime s1 x = cached_mtime s x).
  { intros x Hx. unfold cached_mtime, last_action_entry.
    destruct (get_cachekey x) as [kx|] eqn:Hkx; [|done]. simpl.
    unfold s1. simpl. rewrite lookup_insert_ne; [done|]. intros Heq.
    destruct (Hdist n x ik kx LAST_ACTION LAST_ACTION Hik Hkx Heq) as [-> _].
    apply (above_depth depth) in Hx; [lia|done]. }
  assert (HI1 : I s1).
  { split.
    - intros x Hx. rewrite Hsame1 by done. by apply HP1.
    - intros x p m m' Hx Hp. rewrite !Hsame1; [by apply HP2|..|done].
      by eapply above_step. }
  assert (Hstep : ∀ q t v t', q ∈ get_parents n → I t →
    (pla ← get_cached_value q "get_last_action";
     older ← lift (parent_is_older pla a);
     if (older : bool) then set_last_action fuel q a else pass) t
    = Ok (v, t') →
    I t' ∧ (∀ p, Q p t → Q p t') ∧ Q q t').
  { intros q t v t' Hq [HP1t HP2t] Hbody.
    assert (Hqn : above n q) by (exists q; split; [done|apply rtc_refl]).
    apply set_last_action_body_Ok in Hbody as (kq & b & Hkq & Hb & Hrun).
    destruct b.
    - assert (Hpost : ∀ x, above q x →
                ∃ m, cached_mtime t' x = Some m ∧ (ma ≤ m)%Z).
      { eapply IH; [exact Hrun| |].
        - intros x Hx. apply HP1t. by eapply above_parent.
        - intros x p m m' Hx. apply HP2t. by eapply above_parent. }
      pose proof (set_last_action_within _ _ _ _ _ _ Hrun) as Hwithin.
      pose proof (set_last_action_overwrites _ _ _ _ _ _ Hrun) as Hweak.
      destruct (set_last_action_effect _ _ _ _ _ _ Hrun)
        as (kq' & Hkq' & Hqown & Hframe & _).
      assert (kq' = kq) as -> by congruence.
      assert (Hqnew : cached_mtime t' q = Some ma).
      { by rewrite (cached_mtime_entry t' q kq a Hkq Hqown). }
      assert (Hcls : ∀ x,
        cached_mtime t' x = cached_mtime t x ∨
        (cached_mtime t' x = Some ma ∧
         (∃ m, cached_mtime t x = Some m ∧ (m < ma)%Z) ∧ ancestor q x)).
      { intros x. destruct (get_cachekey x) as [kx|] eqn:Hkx.
        2:{ left. unfold cached_mtime, last_action_entry. by rewrite Hkx. }
        destruct (Hwithin (make_key kx "get_last_action"))
          as [Heq|[Ha (z & kz & Hz & Hkz & Heq)]].
        { left. unfold cached_mtime, last_action_entry. rewrite Hkx. simpl.
          by rewrite Heq. }
        destruct (Hdist x z kx kz LAST_ACTION LAST_ACTION Hkx Hkz Heq)
          as [<- _].
        destruct (decide (x = q)) as [->|Hxq].
        - right. split; [done|]. split; [|apply rtc_refl].
          destruct (cached_mtime_older a t q kq Hkq Hb)
            as (m & ma' & Hm & Hma' & Hlt).
          assert (ma' = ma) as -> by congruence. by exists m.
        - destruct (Hframe (make_key kx "get_last_action"))
            as [Heq'|[_ Hold]].
          + intros Heq'.
            destruct (Hdist x q kx kq LAST_ACTION LAST_ACTION Hkx Hkq Heq')
              as [-> _]. done.
          + left. unfold cached_mtime, last_action_entry. rewrite Hkx. simpl.
            by rewrite Heq'.
          + right. split; [by rewrite (cached_mtime_entry t' x kx a Hkx Ha)|].
            split; [|done].
            destruct (cached_mtime_older a t x kx Hkx Hold)
              as (m & ma' & Hm & Hma' & Hlt).
            assert (ma' = ma) as -> by congruence. by exists m. }
      split; [split|split].
      + intros x Hx. destruct (Hcls x) as [->|[-> _]]; [by apply HP1t|done].
      + intros x p m m' Hx Hp Hm Hm'.
        destruct (Hcls x) as [Hxs|(Hxn & _ & Hxa)].
        * rewrite Hxs in Hm.
          destruct (Hcls p) as [Hps|(Hpn & (mp & Hmp & Hlt) & _)].
          -- rewrite Hps in Hm'. by eapply HP2t.
          -- rewrite Hpn in Hm'. injection Hm' as <-.
             pose proof (HP2t x p m mp Hx Hp Hm Hmp). lia.
        * rewrite Hxn in Hm. injection Hm as <-.
          destruct (Hpost p) as (m'' & Hm'' & Hle);
            [by eapply ancestor_step_above|].
          rewrite Hm'' in Hm'. by injection Hm' as <-.
      + intros p HQ y Hy. destruct (HQ y Hy) as (m & Hm & Hle).
        destruct (cached_mtime_overwrites a ma t t' y Hma Hweak) as [->| ->].
        * by exists m.
        * exists ma. split; [done|lia].
      + intros y Hy. apply ancestor_above in Hy as [->|Hy].
        * exists ma. split; [done|lia].
        * by apply Hpost.
    - subst t'. split; [done|]. split; [done|].
      destruct (HP1t q Hqn) as [mq Hmq].
      pose proof (cached_mtime_not_older a ma t q kq mq Hkq Hb Hmq Hma) as Hle.
      assert (Hchain : ∀ x y, ancestor x y → above n x →
                ∀ m, cached_mtime t x = Some m →
                     ∃ m', cached_mtime t y = Some m' ∧ (m ≤ m')%Z).
      { intros x y Hxy. induction Hxy as [x|x p y Hp _ IHxy];
          intros Hx m Hm; [exists m; split; [done|lia]|].
        assert (Hpn : above n p) by by eapply above_step.
        destruct (HP1t p Hpn) as [mp Hmp].
        destruct (IHxy Hpn mp Hmp) as (m' & Hm' & Hle').
        exists m'. split; [done|].
        pose proof (HP2t x p m mp Hx Hp Hm Hmp). lia. }
      intros y Hy. destruct (Hchain q y Hy Hqn mq Hmq) as (m' & Hm' & Hle').
      exists m'. split; [done|lia]. }
  intros x (q & Hq & Hx).
  assert (I s' ∧ Q q s') as [_ HQ]; [|by apply HQ].
  eapply (for_each_reaches_inv I (Q q) _ _ q Hq); [|exact HI1|exact Hloop].
  intros q' t v t' Hq' HIt Hbody.
  destruct (Hstep q' t v t' Hq' HIt Hbody) as (HIt' & Hkeep & Hest).
  split; [done|]. split; [apply Hkeep|]. by intros <-.
Qed.

(** C4, amended: after a call [set_last_action(node, action)] that
    returns, the node's own entry is [action] whatever it held before (the
    write is unconditional, also over a later record); any other entry is
    unchanged or held a record with a strictly smaller [mtime] and now
    holds [action], so no other cached [last_action] is ever replaced by
    an older one.  On an acyclic graph with distinct cache keys whose
    parents and children agree, when [action] is not older than the raw
    records below the node, every node strictly above the node holds a
    cached [last_action] with an [mtime], and these do not decrease from a
    node above to its parents, then: every node above the node, along
    every chain of parents, ends with a cached [last_action] that is not
    older than [action]; and if no cached [last_action] was older than the
    true maximum below its node before, none is older than the true
    maximum afterwards, [action] being now the raw record of the node. *)
Theorem set_last_action_monotone (height depth : node → nat) (fuel : nat)
    (n : node) (a : action) (st : state) (u : unit) (st' : state) :
  set_last_action fuel n a st = Ok (u, st') →
  (∃ ik, get_cachekey n = Some ik ∧
     let own := make_key ik "get_last_action" in
     cache st' !! own = Some (VAction a) ∧
     (∀ key, key ≠ own →
        cache st' !! key = cache st !! key ∨
        (cache st' !! key = Some (VAction a) ∧
         ∃ v m ma, cache st !! key = Some v ∧ subscript_mtime v = Ok m ∧
                   mtime a = Some ma ∧ (m < ma)%Z)) ∧
     (∀ p kp b m, p ∈ get_parents n → get_cachekey p = Some kp →
        cache st' !! make_key kp "get_last_action" = Some (VAction b) →
        mtime b = Some m →
        ∃ ma, mtime a = Some ma ∧ (ma ≤ m)%Z)) ∧
  (children_wf height → parents_wf depth → keys_distinct →
   parents_cover_children →
   (∀ d, descendant n d → d ≠ n →
         (action_key (_get_last_action d) ≤ action_key a)%Z) →
   (∀ x, above n x → is_Some (cached_mtime st x)) →
   (∀ x p m m', above n x → p ∈ get_parents x →
      cached_mtime st x = Some m → cached_mtime st p = Some m' →
      (m ≤ m')%Z) →
   (∀ x, above n x →
         ∃ m, cached_mtime st' x = Some m ∧ (action_key a ≤ m)%Z) ∧
   ((∀ x, last_action_bound height _get_last_action st x) →
    ∀ x, last_action_bound height (record_action n a) st' x)).
Proof.
  intros Hrun.
  destruct (set_last_action_effect _ _ _ _ _ _ Hrun)
    as (ik & Hik & Hown & Hframe & _).
  split.
  { exists ik. split; [done|]. cbv zeta. split; [done|]. split.
    - intros key Hkey. destruct (Hframe key Hkey) as [?|[? Hold]]; [by left|].
      right. split; [done|]. by apply parent_is_older_true.
    - intros p kp b m Hp Hkp Hb Hm.
      pose proof (set_last_action_parents _ _ _ _ _ _ _ _ Hrun Hp Hkp)
        as Hafter.
      rewrite Hb in Hafter. unfold parent_is_older in Hafter.
      simpl in Hafter. rewrite Hm in Hafter. simpl in Hafter.
      rewrite orb_true_r in Hafter. simpl in Hafter.
      destruct (mtime a) as [ma|]; [|done].
      injection Hafter as Hafter. apply Z.ltb_ge in Hafter. by exists ma. }
  intros Hcwf Hpwf Hdist Hcover Hnew HP1 HP2.
  assert (Habove : ∀ x, above n x →
            ∃ m, cached_mtime st' x = Some m ∧ (action_key a ≤ m)%Z).
  { intros x Hx. pose proof Hx as (p0 & Hp0 & _).
    destruct (set_last_action_dated depth _ _ _ _ _ _ p0 Hpwf Hdist Hrun Hp0)
      as [ma Hma].
    { apply HP1. exists p0. split; [done|apply rtc_refl]. }
    unfold action_key. rewrite Hma. simpl.
    by eapply (set_last_action_bounds_above depth a ma Hpwf Hdist Hma). }
  split; [done|]. intros Hbound x b' Hentry.
  assert (Hnode : x = n → b' = a).
  { intros ->. unfold last_action_entry in Hentry. rewrite Hik in Hentry.
    simpl in Hentry. rewrite Hown in Hentry. by injection Hentry as <-. }
  unfold true_last_action.
  destruct (max_of_latest (record_action n a) action_key height Hcwf
              (height x) x) as [(d & Hd & Heq) _]; [done|].
  rewrite Heq. unfold record_action. destruct (decide (d = n)) as [->|Hdn].
  - destruct (decide (x = n)) as [Hxn|Hxn]; [by rewrite (Hnode Hxn)|].
    destruct (ancestor_above n x) as [?|Hx];
      [by apply descendant_ancestor|done|].
    destruct (Habove x Hx) as (m & Hm & Hle).
    unfold cached_mtime in Hm. rewrite Hentry in Hm.
    unfold action_key at 2. by rewrite Hm.
  - destruct (decide (x = n)) as [Hxn|Hxn].
    { rewrite (Hnode Hxn). subst x. by apply Hnew. }
    destruct (max_of_latest _get_last_action action_key height Hcwf
                (height x) x) as [_ Hle]; [done|].
    specialize (Hle d Hd).
    unfold last_action_entry in Hentry.
    destruct (get_cachekey x) as [kx|] eqn:Hkx; [|done]. simpl in Hentry.
    destruct (Hframe (make_key kx "get_last_action")) as [Heq'|[Ha Hold]].
    + intros Heq'.
      destruct (Hdist x n kx ik LAST_ACTION LAST_ACTION Hkx Hik Heq')
        as [-> _]. done.
    + rewrite Heq' in Hentry. etransitivity; [exact Hle|].
      apply (Hbound x b'). unfold last_action_entry. by rewrite Hkx.
    + rewrite Ha in Hentry. injection Hentry as <-.
      apply parent_is_older_true in Hold as (v & m & ma & Hv & Hm & Hma & Hlt).
      destruct v as [| |b0| |]; simpl in Hm; try done.
      assert (Hb0 : (action_key (true_last_action height _get_last_action x)
                     ≤ action_key b0)%Z).
      { apply (Hbound x b0). unfold last_action_entry. by rewrite Hkx. }
      destruct (mtime b0) as [m0|] eqn:Hm0; [|done]. injection Hm as ->.
      assert (Hkb : action_key b0 = m) by (unfold action_key; by rewrite Hm0).
      assert (Hka : action_key a = ma) by (unfold action_key; by rewrite Hma).
      unfold true_last_action in Hb0. rewrite Hkb in Hb0. rewrite Hka. lia.
Qed.

End Propagation.

(** * Instances on the sample tree *)

Lemma sample_ancestor_2 x : ancestor (Impl := sample) 2 x → x = 2 ∨ x = 1 ∨ x = 0.
Proof.
  intros H. apply rtc_inv in H as [<-|(p & Hp & H)]; [by left|].
  simpl in Hp. apply list_elem_of_singleton in Hp as ->.
  apply rtc_inv in H as [<-|(p & Hp & H)]; [right; by left|].
  simpl in Hp. apply list_elem_of_singleton in Hp as ->.
  apply rtc_inv in H as [<-|(p & Hp & H)]; [right; by right|].
  simpl in Hp. by apply elem_of_nil in Hp.
Qed.

Lemma sample_above_2 x : above (Impl := sample) 2 x → x = 1 ∨ x = 0.
Proof.
  intros (p & Hp & H). simpl in Hp. apply list_elem_of_singleton in Hp as ->.
  apply rtc_inv in H as [<-|(p & Hp & H)]; [by left|].
  simpl in Hp. apply list_elem_of_singleton in Hp as ->.
  apply rtc_inv in H as [<-|(p & Hp & H)]; [by right|].
  simpl in Hp. by apply elem_of_nil in Hp.
Qed.

Lemma sample_ancestor_2_0 : ancestor (Impl := sample) 2 0.
Proof.
  apply rtc_l with 1; [simpl; apply list_elem_of_singleton; reflexivity|].
  apply rtc_once. simpl. apply list_elem_of_singleton. reflexivity.
Qed.

Lemma coherent_empty_state P :
  coherent (Impl := sample) sample_height P empty_state.
Proof. intros d ik m v _ _ Hv. simpl in Hv. by rewrite lookup_empty in Hv. Qed.

(** Node 2 of the sample tree with [get_mtime] flagged: clearing upwards
    deletes the cached time of nodes 1 and 0. *)
Lemma clear_flagged_cache_invalidates_witness :
  let st := with_heap
              (cached {[ "n:get_mtime" := VTime 4; "nI:get_mtime" := VTime 3 ]})
              {[ 2 := with_flagged new_obj {[ "get_mtime" ]} ]} in
  ∃ st', clear_flagged_cache (Impl := sample) 3 2 true false st = Ok (tt, st') ∧
         cache st' !! "n:get_mtime" = None ∧
         cache st' !! "nI:get_mtime" = None.
Proof.
  intros st.
  assert (∃ st', clear_flagged_cache (Impl := sample) 3 2 true false st
                 = Ok (tt, st')) as [st' Hrun].
  { eexists. vm_compute. reflexivity. }
  exists st'. split; [exact Hrun|].
  destruct (clear_flagged_cache_invalidates (Impl := sample) 3 2 true false
              st tt st') as [_ Hgone].
  - discriminate.
  - exact Hrun.
  - split.
    + destruct (Hgone 0) as (ik & Hik & Hk).
      * right. left. split; [reflexivity|apply sample_ancestor_2_0].
      * injection Hik as <-. apply (Hk "get_mtime").
        vm_compute. reflexivity.
    + destruct (Hgone 1) as (ik & Hik & Hk).
      * right. left. split; [reflexivity|]. apply rtc_once. simpl.
        apply list_elem_of_singleton. reflexivity.
      * injection Hik as <-. apply (Hk "get_mtime").
        vm_compute. reflexivity.
Defined.

(** The same call deletes nothing but entries of nodes 2, 1 and 0 for
    [get_mtime]. *)
Lemma clear_flagged_cache_frame_witness :
  let st := with_heap
              (cached {[ "n:get_mtime" := VTime 4; "nIII:get_mtime" := VTime 3 ]})
              {[ 2 := with_flagged new_obj {[ "get_mtime" ]} ]} in
  ∃ st', clear_flagged_cache (Impl := sample) 3 2 true false st = Ok (tt, st') ∧
         deletes_within (Impl := sample) (visited (Impl := sample) true false 2)
           (_flagged_for_deletion (obj_of st 2)) st st' ∧
         _flagged_for_deletion (obj_of st' 1)
         = _flagged_for_deletion (obj_of st 1).
Proof.
  intros st.
  assert (∃ st', clear_flagged_cache (Impl := sample) 3 2 true false st
                 = Ok (tt, st')) as [st' Hrun].
  { eexists. vm_compute. reflexivity. }
  exists st'. split; [exact Hrun|].
  destruct (clear_flagged_cache_frame (Impl := sample) 3 2 true false
              st tt st') as (Hd & Hflags & _).
  - discriminate.
  - exact Hrun.
  - split; [exact Hd|]. apply Hflags. lia.
Defined.

(** Node 3 is a sibling of node 1: its cached time survives the upward
    invalidation from node 2. *)
Lemma clear_flagged_cache_spares_witness :
  let st := with_heap
              (cached {[ "n:get_mtime" := VTime 4; "nIII:get_mtime" := VTime 3 ]})
              {[ 2 := with_flagged new_obj {[ "get_mtime" ]} ]} in
  ∃ st', clear_flagged_cache (Impl := sample) 3 2 true false st = Ok (tt, st') ∧
         cache st' !! "nIII:get_mtime" = Some (VTime 3).
Proof.
  intros st.
  assert (∃ st', clear_flagged_cache (Impl := sample) 3 2 true false st
                 = Ok (tt, st')) as [st' Hrun].
  { eexists. vm_compute. reflexivity. }
  exists st'. split; [exact Hrun|].
  transitivity (cache st !! "nIII:get_mtime"); [|reflexivity].
  apply (clear_flagged_cache_spares (Impl := sample) 3 2 true false
           st tt st' 3 (key_of 3) MTIME).
  - apply sample_keys_distinct.
  - discriminate.
  - intros k Hk. exists MTIME.
    change (k ∈ ({[ "get_mtime" ]} : gset string)) in Hk.
    by apply elem_of_singleton in Hk.
  - exact Hrun.
  - reflexivity.
  - intros [H|[[_ H]|[H _]]]; [discriminate| |discriminate].
    apply sample_ancestor_2 in H as [H|[H|H]]; discriminate.
Defined.

(** [clear_all_cache(children=False)] on node 2 of the sample tree deletes
    the statistics cached for nodes 1 and 0, whichever they are. *)
Lemma clear_all_cache_clears_witness :
  let st := cached {[ "n:get_total_wordcount" := VInt 7;
                      "nI:get_mtime" := VTime 4 ]} in
  ∃ st', clear_all_cache (Impl := sample) 3 2 false true st = Ok (tt, st') ∧
         cache st' !! "n:get_total_wordcount" = None ∧
         cache st' !! "nI:get_mtime" = None.
Proof.
  intros st.
  assert (∃ st', clear_all_cache (Impl := sample) 3 2 false true st
                 = Ok (tt, st')) as [st' Hrun].
  { eexists. vm_compute. reflexivity. }
  exists st'. split; [exact Hrun|].
  destruct (clear_all_cache_clears (Impl := sample) 3 2 false true st tt st')
    as [_ Hgone].
  - discriminate.
  - exact Hrun.
  - split.
    + destruct (Hgone 0) as (ik & Hik & Hk).
      * right. left. split; [reflexivity|apply sample_ancestor_2_0].
      * injection Hik as <-. apply (Hk TOTAL).
    + destruct (Hgone 1) as (ik & Hik & Hk).
      * right. left. split; [reflexivity|]. apply rtc_once. simpl.
        apply list_elem_of_singleton. reflexivity.
      * injection Hik as <-. apply (Hk MTIME).
Defined.

(** The raw total of node 2 of the sample tree is 100, and the cache holds
    the stale totals 7 for node 2 and 8 for node 1 beside the right total
    of node 3: after the upward invalidation from node 2 the root reads
    1 + (10 + 100) + 1000. *)
Lemma clear_all_cache_restores_coherence_witness :
  let st := cached {[ "nII:get_total_wordcount" := VInt 7;
                      "nI:get_total_wordcount" := VInt 8;
                      "nIII:get_total_wordcount" := VInt 1000 ]} in
  ∃ st' st'',
    clear_all_cache (Impl := sample) 3 2 false true st = Ok (tt, st') ∧
    get_total_wordcount (Impl := sample) 3 0 st' = Ok (VInt 1111, st'').
Proof.
  intros st.
  assert (∃ st', clear_all_cache (Impl := sample) 3 2 false true st
                 = Ok (tt, st')) as [st' Hrun].
  { eexists. vm_compute. reflexivity. }
  destruct (clear_all_cache_restores_coherence (Impl := sample) sample_height
              3 2 st tt st') as [_ Hread].
  - intros d ik m v Hik Hv. injection Hik as <-.
    unfold st, cached in Hv. cbn [cache] in Hv.
    apply lookup_insert_Some in Hv as [[Hk <-]|[_ Hv]].
    { destruct (sample_keys_distinct sample_actions 2 d (key_of 2) (key_of d)
                  TOTAL m eq_refl eq_refl Hk) as [<- _].
      right. apply rtc_refl. }
    apply lookup_insert_Some in Hv as [[Hk <-]|[_ Hv]].
    { destruct (sample_keys_distinct sample_actions 1 d (key_of 1) (key_of d)
                  TOTAL m eq_refl eq_refl Hk) as [<- _].
      right. apply rtc_once. simpl. apply list_elem_of_singleton. reflexivity. }
    apply lookup_singleton_Some in Hv as [Hk <-].
    destruct (sample_keys_distinct sample_actions 3 d (key_of 3) (key_of d)
                TOTAL m eq_refl eq_refl Hk) as [<- <-].
    left. reflexivity.
  - exact Hrun.
  - destruct (Hread (sample_children_wf sample_actions)
                (sample_keys_implemented sample_actions)
                (sample_keys_distinct sample_actions)
                (heap_ok_cached sample_actions _) 0 TOTAL 3)
      as [st'' Hget]; [simpl; lia|].
    exists st', st''. split; [exact Hrun|exact Hget].
Defined.

(** On the sample tree both calls return on node 1, in both directions. *)
Lemma clear_flagged_cache_returns_witness :
  (∃ st', clear_flagged_cache (Impl := sample) 3 1 true true empty_state
          = Ok (tt, st')) ∧
  (∃ st', clear_all_cache (Impl := sample) 3 1 true true empty_state
          = Ok (tt, st')).
Proof.
  apply (clear_flagged_cache_returns (Impl := sample) sample_height
           sample_depth 3 1 true true empty_state).
  - apply sample_children_wf.
  - apply sample_parents_wf.
  - apply sample_keys_implemented.
  - apply (heap_ok_cached sample_actions ∅).
  - simpl. lia.
  - simpl. lia.
Defined.

(** The total of the root of the sample tree, read twice. *)
Lemma cached_method_memoised_witness :
  ∃ st', get_total_wordcount (Impl := sample) 3 0 empty_state
         = Ok (VInt 1111, st') ∧
         get_total_wordcount (Impl := sample) 1 0 st' = Ok (VInt 1111, st').
Proof.
  assert (∃ st', getattr (Impl := sample) 3 TOTAL 0 empty_state
                 = Ok (VInt 1111, st')) as [st' Hrun].
  { eexists. vm_compute. reflexivity. }
  exists st'. split; [exact Hrun|].
  exact (cached_method_memoised (Impl := sample) 3 TOTAL 0 empty_state
           (VInt 1111) st' Hrun 0).
Defined.

(** Reading the total of the root leaves the cached time of node 3
    alone. *)
Lemma cached_method_quiet_witness :
  let st := cached {[ "nIII:get_mtime" := VTime 4 ]} in
  ∃ v st', get_total_wordcount (Impl := sample) 3 0 st = Ok (v, st') ∧
           cache st' !! "nIII:get_mtime" = Some (VTime 4).
Proof.
  intros st.
  assert (∃ v st', getattr (Impl := sample) 3 TOTAL 0 st = Ok (v, st'))
    as (v & st' & Hrun).
  { do 2 eexists. vm_compute. reflexivity. }
  exists v, st'. split; [exact Hrun|].
  destruct (cached_method_quiet (Impl := sample) 3 TOTAL 0 st v st' Hrun)
    as (Hkeeps & _).
  apply Hkeeps. reflexivity.
Defined.

(** The root of the sample tree on an empty cache. *)
Lemma cached_method_from_scratch_witness :
  ∃ st', get_total_wordcount (Impl := sample) 3 0 empty_state
         = Ok (VInt 1111, st') ∧
         cache st' !! "n:get_total_wordcount" = Some (VInt 1111).
Proof.
  destruct (cached_method_from_scratch (Impl := sample) sample_height 3 TOTAL
              0 empty_state) as (st' & Hrun & Hentry & _).
  - apply sample_children_wf.
  - apply sample_keys_implemented.
  - apply sample_keys_distinct.
  - simpl. lia.
  - apply (heap_ok_cached sample_actions ∅).
  - apply coherent_empty_state.
  - exists st'. split; [exact Hrun|]. apply (Hentry (key_of 0)). reflexivity.
Defined.

(** Node 1 of the sample tree: raw total 10, and 100 from its child. *)
Lemma count_methods_sum_witness :
  ∃ st', get_total_wordcount (Impl := sample) 2 1 empty_state
         = Ok (VInt 110, st') ∧
         cache st' !! "nI:get_total_wordcount" = Some (VInt 110).
Proof.
  assert (∃ st1 st2,
    initialize_children (Impl := sample) 1 empty_state = Ok (tt, st1) ∧
    self_children 1 st1 = Ok ([2], st1) ∧
    comprehension (getattr (Impl := sample) 1 TOTAL) [2] st1
    = Ok (VInt <$> [100%Z], st2))
    as (st1 & st2 & Hinit & Hself & Hvalues).
  { do 2 eexists. split; [vm_compute; reflexivity|].
    split; vm_compute; reflexivity. }
  exact (count_methods_sum (Impl := sample) TOTAL
           (_get_total_wordcount (TreeItemImpl := sample)) 1 1 (key_of 1)
           empty_state st1 [2] [100%Z] st2 eq_refl eq_refl
           (or_introl eq_refl) Hinit Hself Hvalues).
Defined.

(** Node 2 of the sample tree has a time stamp left under the key of its
    total: the total of node 1 raises [TypeError]. *)
Lemma count_methods_type_error_witness :
  let st := cached {[ "nII:get_total_wordcount" := VTime 4 ]} in
  get_total_wordcount (Impl := sample) 2 1 st = Raise TypeError.
Proof.
  intros st.
  assert (∃ st1 st2,
    initialize_children (Impl := sample) 1 st = Ok (tt, st1) ∧
    self_children 1 st1 = Ok ([2], st1) ∧
    comprehension (getattr (Impl := sample) 1 TOTAL) [2] st1
    = Ok ([VTime 4], st2))
    as (st1 & st2 & Hinit & Hself & Hvalues).
  { do 2 eexists. split; [vm_compute; reflexivity|].
    split; vm_compute; reflexivity. }
  exact (count_methods_type_error (Impl := sample) TOTAL
           (_get_total_wordcount (TreeItemImpl := sample)) 1 1 (key_of 1)
           st st1 [2] [VTime 4] st2 eq_refl eq_refl eq_refl Hinit Hself
           Hvalues eq_refl).
Defined.

(** The root of the sample tree has the raw time 0; its children hold the
    cached times 7 and 4. *)
Lemma get_mtime_max_witness :
  let st := cached {[ "nI:get_mtime" := VTime 7; "nIII:get_mtime" := VTime 4 ]} in
  ∃ st', get_mtime (Impl := sample) 2 0 st = Ok (VTime 7, st') ∧
         cache st' !! "n:get_mtime" = Some (VTime 7).
Proof.
  intros st.
  assert (∃ st1 st2,
    initialize_children (Impl := sample) 0 st = Ok (tt, st1) ∧
    self_children 0 st1 = Ok ([1; 3], st1) ∧
    comprehension (get_mtime (Impl := sample) 1) [1; 3] st1
    = Ok (VTime <$> [7%Z; 4%Z], st2))
    as (st1 & st2 & Hinit & Hself & Hvalues).
  { do 2 eexists. split; [vm_compute; reflexivity|].
    split; vm_compute; reflexivity. }
  destruct (get_mtime_max (Impl := sample) 1 0 (key_of 0) st st1 [1; 3]
              [7%Z; 4%Z] st2 eq_refl (or_introl eq_refl) Hinit Hself Hvalues)
    as [Hrun _].
  exact Hrun.
Defined.

(** The root of the sample tree has a raw record created at 0; its
    children hold cached records created at 3 and at 8. *)
Lemma get_last_updated_max_witness :
  let u t := {| u_id := Some t; creation_time := Some t;
                u_snippet := Some EmptyString |} in
  let st := cached {[ "nI:get_last_updated" := VUpdated (u 3%Z);
                      "nIII:get_last_updated" := VUpdated (u 8%Z) ]} in
  ∃ st', get_last_updated (Impl := sample) 2 0 st = Ok (VUpdated (u 8%Z), st') ∧
         cache st' !! "n:get_last_updated" = Some (VUpdated (u 8%Z)).
Proof.
  intros u st.
  assert (∃ st1 st2,
    initialize_children (Impl := sample) 0 st = Ok (tt, st1) ∧
    self_children 0 st1 = Ok ([1; 3], st1) ∧
    comprehension (get_last_updated (Impl := sample) 1) [1; 3] st1
    = Ok (VUpdated <$> [u 3%Z; u 8%Z], st2))
    as (st1 & st2 & Hinit & Hself & Hvalues).
  { do 2 eexists. split; [vm_compute; reflexivity|].
    split; vm_compute; reflexivity. }
  destruct (get_last_updated_max (Impl := sample) 1 0 (key_of 0) st st1 [1; 3]
              [u 3%Z; u 8%Z] st2 eq_refl (or_introl eq_refl) Hinit Hself
              Hvalues)
    as [Hrun _].
  exact Hrun.
Defined.

(** The root of the sample tree on an empty cache. *)
Lemma get_mtime_latest_witness :
  ∃ st' d, get_mtime (Impl := sample) 3 0 empty_state
           = Ok (VTime (_get_mtime (TreeItemImpl := sample) d), st') ∧
           descendant (Impl := sample) 0 d.
Proof.
  destruct (get_mtime_latest (Impl := sample) sample_height 3 0 empty_state)
    as (st' & d & Hrun & Hd & _).
  - apply sample_children_wf.
  - apply sample_keys_implemented.
  - apply sample_keys_distinct.
  - simpl. lia.
  - apply (heap_ok_cached sample_actions ∅).
  - apply coherent_empty_state.
  - exists st', d. split; [exact Hrun|exact Hd].
Defined.

(** The root of the sample tree on an empty cache: the latest action
    below it is the one of node 3, at 9. *)
Lemma get_last_action_latest_witness :
  ∃ st' d, get_last_action (Impl := sample) 3 0 empty_state
           = Ok (VAction (sample_actions d), st') ∧
           (default 0 (mtime (sample_actions 3%nat))
            ≤ default 0 (mtime (sample_actions d)))%Z.
Proof.
  destruct (get_last_action_latest (Impl := sample) sample_height 3 0
              empty_state) as (st' & d & Hrun & _ & Hle).
  - apply sample_children_wf.
  - apply sample_keys_implemented.
  - apply sample_keys_distinct.
  - simpl. lia.
  - apply (heap_ok_cached sample_actions ∅).
  - apply coherent_empty_state.
  - exists st', d. split; [exact Hrun|]. apply (Hle 3).
    apply rtc_once. simpl. apply list_elem_of_further, list_elem_of_here.
Defined.

(** The root of the sample tree on an empty cache. *)
Lemma get_last_updated_latest_witness :
  ∃ st' d, get_last_updated (Impl := sample) 3 0 empty_state
           = Ok (VUpdated (_get_last_updated (TreeItemImpl := sample) d), st') ∧
           descendant (Impl := sample) 0 d.
Proof.
  destruct (get_last_updated_latest (Impl := sample) sample_height 3 0
              empty_state) as (st' & d & Hrun & Hd & _).
  - apply sample_children_wf.
  - apply sample_keys_implemented.
  - apply sample_keys_distinct.
  - simpl. lia.
  - apply (heap_ok_cached sample_actions ∅).
  - apply coherent_empty_state.
  - exists st', d. split; [exact Hrun|exact Hd].
Defined.

(** On the sample tree no word is translated: the translated count of the
    root lies between 0 and its total. *)
Lemma count_methods_ordered_witness :
  ∃ z1 z2 st1 st2,
    get_translated_wordcount (Impl := sample) 3 0 empty_state
    = Ok (VInt z1, st1) ∧
    get_total_wordcount (Impl := sample) 3 0 st1 = Ok (VInt z2, st2) ∧
    (0 ≤ z1 ≤ z2)%Z.
Proof.
  apply (count_methods_ordered (Impl := sample) sample_height 3 TRANSLATED
           TOTAL (_get_translated_wordcount (TreeItemImpl := sample))
           (_get_total_wordcount (TreeItemImpl := sample)) 0 empty_state).
  - apply sample_children_wf.
  - apply sample_keys_implemented.
  - apply sample_keys_distinct.
  - simpl. lia.
  - apply (heap_ok_cached sample_actions ∅).
  - apply coherent_empty_state.
  - reflexivity.
  - reflexivity.
  - intros [|[|[|[|d]]]] _; simpl; lia.
Defined.

(** The root of the sample tree on an empty cache: 2 units of its own, 3
    from node 1, none from node 3. *)
Lemma get_error_unit_count_sum_witness :
  ∃ st', get_error_unit_count (Impl := sample) 3 0 empty_state
         = Ok (VInt 5, st').
Proof.
  assert (∃ st1 st2,
    initialize_children (Impl := sample) 0 empty_state = Ok (tt, st1) ∧
    self_children 0 st1 = Ok ([1; 3], st1) ∧
    comprehension (get_checks (Impl := sample) 2) [1; 3] st1
    = Ok (VChecks <$> [ {| unit_count := 3;
                    checks := {[ "critical" := 2%Z; "warning" := 1%Z ]} |};
                 {| unit_count := 0; checks := ∅ |} ], st2))
    as (st1 & st2 & Hinit & Hself & Hvalues).
  { do 2 eexists. split; [vm_compute; reflexivity|].
    split; vm_compute; reflexivity. }
  destruct (get_error_unit_count_sum (Impl := sample) 2 0 (key_of 0)
              empty_state st1 [1; 3] _ st2 eq_refl (or_introl eq_refl) Hinit
              Hself Hvalues) as (st' & Hrun & _).
  exists st'. exact Hrun.
Defined.

(** The root of the sample tree with stale totals cached for the root and
    for node 1. *)
Lemma refresh_stats_coherent_subtree_witness :
  let st := cached {[ "n:get_total_wordcount" := VInt 7;
                      "nI:get_total_wordcount" := VInt 8 ]} in
  ∃ st', refresh_stats (Impl := sample) 5 0 true st = Ok (tt, st') ∧
         coherent (Impl := sample) sample_height (descendant (Impl := sample) 0)
           st'.
Proof.
  intros st.
  destruct (refresh_stats_coherent_subtree (Impl := sample) sample_height
              sample_depth 2 5 0 st) as (st' & Hrun & Hcoh & _).
  - apply sample_children_wf.
  - apply sample_parents_wf.
  - intros [|[|[|[|x]]]]; simpl; lia.
  - apply sample_keys_implemented.
  - apply sample_keys_distinct.
  - apply heap_ok_cached.
  - simpl. lia.
  - exists st'. split; [exact Hrun|exact Hcoh].
Defined.

(** The root of the sample tree on an empty cache, without
    [include_children]. *)
Lemma refresh_stats_warms_witness :
  ∃ st', refresh_stats (Impl := sample) 3 0 false empty_state = Ok (tt, st') ∧
         cache st' !! "n:get_total_wordcount" = Some (VInt 1111) ∧
         cache st' !! "n:get_last_action" = Some (VAction (action_at 3 9)).
Proof.
  destruct (refresh_stats_warms (Impl := sample) sample_height 3 0 empty_state)
    as (st' & Hrun & _ & Hentries).
  - apply sample_children_wf.
  - apply sample_keys_implemented.
  - apply sample_keys_distinct.
  - simpl. lia.
  - apply (heap_ok_cached sample_actions ∅).
  - apply coherent_empty_state.
  - exists st'. split; [exact Hrun|]. split.
    + apply (Hentries TOTAL (key_of 0)). reflexivity.
    + apply (Hentries LAST_ACTION (key_of 0)). reflexivity.
Defined.

(** Node 2 of the sample tree gets an action at 9; node 3, which is not
    above it, holds an older action and keeps it. *)
Lemma set_last_action_frame_witness :
  let a := action_at 7 9 in
  let st := cached {[ "nI:get_last_action" := VAction (action_at 1 3);
                      "nIII:get_last_action" := VAction (action_at 3 1) ]} in
  ∃ st', set_last_action (Impl := sample) 3 2 a st = Ok (tt, st') ∧
         cache st' !! "nIII:get_last_action" = Some (VAction (action_at 3 1)).
Proof.
  intros a st.
  assert (∃ st', set_last_action (Impl := sample) 3 2 a st = Ok (tt, st'))
    as [st' Hrun].
  { eexists. vm_compute. reflexivity. }
  exists st'. split; [exact Hrun|].
  destruct (set_last_action_frame (Impl := sample) 3 2 a st tt st' Hrun)
    as (_ & _ & _ & _ & Hother).
  transitivity (cache st !! "nIII:get_last_action"); [|reflexivity].
  apply (Hother (sample_keys_distinct sample_actions) 3 (key_of 3) LAST_ACTION).
  - reflexivity.
  - left. intros H. apply sample_ancestor_2 in H as [H|[H|H]]; discriminate.
Defined.

(** Node 2 of the sample tree gets an action at 9 while node 1 holds one
    at 3 and the root one at 5: the action reaches the root. *)
Lemma set_last_action_reaches_ancestors_witness :
  let a := action_at 7 9 in
  let st := cached {[ "nI:get_last_action" := VAction (action_at 1 3);
                      "n:get_last_action" := VAction (action_at 0 5) ]} in
  ∃ st', set_last_action (Impl := sample) 3 2 a st = Ok (tt, st') ∧
         cache st' !! "n:get_last_action" = Some (VAction a).
Proof.
  intros a st.
  assert (∃ st', set_last_action (Impl := sample) 3 2 a st = Ok (tt, st'))
    as [st' Hrun].
  { eexists. vm_compute. reflexivity. }
  exists st'. split; [exact Hrun|].
  change (last_action_entry (Impl := sample) st' 0 = Some (VAction a)).
  apply (set_last_action_reaches_ancestors (Impl := sample) sample_depth 3 2
           a st tt st').
  - apply sample_parents_wf.
  - apply sample_keys_distinct.
  - exact Hrun.
  - intros x Hx. apply sample_above_2 in Hx as [-> | ->].
    + exists (action_at 1 3), 3%Z, 9%Z.
      split; [reflexivity|]. split; [reflexivity|]. split; [reflexivity|lia].
    + exists (action_at 0 5), 5%Z, 9%Z.
      split; [reflexivity|]. split; [reflexivity|]. split; [reflexivity|lia].
  - apply sample_ancestor_2_0.
Defined.

(** The same call returns. *)
Lemma set_last_action_returns_witness :
  let a := action_at 7 9 in
  let st := cached {[ "nI:get_last_action" := VAction (action_at 1 3) ]} in
  ∃ st', set_last_action (Impl := sample) 3 2 a st = Ok (tt, st').
Proof.
  intros a st.
  apply (set_last_action_returns (Impl := sample) sample_depth 3 2 a st).
  - apply upward_ok_global.
    + apply sample_parents_wf.
    + apply sample_keys_implemented.
  - simpl. lia.
  - by exists 9%Z.
  - intros x Hx. apply sample_above_2 in Hx as [-> | ->]; reflexivity.
Defined.

(** Node 1 of the sample tree holds an action at 3: an action without
    [mtime] on node 2 raises [KeyError]. *)
Lemma set_last_action_missing_mtime_witness :
  let st := cached {[ "nI:get_last_action" := VAction (action_at 1 3) ]} in
  set_last_action (Impl := sample) 3 2 (no_mtime 7) st = Raise KeyError.
Proof.
  intros st.
  apply (set_last_action_missing_mtime (Impl := sample) 2 2 (no_mtime 7)
           (key_of 2) (key_of 1) 1 [] (action_at 1 3) st).
  - reflexivity.
  - reflexivity.
  - reflexivity.
  - discriminate.
  - reflexivity.
  - by exists 3%Z.
  - reflexivity.
Defined.

Lemma unkeyed_root_parents_wf : parents_wf (Impl := unkeyed_root) sample_depth.
Proof.
  intros n p Hp. simpl in Hp.
  destruct n as [|[|[|[|n]]]]; simpl in *;
    try (by apply elem_of_nil in Hp);
    apply list_elem_of_singleton in Hp as ->; simpl; lia.
Qed.

(** The root has no cache key: upward invalidation from node 2 raises
    [NotImplementedError]. *)
Lemma clear_flagged_cache_unkeyed_ancestor_witness :
  clear_flagged_cache (Impl := unkeyed_root) 3 2 true false empty_state
  = Raise NotImplementedError ∧
  clear_all_cache (Impl := unkeyed_root) 3 2 false true empty_state
  = Raise NotImplementedError.
Proof.
  destruct (clear_flagged_cache_unkeyed_ancestor (Impl := unkeyed_root)
              sample_depth 3 2 empty_state) as [_ Hraise].
  - apply unkeyed_root_parents_wf.
  - simpl. lia.
  - apply Hraise. exists 0. split; [|reflexivity].
    apply rtc_l with 1; [simpl; apply list_elem_of_singleton; reflexivity|].
    apply rtc_once. simpl. apply list_elem_of_singleton. reflexivity.
Defined.

(** ** [set_last_action] on the sample tree *)

Lemma sample_parents_cover_children la :
  parents_cover_children (Impl := sample_tree la).
Proof.
  intros p c Hc. destruct p as [|[|p]]; simpl in Hc.
  - apply elem_of_cons in Hc as [->|Hc]; [simpl; by apply list_elem_of_singleton|].
    apply list_elem_of_singleton in Hc as ->. simpl.
    by apply list_elem_of_singleton.
  - apply list_elem_of_singleton in Hc as ->. simpl.
    by apply list_elem_of_singleton.
  - by apply elem_of_nil in Hc.
Qed.

Lemma sample_leaf_2 la d : descendant (Impl := sample_tree la) 2 d → d = 2.
Proof.
  intros H. apply rtc_inv in H as [<-|(c & Hc & _)]; [done|].
  simpl in Hc. by apply elem_of_nil in Hc.
Qed.

(** Node 2 of the sample tree gets an action at 9 while its parent 1 holds
    one at 3 and the root one at 5: node 1 receives the call and passes the
    action on to the root. *)
Lemma set_last_action_propagation_witness :
  let a := action_at 7 9 in
  let st := cached {[ "nI:get_last_action" := VAction (action_at 1 3);
                      "n:get_last_action" := VAction (action_at 0 5) ]} in
  ∃ st', set_last_action (Impl := sample) 3 2 a st = Ok (tt, st') ∧
         cache st' !! "nII:get_last_action" = Some (VAction a) ∧
         cache st' !! "nI:get_last_action" = Some (VAction a) ∧
         cache st' !! "n:get_last_action" = Some (VAction a).
Proof.
  intros a st.
  assert (Hrun : ∃ st', set_last_action (Impl := sample) 3 2 a st
                        = Ok (tt, st')).
  { eexists. vm_compute. reflexivity. }
  destruct Hrun as (st' & Hrun). exists st'. split; [exact Hrun|].
  destruct (set_last_action_propagation (Impl := sample) 3 2 a st tt st' Hrun)
    as (ik & Hik & Hown & Hparents & _ & _ & Hreach).
  injection Hik as <-. split; [exact Hown|]. split.
  - destruct (Hparents 1 (key_of 1)) as (Holder & _).
    + simpl. apply list_elem_of_singleton. reflexivity.
    + reflexivity.
    + apply Holder. reflexivity.
  - change (last_action_entry (Impl := sample) st' 0 = Some (VAction a)).
    apply (Hreach sample_depth).
    + apply sample_parents_wf.
    + apply sample_keys_distinct.
    + apply rtc_l with 1.
      * split; [simpl; apply list_elem_of_singleton; reflexivity|].
        exists (key_of 1). split; reflexivity.
      * apply rtc_once.
        split; [simpl; apply list_elem_of_singleton; reflexivity|].
        exists (key_of 0). split; reflexivity.
Defined.

(** C4 as stated fails.  No raw action of the tree is later than 5 and the
    root holds the cached action at 5, the true maximum below it; node 1
    has no cached action.  An action at 9 is recorded on node 2: the call
    returns, the propagation stops at node 1, and the root is left with
    the action at 5, older than the true maximum, now 9. *)
Lemma set_last_action_bound_counterexample :
  let a := action_at 7 9 in
  let st := cached {[ "n:get_last_action" := VAction (action_at 0 5) ]} in
  (∀ x, last_action_bound (Impl := sample_tree early_actions) sample_height
          (_get_last_action (TreeItemImpl := sample_tree early_actions))
          st x) ∧
  ∃ st',
    set_last_action (Impl := sample_tree early_actions) 3 2 a st
    = Ok (tt, st') ∧
    last_action_entry (Impl := sample_tree early_actions) st' 0
    = Some (VAction (action_at 0 5)) ∧
    true_last_action (Impl := sample_tree early_actions) sample_height
      (record_action (Impl := sample_tree early_actions) 2 a) 0 = a ∧
    ¬ last_action_bound (Impl := sample_tree early_actions) sample_height
        (record_action (Impl := sample_tree early_actions) 2 a) st' 0.
Proof.
  intros a st. split.
  - intros x b Hb.
    change (cache st !! make_key (Impl := sample_tree early_actions)
                          (key_of x) (method_name LAST_ACTION)
            = Some (VAction b)) in Hb.
    unfold st, cached in Hb. cbn [cache] in Hb.
    apply lookup_singleton_Some in Hb as [Hk Hb].
    destruct (sample_keys_distinct early_actions 0 x (key_of 0) (key_of x)
                LAST_ACTION LAST_ACTION eq_refl eq_refl Hk) as [<- _].
    injection Hb as <-. vm_compute. discriminate.
  - eexists. split; [vm_compute; reflexivity|].
    split; [reflexivity|]. split; [reflexivity|].
    intros H. specialize (H (action_at 0 5) eq_refl).
    vm_compute in H. by apply H.
Qed.

(** On the sample tree the latest raw action is the one of node 3, at 9;
    node 1 holds the cached action at 3 and the root the one at 9.  An
    action at 12 is recorded on node 2: it replaces the action of node 1
    and, through the call on node 1, the one of the root, and the bound
    holds everywhere afterwards. *)
Lemma set_last_action_monotone_witness :
  let a := action_at 7 12 in
  let st := cached {[ "nI:get_last_action" := VAction (action_at 1 3);
                      "n:get_last_action" := VAction (action_at 3 9) ]} in
  ∃ st', set_last_action (Impl := sample) 3 2 a st = Ok (tt, st') ∧
         cache st' !! "nII:get_last_action" = Some (VAction a) ∧
         (∃ m, cached_mtime (Impl := sample) st' 1 = Some m ∧ (12 ≤ m)%Z) ∧
         (∃ m, cached_mtime (Impl := sample) st' 0 = Some m ∧ (12 ≤ m)%Z) ∧
         ∀ x, last_action_bound (Impl := sample) sample_height
                (record_action (Impl := sample) 2 a) st' x.
Proof.
  intros a st.
  assert (Hrun : ∃ st', set_last_action (Impl := sample) 3 2 a st
                        = Ok (tt, st')).
  { eexists. vm_compute. reflexivity. }
  destruct Hrun as (st' & Hrun). exists st'. split; [exact Hrun|].
  destruct (set_last_action_monotone (Impl := sample) sample_height
              sample_depth 3 2 a st tt st' Hrun)
    as [(ik & Hik & Hown & _) Hbound].
  injection Hik as <-. split; [exact Hown|].
  destruct Hbound as [Habove Hafter].
  - apply sample_children_wf.
  - apply sample_parents_wf.
  - apply sample_keys_distinct.
  - apply sample_parents_cover_children.
  - intros d Hd Hne. by apply sample_leaf_2 in Hd.
  - intros x Hx. apply sample_above_2 in Hx as [-> | ->].
    + exists 3%Z. reflexivity.
    + exists 9%Z. reflexivity.
  - intros x p m m' Hx Hp Hm Hm'. apply sample_above_2 in Hx as [-> | ->].
    + simpl in Hp. apply list_elem_of_singleton in Hp as ->.
      vm_compute in Hm. vm_compute in Hm'.
      injection Hm as <-. injection Hm' as <-. lia.
    + simpl in Hp. by apply elem_of_nil in Hp.
  - split; [|split].
    + apply (Habove 1). exists 1. split; [|apply rtc_refl].
      simpl. apply list_elem_of_singleton. reflexivity.
    + apply (Habove 0). exists 1. split.
      * simpl. apply list_elem_of_singleton. reflexivity.
      * apply rtc_once. simpl. apply list_elem_of_singleton. reflexivity.
    + apply Hafter. intros x b Hb.
      change (cache st !! make_key (Impl := sample) (key_of x)
                            (method_name LAST_ACTION)
              = Some (VAction b)) in Hb.
      unfold st, cached in Hb. cbn [cache] in Hb.
      apply lookup_insert_Some in Hb as [[Hk Hb]|[_ Hb]].
      * destruct (sample_keys_distinct sample_actions 1 x (key_of 1)
                    (key_of x) LAST_ACTION LAST_ACTION eq_refl eq_refl Hk)
          as [<- _].
        injection Hb as <-. vm_compute. discriminate.
      * apply lookup_singleton_Some in Hb as [Hk Hb].
        destruct (sample_keys_distinct sample_actions 0 x (key_of 0)
                    (key_of x) LAST_ACTION LAST_ACTION eq_refl eq_refl Hk)
          as [<- _].
        injection Hb as <-. vm_compute. discriminate.
Defined.
